(** * Task-Alarm: time calculation and alarm lifecycle

    A shallow embedding of the scheduling core of the Task-Alarm
    application (React Native / TypeScript):

    - [utils/timeCalculations.ts]: [parseTimeString], [isValidTimeString],
      [getNextWeekdayOccurrence], [getNextAlarmTime];
    - [services/NotificationService.ts]: the foreground notification
      handler, [scheduleNotification], [cancelNotification];
    - [services/SchedulerService.ts]: [scheduleAlarm], [cancelAlarm],
      [scheduleSnooze], [rescheduleRepeatingAlarm], [rescheduleAllAlarms];
    - [services/StorageService.ts]: [getAlarms], [saveAlarms], [addAlarm],
      [updateAlarm];
    - [context/AlarmContext.tsx]: [addAlarm], [updateAlarm], [toggleAlarm];
    - [App.tsx]: the [onSnooze] / [onDismiss] handlers.

    Conventions.  JavaScript strings are Rocq strings (code units below
    256).  A [Date] is the integer number of milliseconds of its local
    wall-clock reading (its local time value), and the operations of
    [Date] are those of ECMAScript on the calendar fields.  The worlds of
    the effectful code are in a zone whose offset from UTC is constant:
    there these operations are the whole of the matter and the difference
    of two readings is the time elapsed between them; the offset is taken
    to be zero, so that a reading is also a time value.  Across a
    daylight-saving change the two differ: [Zoned] gives the time
    calculations on time values (milliseconds of UTC) for a zone given by
    its offsets, built from the same operations, and agrees with the
    former wherever the offset of the zone does not change.
    [new Date()] is an explicit argument [now] of the pure functions and a
    field of the world for the effectful ones; the clock does not move
    while one operation runs.  Asynchronous functions are run to completion
    one at a time; an exception is a [Throw] result.  The callbacks of the
    context are those of the latest render, which read the list of alarms
    left by the call before; [AlarmContext.updateAlarmFrom] is the callback
    of any render, with the list it captured. *)

From Stdlib Require Import ZArith Lia QArith Ascii String.
From stdpp Require Import base option list strings pretty gmap.

Local Open Scope string_scope.
Local Open Scope Z_scope.

(** ** Results of code that may throw *)

Inductive result (A : Type) : Type :=
| Ok (a : A)
| Throw (msg : string).
Arguments Ok {A} a.
Arguments Throw {A} msg.

Definition is_ok {A} (r : result A) : bool :=
  match r with Ok _ => true | Throw _ => false end.

(** ** JavaScript string primitives used by the time parser *)

Module Js.

(** [String.prototype.split(':')]: the pieces between the colons; the
    result always has at least one element. *)
Fixpoint split_colon (s : string) : list string :=
  match s with
  | EmptyString => [EmptyString]
  | String c rest =>
      if Ascii.eqb c ":"%char then EmptyString :: split_colon rest
      else match split_colon rest with
           | piece :: pieces => String c piece :: pieces
           | [] => [String c EmptyString]
           end
  end.

(** White space skipped by [parseInt] (the code units below 256 of
    StrWhiteSpaceChar): TAB, LF, VT, FF, CR, SP, NBSP. *)
Definition is_white (c : ascii) : bool :=
  let n := nat_of_ascii c in
  ((9 <=? n) && (n <=? 13) || (n =? 32) || (n =? 160))%nat.

Fixpoint trim_start (s : string) : string :=
  match s with
  | String c rest => if is_white c then trim_start rest else s
  | EmptyString => EmptyString
  end.

Definition digit_value (c : ascii) : option Z :=
  let n := nat_of_ascii c in
  if ((48 <=? n) && (n <=? 57))%nat then Some (Z.of_nat n - 48) else None.

(** Value of the longest prefix of decimal digits, [acc] being the value
    of the digits already read and [seen] telling whether there was one. *)
Fixpoint digits_prefix (s : string) (acc : Z) (seen : bool) : option Z :=
  match s with
  | String c rest =>
      match digit_value c with
      | Some d => digits_prefix rest (10 * acc + d) true
      | None => if seen then Some acc else None
      end
  | EmptyString => if seen then Some acc else None
  end.

(** [parseInt(s, 10)]; [None] is NaN.  The sign of zero is not kept:
    the callers only compare the result with integers. *)
Definition parseInt10 (s : string) : option Z :=
  match trim_start s with
  | String "-" rest => Z.opp <$> digits_prefix rest 0 false
  | String "+" rest => digits_prefix rest 0 false
  | t => digits_prefix t 0 false
  end.

(** [parseInt(x, 10)] where [x] may be [undefined] (a missing array
    element): ToString gives "undefined", which has no digit. *)
Definition parseInt10_opt (x : option string) : option Z :=
  match x with
  | Some s => parseInt10 s
  | None => parseInt10 "undefined"
  end.

(** [String.prototype.trim]: the white space at both ends is dropped. *)
Fixpoint trim_end (s : string) : string :=
  match s with
  | EmptyString => EmptyString
  | String c rest =>
      match trim_end rest with
      | EmptyString => if is_white c then EmptyString else String c EmptyString
      | kept => String c kept
      end
  end.

Definition trim (s : string) : string := trim_end (trim_start s).

End Js.

(** ** utils/timeCalculations.ts: parsing *)

Record HM := { hours : Z; minutes : Z }.

Definition invalid_time_format : string := "Invalid time format. Expected HH:mm".

(** The range test of [parseTimeString] on the two parsed numbers; a NaN on
    either side makes it fail. *)
Definition time_in_range (h m : option Z) : option HM :=
  match h, m with
  | Some hv, Some mv =>
      if (hv <? 0) || (23 <? hv) || (mv <? 0) || (59 <? mv) then None
      else Some {| hours := hv; minutes := mv |}
  | _, _ => None
  end.

Definition parseTimeString (time : string) : result HM :=
  let parts := Js.split_colon time in
  let hoursStr := parts !! 0%nat in
  let minutesStr := parts !! 1%nat in
  let h := Js.parseInt10_opt hoursStr in
  let m := Js.parseInt10_opt minutesStr in
  match time_in_range h m with
  | Some hm => Ok hm
  | None => Throw invalid_time_format
  end.

Definition isValidTimeString (time : string) : bool :=
  is_ok (parseTimeString time).

(** ** Dates *)

Module Date.

(** A [Date]: milliseconds of local wall-clock time since the local
    1970-01-01T00:00 (a Thursday), the local time value of ECMAScript.
    The operations below work on the calendar fields of that reading, as
    [setHours], [setDate] and [getDay] do.  In a zone of constant offset
    the reading of a date is its time value plus the offset, so that
    comparing or subtracting readings is comparing or subtracting time
    values; [Zoned] further down is for the zones where it is not. *)
Definition t := Z.

Definition msPerMinute : Z := 60000.
Definition msPerHour : Z := 3600000.
Definition msPerDay : Z := 86400000.

(** Midnight of the day of [d]. *)
Definition startOfDay (d : t) : t := d / msPerDay * msPerDay.

(** [d.setHours(h, m, 0, 0)] on the local reading: same calendar day,
    given time of day. *)
Definition setHours (d : t) (h m : Z) : t :=
  startOfDay d + h * msPerHour + m * msPerMinute.

(** [d.setDate(d.getDate() + k)] on the local reading: [k] calendar days
    later, same time of day.  The time elapsed from [d] to the result is
    [k] times 24 hours only where the offset of the zone is the same at
    both. *)
Definition addDays (d : t) (k : Z) : t := d + k * msPerDay.

(** [d.getDay()]: 0 is Sunday, ..., 6 is Saturday. *)
Definition getDay (d : t) : Z := (d / msPerDay + 4) mod 7.

(** Days from 1970-01-01 to the civil date [y]-[m]-[d] (Gregorian). *)
Definition daysFromCivil (y m d : Z) : Z :=
  let y' := if m <=? 2 then y - 1 else y in
  let era := y' / 400 in
  let yoe := y' - era * 400 in
  let doy := (153 * (if 2 <? m then m - 3 else m + 9) + 2) / 5 + d - 1 in
  let doe := yoe * 365 + yoe / 4 - yoe / 100 + doy in
  era * 146097 + doe - 719468.

(** [new Date(y, m - 1, d, h, mi)], months counted from 1 here. *)
Definition make (y m d h mi : Z) : t :=
  daysFromCivil y m d * msPerDay + h * msPerHour + mi * msPerMinute.

(** [d.getHours()] and [d.getMinutes()]. *)
Definition getHours (d : t) : Z := (d mod msPerDay) / msPerHour.
Definition getMinutes (d : t) : Z := (d mod msPerHour) / msPerMinute.

(** [a.toDateString() === b.toDateString()]: the same calendar day. *)
Definition sameDay (a b : t) : bool := a / msPerDay =? b / msPerDay.

(** The time values a [Date] can hold: 100 000 000 days on either side of
    the epoch.  [new Date(v)] with [v] outside is an Invalid Date. *)
Definition maxTimeValue : Z := 8640000000000000.
Definition isValid (v : Z) : bool := (- maxTimeValue <=? v) && (v <=? maxTimeValue).

End Date.

(** ** utils/timeCalculations.ts: printing a time *)

(** [n.toString().padStart(2, '0')] *)
Definition pad2 (n : Z) : string :=
  let s := pretty n in
  if (String.length s <? 2)%nat then "0" +:+ s else s.

(** The text [`${pad2(hours)}:${pad2(minutes)}`] that [formatDateToTime]
    and the 24-hour branch of [formatAlarmTime] build. *)
Definition formatHM (h m : Z) : string := pad2 h +:+ ":" +:+ pad2 m.

Definition formatDateToTime (date : Date.t) : string :=
  formatHM (Date.getHours date) (Date.getMinutes date).

(** The 12-hour text of [formatAlarmTime]. *)
Definition format12Hour (h m : Z) : string :=
  let period := if 12 <=? h then "PM" else "AM" in
  let displayHours := if h =? 0 then 12 else if 12 <? h then h - 12 else h in
  pretty displayHours +:+ ":" +:+ pad2 m +:+ " " +:+ period.

(** ** types/alarm.types.ts and constants/alarm.constants.ts *)

Inductive WeekDay := Mon | Tue | Wed | Thu | Fri | Sat | Sun.

#[global] Instance WeekDay_eq_dec : EqDecision WeekDay.
Proof. solve_decision. Defined.

Definition WEEKDAY_TO_NUMBER (d : WeekDay) : Z :=
  match d with
  | Sun => 0 | Mon => 1 | Tue => 2 | Wed => 3 | Thu => 4 | Fri => 5 | Sat => 6
  end.

(** A JavaScript object used as a table: a missing key reads [undefined]. *)
Definition NUMBER_TO_WEEKDAY (n : Z) : option WeekDay :=
  match n with
  | 0 => Some Sun | 1 => Some Mon | 2 => Some Tue | 3 => Some Wed
  | 4 => Some Thu | 5 => Some Fri | 6 => Some Sat
  | _ => None
  end.

Definition WEEK_DAYS : list WeekDay := [Mon; Tue; Wed; Thu; Fri; Sat; Sun].

(** A weekday, or [undefined], inside a template string. *)
Definition weekdayText (d : option WeekDay) : string :=
  match d with
  | Some Mon => "Mon" | Some Tue => "Tue" | Some Wed => "Wed"
  | Some Thu => "Thu" | Some Fri => "Fri" | Some Sat => "Sat"
  | Some Sun => "Sun"
  | None => "undefined"
  end.

(** The [Alarm] interface.  The two ISO time stamps are kept as the
    instants they print. *)
Record Alarm := {
  id : string;
  label : string;
  description : option string;
  time : string;
  repeats : list WeekDay;
  isEnabled : bool;
  soundUri : string;
  snoozeEnabled : bool;
  snoozeDuration : Z;
  notificationId : option string;
  createdAt : Date.t;
  updatedAt : Date.t;
}.

(** [AlarmInput]: an [Alarm] without the fields the system generates. *)
Record AlarmInput := {
  in_label : string;
  in_description : option string;
  in_time : string;
  in_repeats : list WeekDay;
  in_isEnabled : bool;
  in_soundUri : string;
  in_snoozeEnabled : bool;
  in_snoozeDuration : Z;
}.

(** ** utils/timeCalculations.ts: next trigger *)

(** [repeats.includes(x)] where [x] may be [undefined]. *)
Definition includes (repeats : list WeekDay) (x : option WeekDay) : bool :=
  match x with
  | Some d => bool_decide (d ∈ repeats)
  | None => false
  end.

Definition getNextWeekdayOccurrence (day : WeekDay) (time : string)
    (now : Date.t) : result Date.t :=
  match parseTimeString time with
  | Throw e => Throw e
  | Ok hm =>
      let targetDayNumber := WEEKDAY_TO_NUMBER day in
      let currentDayNumber := Date.getDay now in
      let daysUntil := targetDayNumber - currentDayNumber in
      let next daysUntil :=
        Date.setHours (Date.addDays now daysUntil) (hours hm) (minutes hm) in
      if daysUntil =? 0 then
        let alarmTime := Date.setHours now (hours hm) (minutes hm) in
        if now <? alarmTime then Ok alarmTime
        else Ok (next 7)
      else if daysUntil <? 0 then Ok (next (daysUntil + 7))
      else Ok (next daysUntil)
  end.

(** The loop of [getNextAlarmTime] over [repeats]; [nextOccurrence] is the
    earliest occurrence found so far ([None] for [null]). *)
Fixpoint earliestOccurrence (days : list WeekDay) (time : string)
    (now : Date.t) (nextOccurrence : option Date.t) : result (option Date.t) :=
  match days with
  | [] => Ok nextOccurrence
  | day :: rest =>
      match getNextWeekdayOccurrence day time now with
      | Throw e => Throw e
      | Ok occurrence =>
          let keep :=
            match nextOccurrence with
            | None => true
            | Some best => occurrence <? best
            end in
          earliestOccurrence rest time now
            (if keep then Some occurrence else nextOccurrence)
      end
  end.

Definition getNextAlarmTime (alarm : Alarm) (now : Date.t) : result Date.t :=
  match parseTimeString (time alarm) with
  | Throw e => Throw e
  | Ok hm =>
      match repeats alarm with
      | [] =>
          let alarmTime := Date.setHours now (hours hm) (minutes hm) in
          if now <? alarmTime then Ok alarmTime
          else Ok (Date.addDays alarmTime 1)
      | _ :: _ =>
          let currentDayNumber := Date.getDay now in
          let currentDayName := NUMBER_TO_WEEKDAY currentDayNumber in
          let todayAlarmTime := Date.setHours now (hours hm) (minutes hm) in
          if includes (repeats alarm) currentDayName && (now <? todayAlarmTime)
          then Ok todayAlarmTime
          else
            match earliestOccurrence (repeats alarm) (time alarm) now None with
            | Throw e => Throw e
            | Ok (Some nextOccurrence) => Ok nextOccurrence
            | Ok None => Throw "Failed to calculate next alarm time"
            end
      end
  end.

(** ** The world the effectful code runs in *)

(** [NotificationData], the payload of a notification.  [scheduledAt] is a
    string meant for [new Date]: it is kept as the two things the code
    asks of it. *)
Record DateString := {
  ds_empty : bool;              (* the string is '', which is falsy *)
  ds_time : option Date.t;      (* [new Date(s).getTime()], [None] for NaN *)
}.

Record NotificationData := {
  alarmId : string;
  isSnoozed : option bool;
  data_label : option string;
  scheduledAt : option DateString;
}.

(** A pending request held by expo-notifications. *)
Record Registration := {
  reg_identifier : string;
  reg_data : NotificationData;
  reg_sound : string;
  reg_triggerDate : Date.t;
}.

(** What expo-notifications answers to [scheduleNotificationAsync]: the
    identifier of the new request, or a rejection. *)
Inductive ExpoReply :=
| ExpoId (identifier : string)
| ExpoReject.

(** The calls received by expo-notifications, oldest first. *)
Inductive NotifierCall :=
| CallSchedule (forAlarm : string) (triggerDate : Date.t) (reply : ExpoReply)
| CallCancel (identifier : string).

(** A line written with [console.error]: the message and, where the code
    prints one, the alarm id.  [console.log] and [console.warn] are not kept. *)
Record ErrorLine := { line_msg : string; line_alarm : option string }.

Record World := {
  w_now : Date.t;                    (* the clock, [new Date()] / [Date.now()] *)
  w_expo : list ExpoReply;           (* answers to the schedule calls to come *)
  w_random : list string;            (* values of Math.random().toString(36).substr(2, 9) to come *)
  w_calls : list NotifierCall;       (* calls made to expo-notifications *)
  w_scheduled : list Registration;   (* pending requests of expo-notifications *)
  w_storage : option (list Alarm);   (* the AsyncStorage item '@alarms' *)
  w_alarms : list Alarm;             (* React state [alarms] *)
  w_error : option string;           (* React state [error] *)
  w_console : list ErrorLine;        (* console.error output, oldest first *)
}.

Definition set_expo (f : list ExpoReply -> list ExpoReply) (w : World) : World :=
  {| w_now := w_now w; w_expo := f (w_expo w); w_random := w_random w;
     w_calls := w_calls w; w_scheduled := w_scheduled w; w_storage := w_storage w;
     w_alarms := w_alarms w; w_error := w_error w; w_console := w_console w |}.
Definition set_random (f : list string -> list string) (w : World) : World :=
  {| w_now := w_now w; w_expo := w_expo w; w_random := f (w_random w);
     w_calls := w_calls w; w_scheduled := w_scheduled w; w_storage := w_storage w;
     w_alarms := w_alarms w; w_error := w_error w; w_console := w_console w |}.
Definition set_calls (f : list NotifierCall -> list NotifierCall) (w : World) : World :=
  {| w_now := w_now w; w_expo := w_expo w; w_random := w_random w;
     w_calls := f (w_calls w); w_scheduled := w_scheduled w; w_storage := w_storage w;
     w_alarms := w_alarms w; w_error := w_error w; w_console := w_console w |}.
Definition set_scheduled (f : list Registration -> list Registration) (w : World) : World :=
  {| w_now := w_now w; w_expo := w_expo w; w_random := w_random w;
     w_calls := w_calls w; w_scheduled := f (w_scheduled w); w_storage := w_storage w;
     w_alarms := w_alarms w; w_error := w_error w; w_console := w_console w |}.
Definition set_storage (v : option (list Alarm)) (w : World) : World :=
  {| w_now := w_now w; w_expo := w_expo w; w_random := w_random w;
     w_calls := w_calls w; w_scheduled := w_scheduled w; w_storage := v;
     w_alarms := w_alarms w; w_error := w_error w; w_console := w_console w |}.
Definition set_alarms (f : list Alarm -> list Alarm) (w : World) : World :=
  {| w_now := w_now w; w_expo := w_expo w; w_random := w_random w;
     w_calls := w_calls w; w_scheduled := w_scheduled w; w_storage := w_storage w;
     w_alarms := f (w_alarms w); w_error := w_error w; w_console := w_console w |}.
Definition set_error (v : option string) (w : World) : World :=
  {| w_now := w_now w; w_expo := w_expo w; w_random := w_random w;
     w_calls := w_calls w; w_scheduled := w_scheduled w; w_storage := w_storage w;
     w_alarms := w_alarms w; w_error := v; w_console := w_console w |}.
Definition set_console (f : list ErrorLine -> list ErrorLine) (w : World) : World :=
  {| w_now := w_now w; w_expo := w_expo w; w_random := w_random w;
     w_calls := w_calls w; w_scheduled := w_scheduled w; w_storage := w_storage w;
     w_alarms := w_alarms w; w_error := w_error w; w_console := f (w_console w) |}.

(** ** A state-and-exception monad for the asynchronous code

    A computation takes the world and gives a value or a thrown message,
    with the world it leaves behind: what was done before a [throw] stays
    done. *)

Definition M (A : Type) : Type := World -> result A * World.

Definition ret {A} (a : A) : M A := fun w => (Ok a, w).
Definition throw {A} (msg : string) : M A := fun w => (Throw msg, w).
Definition bind {A B} (m : M A) (k : A -> M B) : M B :=
  fun w => match m w with
           | (Ok a, w') => k a w'
           | (Throw e, w') => (Throw e, w')
           end.
(** [try { m } catch (err) { h err }] *)
Definition try_catch {A} (m : M A) (h : string -> M A) : M A :=
  fun w => match m w with
           | (Ok a, w') => (Ok a, w')
           | (Throw e, w') => h e w'
           end.
Definition gets {A} (f : World -> A) : M A := fun w => (Ok (f w), w).
Definition modify (f : World -> World) : M unit := fun w => (Ok tt, f w).
(** A pure computation that may throw, run in the monad. *)
Definition lift {A} (r : result A) : M A := fun w => (r, w).

Notation "'let*' x := m 'in' k" := (bind m (fun x => k))
  (at level 10, x name, m at level 100, k at level 200).
Notation "'exec' m 'in' k" := (bind m (fun _ => k))
  (at level 10, m at level 100, k at level 200).

Definition console_error (msg : string) (about : option string) : M unit :=
  modify (set_console (fun c => (c ++ [{| line_msg := msg; line_alarm := about |}])%list)).

(** The RangeError of [toISOString] on an Invalid Date. *)
Definition invalid_time_value : string := "Invalid time value".

(** [d.toISOString()] evaluated for a log line: nothing is kept of the
    text, but the call throws when [d] is an Invalid Date. *)
Definition toISOString_logged (v : Z) : M unit :=
  if Date.isValid v then ret tt else throw invalid_time_value.

(** JavaScript truthiness of an optional string: [undefined] and the empty
    string are falsy. *)
Definition truthy (s : option string) : bool :=
  match s with
  | Some str => negb (String.eqb str "")
  | None => false
  end.

(** [if (s) { await k(s) }] *)
Definition when_truthy (s : option string) (k : string -> M unit) : M unit :=
  match s with
  | Some str => if truthy s then k str else ret tt
  | None => ret tt
  end.

(** ** utils/timeCalculations.ts: the functions that catch and log *)

Definition isAlarmDueToday (time : string) : M bool :=
  try_catch
    (let* hm := lift (parseTimeString time) in
     let* now := gets w_now in
     let alarmTime := Date.setHours now (hours hm) (minutes hm) in
     ret (now <? alarmTime))
    (fun _ =>
       exec console_error "[timeCalculations] Error checking if alarm is due today:" None in
       ret false).

Definition formatAlarmTime (time : string) (use24Hour : bool) : M string :=
  try_catch
    (let* hm := lift (parseTimeString time) in
     if use24Hour then ret (formatHM (hours hm) (minutes hm))
     else ret (format12Hour (hours hm) (minutes hm)))
    (fun _ =>
       exec console_error "[timeCalculations] Error formatting time:" None in
       ret time).

Definition getAlarmDescription (alarm : Alarm) : M string :=
  try_catch
    (let* clock := gets w_now in
     let* nextTime := lift (getNextAlarmTime alarm clock) in
     let* now := gets w_now in
     let tomorrow := Date.addDays now 1 in
     let isToday := Date.sameDay nextTime now in
     let isTomorrow := Date.sameDay nextTime tomorrow in
     let* timeStr := formatAlarmTime (time alarm) false in
     if isToday then ret ("Today at " +:+ timeStr)
     else if isTomorrow then ret ("Tomorrow at " +:+ timeStr)
     else
       let dayName := NUMBER_TO_WEEKDAY (Date.getDay nextTime) in
       ret (weekdayText dayName +:+ " at " +:+ timeStr))
    (fun _ =>
       exec console_error "[timeCalculations] Error getting alarm description:" None in
       formatAlarmTime (time alarm) false).

Record TimeRemaining := { tr_hours : Z; tr_minutes : Z; tr_total : Z }.

(** [nextTime.getTime() - now.getTime()] is the difference of the
    readings in the zone of constant offset of the worlds;
    [Zoned.getTimeRemaining] is the function for any zone. *)
Definition getTimeRemaining (alarm : Alarm) : M TimeRemaining :=
  try_catch
    (let* clock := gets w_now in
     let* nextTime := lift (getNextAlarmTime alarm clock) in
     let* now := gets w_now in
     let diffMs := nextTime - now in
     if diffMs <=? 0 then ret {| tr_hours := 0; tr_minutes := 0; tr_total := 0 |}
     else
       let totalMinutes := diffMs / (1000 * 60) in
       let hours := totalMinutes / 60 in
       let minutes := Z.rem totalMinutes 60 in
       ret {| tr_hours := hours; tr_minutes := minutes; tr_total := totalMinutes |})
    (fun _ =>
       exec console_error "[timeCalculations] Error calculating time remaining:" None in
       ret {| tr_hours := 0; tr_minutes := 0; tr_total := 0 |}).

Definition getCurrentTimeString : M string :=
  let* now := gets w_now in ret (formatDateToTime now).

(** ** utils/timeCalculations.ts in a zone with daylight saving

    A JavaScript [Date] holds a time value, milliseconds of UTC; its
    calendar fields are those of [LocalTime(t) = t + LocalTZA(t, true)],
    and a method that sets fields computes on that local time value and
    converts the result back with
    [UTC(t_local) = t_local - LocalTZA(t_local, false)].  The functions
    above are these in a zone of offset zero, where a time value is its own
    local reading; here are the ones that set or compare dates, for any
    zone, on time values.  The clock of the world is read as a time
    value. *)

Module Zoned.

(** A time zone, by the two offsets (in ms) ECMAScript asks of it. *)
Record Zone := {
  (** [LocalTZA(t, true)]: the offset in force at the time value [t]. *)
  offsetAt : Z -> Z;
  (** [LocalTZA(t_local, false)]: the offset with which the local time
      value [t_local] is read; for a local time that a transition skips or
      repeats, the offset before the transition. *)
  offsetOf : Z -> Z;
}.

Definition LocalTime (tz : Zone) (t : Z) : Date.t := t + offsetAt tz t.
Definition UTC (tz : Zone) (tlocal : Date.t) : Z := tlocal - offsetOf tz tlocal.

(** [d.setHours(h, m, 0, 0)], [d.setDate(d.getDate() + k)] and
    [d.getDay()] of a date with time value [d]. *)
Definition setHours (tz : Zone) (d h m : Z) : Z :=
  UTC tz (Date.setHours (LocalTime tz d) h m).
Definition addDays (tz : Zone) (d k : Z) : Z :=
  UTC tz (Date.addDays (LocalTime tz d) k).
Definition getDay (tz : Zone) (d : Z) : Z := Date.getDay (LocalTime tz d).

Definition getNextWeekdayOccurrence (tz : Zone) (day : WeekDay) (time : string)
    (now : Z) : result Z :=
  match parseTimeString time with
  | Throw e => Throw e
  | Ok hm =>
      let targetDayNumber := WEEKDAY_TO_NUMBER day in
      let currentDayNumber := getDay tz now in
      let daysUntil := targetDayNumber - currentDayNumber in
      let next daysUntil :=
        setHours tz (addDays tz now daysUntil) (hours hm) (minutes hm) in
      if daysUntil =? 0 then
        let alarmTime := setHours tz now (hours hm) (minutes hm) in
        if now <? alarmTime then Ok alarmTime
        else Ok (next 7)
      else if daysUntil <? 0 then Ok (next (daysUntil + 7))
      else Ok (next daysUntil)
  end.

Fixpoint earliestOccurrence (tz : Zone) (days : list WeekDay) (time : string)
    (now : Z) (nextOccurrence : option Z) : result (option Z) :=
  match days with
  | [] => Ok nextOccurrence
  | day :: rest =>
      match getNextWeekdayOccurrence tz day time now with
      | Throw e => Throw e
      | Ok occurrence =>
          let keep :=
            match nextOccurrence with
            | None => true
            | Some best => occurrence <? best
            end in
          earliestOccurrence tz rest time now
            (if keep then Some occurrence else nextOccurrence)
      end
  end.

Definition getNextAlarmTime (tz : Zone) (alarm : Alarm) (now : Z) : result Z :=
  match parseTimeString (time alarm) with
  | Throw e => Throw e
  | Ok hm =>
      match repeats alarm with
      | [] =>
          let alarmTime := setHours tz now (hours hm) (minutes hm) in
          if now <? alarmTime then Ok alarmTime
          else Ok (addDays tz alarmTime 1)
      | _ :: _ =>
          let currentDayNumber := getDay tz now in
          let currentDayName := NUMBER_TO_WEEKDAY currentDayNumber in
          let todayAlarmTime := setHours tz now (hours hm) (minutes hm) in
          if includes (repeats alarm) currentDayName && (now <? todayAlarmTime)
          then Ok todayAlarmTime
          else
            match earliestOccurrence tz (repeats alarm) (time alarm) now None with
            | Throw e => Throw e
            | Ok (Some nextOccurrence) => Ok nextOccurrence
            | Ok None => Throw "Failed to calculate next alarm time"
            end
      end
  end.

(** [nextTime.getTime() - now.getTime()] is the time elapsed, whatever the
    zone. *)
Definition getTimeRemaining (tz : Zone) (alarm : Alarm) : M TimeRemaining :=
  try_catch
    (let* clock := gets w_now in
     let* nextTime := lift (getNextAlarmTime tz alarm clock) in
     let* now := gets w_now in
     let diffMs := nextTime - now in
     if diffMs <=? 0 then ret {| tr_hours := 0; tr_minutes := 0; tr_total := 0 |}
     else
       let totalMinutes := diffMs / (1000 * 60) in
       let hours := totalMinutes / 60 in
       let minutes := Z.rem totalMinutes 60 in
       ret {| tr_hours := hours; tr_minutes := minutes; tr_total := totalMinutes |})
    (fun _ =>
       exec console_error "[timeCalculations] Error calculating time remaining:" None in
       ret {| tr_hours := 0; tr_minutes := 0; tr_total := 0 |}).

(** A zone of constant offset. *)
Definition fixed (offset : Z) : Zone :=
  {| offsetAt := fun _ => offset; offsetOf := fun _ => offset |}.

(** New York in the autumn of 2025: daylight time, UTC-4, until
    2025-11-02 at 02:00 local (06:00 UTC), standard time, UTC-5, from
    then on.  The local hour from 01:00 to 02:00 of that day comes twice
    and is read as daylight time. *)
Definition newYork2025 : Zone :=
  {| offsetAt := fun t =>
       if t <? Date.make 2025 11 2 6 0 then -4 * Date.msPerHour
       else -5 * Date.msPerHour;
     offsetOf := fun tlocal =>
       if tlocal <? Date.make 2025 11 2 2 0 then -4 * Date.msPerHour
       else -5 * Date.msPerHour |}.

End Zoned.

(** ** expo-notifications, as the services use it

    [scheduleNotificationAsync] takes the next answer of the environment:
    an identifier, under which the request is then pending, or a rejection
    (also when no answer is left).  [cancelScheduledNotificationAsync]
    drops the requests with the given identifier and succeeds whether or
    not there was one. *)

Module Expo.

Definition scheduleNotificationAsync (data : NotificationData)
    (sound : string) (triggerDate : Date.t) : M string :=
  fun w =>
    let reply := match w_expo w with r :: _ => r | [] => ExpoReject end in
    let w1 := set_expo (drop 1) w in
    let w2 := set_calls
      (fun c => (c ++ [CallSchedule (alarmId data) triggerDate reply])%list) w1 in
    match reply with
    | ExpoId identifier =>
        let reg := {| reg_identifier := identifier; reg_data := data;
                      reg_sound := sound; reg_triggerDate := triggerDate |} in
        (Ok identifier, set_scheduled (fun l => (l ++ [reg])%list) w2)
    | ExpoReject => (Throw "expo-notifications rejected the request", w2)
    end.

Definition cancelScheduledNotificationAsync (identifier : string) : M unit :=
  exec modify (set_calls (fun c => (c ++ [CallCancel identifier])%list)) in
  modify (set_scheduled
    (filter (fun r => reg_identifier r ≠ identifier))).

End Expo.

(** ** services/NotificationService.ts *)

Module NotificationService.

(** The trigger of a delivered notification: only a date trigger has the
    key 'date'. *)
Inductive Trigger :=
| DateTrigger (date : Date.t)
| OtherTrigger.

Record Notification := {
  n_identifier : string;
  n_data : option NotificationData;   (* content.data *)
  n_trigger : option Trigger;         (* request.trigger *)
}.

Record NotificationBehavior := {
  shouldShowAlert : bool;
  shouldPlaySound : bool;
  shouldSetBadge : bool;
  shouldShowBanner : bool;
  shouldShowList : bool;
}.

Definition TOLERANCE_SECONDS : Q := 30.

(** [new Date(d).toISOString()] of a valid date. *)
Definition toISOString (d : Date.t) : DateString :=
  {| ds_empty := false; ds_time := Some d |}.

(** [a || b] on optional strings. *)
Definition or_else (a b : option DateString) : option DateString :=
  match a with
  | Some s => if ds_empty s then b else a
  | None => b
  end.

(** The decision of the handler installed by [initialize].  When the
    string is not empty the handler builds [timingInfo] before it compares,
    and [scheduledTime.toISOString()] there throws a RangeError on an
    Invalid Date; the handler has no [try]. *)
Definition shouldShow (notification : Notification) (now : Date.t)
    : result bool :=
  let dataScheduledAt := n_data notification ≫= scheduledAt in
  let scheduledIso :=
    or_else dataScheduledAt
      (match n_trigger notification with
       | Some (DateTrigger date) => Some (toISOString date)
       | _ => None
       end) in
  match scheduledIso with
  | Some iso =>
      if ds_empty iso then Ok true
      else match ds_time iso with
           | Some scheduledTime =>
               let timeDiffMs := scheduledTime - now in
               let timeDiffSeconds := (inject_Z timeDiffMs / 1000)%Q in
               if negb (Qle_bool timeDiffSeconds TOLERANCE_SECONDS) then Ok false
               else Ok true
           | None => Throw invalid_time_value
           end
  | None => Ok true
  end.

Definition handleNotification (notification : Notification)
    : M NotificationBehavior :=
  let* now := gets w_now in
  let* show := lift (shouldShow notification now) in
  ret {| shouldShowAlert := show; shouldPlaySound := show;
         shouldSetBadge := show; shouldShowBanner := show;
         shouldShowList := show |}.

(** The request keeps the data, the sound and the trigger date.  The
    title and body texts, which [formatAlarmTime] and [getAlarmDescription]
    build without ever throwing, and the constant fields are left out. *)
Definition scheduleNotification (data : NotificationData) (sound : string)
    (triggerDate : Date.t) : M string :=
  try_catch
    (let sound' :=
       if String.eqb sound "default" || String.eqb sound "" then "default"
       else sound in
     Expo.scheduleNotificationAsync data sound' triggerDate)
    (fun _ =>
       exec console_error "[NotificationService] Failed to schedule notification:" None in
       throw "Failed to schedule notification").

Definition cancelNotification (identifier : string) : M unit :=
  try_catch
    (Expo.cancelScheduledNotificationAsync identifier)
    (fun _ =>
       exec console_error "[NotificationService] Failed to cancel notification:" None in
       throw "Failed to cancel notification").

End NotificationService.

(** ** services/SchedulerService.ts *)

Module SchedulerService.

Definition calculateNextTrigger (alarm : Alarm) : M Date.t :=
  try_catch
    (let* now := gets w_now in lift (getNextAlarmTime alarm now))
    (fun _ =>
       exec console_error "[SchedulerService] Failed to calculate next trigger:" None in
       throw "Failed to calculate next alarm trigger time").

Definition scheduleAlarm (alarm : Alarm) : M string :=
  try_catch
    (let* nextTriggerTime := calculateNextTrigger alarm in
     let notificationData :=
       {| alarmId := id alarm; isSnoozed := Some false;
          data_label := Some (label alarm); scheduledAt := None |} in
     NotificationService.scheduleNotification
       notificationData (soundUri alarm) nextTriggerTime)
    (fun _ =>
       exec console_error "[SchedulerService] Failed to schedule alarm:" None in
       throw "Failed to schedule alarm").

Definition cancelAlarm (notificationId : string) : M unit :=
  try_catch
    (if String.eqb notificationId "" then ret tt
     else NotificationService.cancelNotification notificationId)
    (fun _ =>
       exec console_error "[SchedulerService] Failed to cancel alarm:" None in
       throw "Failed to cancel alarm").

Definition rescheduleAlarm (alarm : Alarm) : M string :=
  try_catch
    (exec when_truthy (notificationId alarm) cancelAlarm in
     scheduleAlarm alarm)
    (fun _ =>
       exec console_error "[SchedulerService] Failed to reschedule alarm:" None in
       throw "Failed to reschedule alarm").

Definition scheduleSnooze (originalAlarm : Alarm)
    (snoozeDurationMinutes : Z) : M string :=
  try_catch
    (let* now := gets w_now in
     let snoozeTime := now + snoozeDurationMinutes * 60 * 1000 in
     exec toISOString_logged snoozeTime in
     let notificationData :=
       {| alarmId := id originalAlarm; isSnoozed := Some true;
          data_label := Some (label originalAlarm); scheduledAt := None |} in
     NotificationService.scheduleNotification
       notificationData (soundUri originalAlarm) snoozeTime)
    (fun _ =>
       exec console_error "[SchedulerService] Failed to schedule snooze:" None in
       throw "Failed to schedule snooze").

Definition rescheduleRepeatingAlarm (alarm : Alarm) : M (option string) :=
  try_catch
    (if (length (repeats alarm) =? 0)%nat then ret None
     else if negb (isEnabled alarm) then ret None
     else let* notificationId := scheduleAlarm alarm in
          ret (Some notificationId))
    (fun _ =>
       exec console_error "[SchedulerService] Failed to reschedule repeating alarm:" None in
       throw "Failed to reschedule repeating alarm").



Definition validateAlarm (alarm : Alarm) : M bool :=
  try_catch
    (if negb (isEnabled alarm) then ret false
     else if String.eqb (time alarm) "" || String.eqb (Js.trim (time alarm)) ""
     then ret false
     else
       exec calculateNextTrigger alarm in
       ret true)
    (fun _ =>
       exec console_error "[SchedulerService] Alarm validation failed:" None in
       ret false).

End SchedulerService.

(** ** services/StorageService.ts

    The item '@alarms' holds the JSON text of the list; the model keeps the
    list.  AsyncStorage itself is taken to answer every call. *)

Module StorageService.

Definition saveAlarms (alarms : list Alarm) : M unit :=
  modify (set_storage (Some alarms)).

Definition getAlarms : M (list Alarm) :=
  let* json := gets w_storage in
  match json with
  | None => ret []
  | Some alarms => ret alarms
  end.

(** [alarms.findIndex(a => a.id === wanted)], [None] for -1. *)
Fixpoint findIndex (wanted : string) (alarms : list Alarm) : option nat :=
  match alarms with
  | [] => None
  | a :: rest =>
      if String.eqb (id a) wanted then Some 0%nat
      else S <$> findIndex wanted rest
  end.

Definition touch (a : Alarm) (now : Date.t) : Alarm :=
  {| id := id a; label := label a; description := description a;
     time := time a; repeats := repeats a; isEnabled := isEnabled a;
     soundUri := soundUri a; snoozeEnabled := snoozeEnabled a;
     snoozeDuration := snoozeDuration a; notificationId := notificationId a;
     createdAt := createdAt a; updatedAt := now |}.

(** The record is stored with [updatedAt] taken from a reading of the
    clock of the Store's own, [new Date()], made after the one by which
    [AlarmContext.updateAlarm] stamped the record it keeps in the state.
    The clock of a world stands still during an operation, so here the two
    readings coincide, whereas on a device the Store's stamp is the later
    one: what is proved about state and Store together leaves the
    [updatedAt] stamps out of the comparison. *)
Definition updateAlarm (updatedAlarm : Alarm) : M unit :=
  try_catch
    (let* alarms := getAlarms in
     match findIndex (id updatedAlarm) alarms with
     | None => throw "Alarm not found"
     | Some index =>
         let* now := gets w_now in
         saveAlarms (<[index := touch updatedAlarm now]> alarms)
     end)
    (fun _ =>
       exec console_error "[StorageService] Failed to update alarm:" None in
       throw "Failed to update alarm in storage").

Definition addAlarm (alarm : Alarm) : M unit :=
  try_catch
    (let* alarms := getAlarms in
     saveAlarms (alarms ++ [alarm])%list)
    (fun _ =>
       exec console_error "[StorageService] Failed to add alarm:" None in
       throw "Failed to add alarm to storage").

(** [alarms.find(a => a.id === wanted)] *)
Fixpoint findById (wanted : string) (alarms : list Alarm) : option Alarm :=
  match alarms with
  | [] => None
  | a :: rest => if String.eqb (id a) wanted then Some a else findById wanted rest
  end.

(** The result is the alarm or [null]. *)
Definition getAlarmById (wanted : string) : M (option Alarm) :=
  try_catch
    (let* alarms := getAlarms in
     ret (findById wanted alarms))
    (fun _ =>
       exec console_error "[StorageService] Failed to get alarm by ID:" None in
       throw "Failed to retrieve alarm from storage").

Definition deleteAlarm (wanted : string) : M unit :=
  try_catch
    (let* alarms := getAlarms in
     let filteredAlarms := filter (fun a => id a ≠ wanted) alarms in
     if (length filteredAlarms =? length alarms)%nat then ret tt
     else saveAlarms filteredAlarms)
    (fun _ =>
       exec console_error "[StorageService] Failed to delete alarm:" None in
       throw "Failed to delete alarm from storage").

(** [AsyncStorage.removeItem]: the item is absent afterwards. *)
Definition clearAllAlarms : M unit :=
  try_catch
    (modify (set_storage None))
    (fun _ =>
       exec console_error "[StorageService] Failed to clear alarms:" None in
       throw "Failed to clear alarms from storage").

End StorageService.

(** ** context/AlarmContext.tsx *)

(** [Partial<Alarm>] as the callers build it: a key is absent ([None]) or
    carries a value; the two optional fields of [Alarm] may be present with
    the value [undefined].  The keys [id], [createdAt] and [updatedAt] are
    overwritten by [updateAlarm] whatever they carry and are left out. *)
Record AlarmUpdates := {
  u_label : option string;
  u_description : option (option string);
  u_time : option string;
  u_repeats : option (list WeekDay);
  u_isEnabled : option bool;
  u_soundUri : option string;
  u_snoozeEnabled : option bool;
  u_snoozeDuration : option Z;
  u_notificationId : option (option string);
}.

Definition with_notificationId (a : Alarm) (nid : option string) : Alarm :=
  {| id := id a; label := label a; description := description a;
     time := time a; repeats := repeats a; isEnabled := isEnabled a;
     soundUri := soundUri a; snoozeEnabled := snoozeEnabled a;
     snoozeDuration := snoozeDuration a; notificationId := nid;
     createdAt := createdAt a; updatedAt := updatedAt a |}.

Module AlarmContext.

(** [alarms.find(a => a.id === wanted)] *)
Fixpoint find (wanted : string) (alarms : list Alarm) : option Alarm :=
  match alarms with
  | [] => None
  | a :: rest => if String.eqb (id a) wanted then Some a else find wanted rest
  end.

Definition getAlarmById (wanted : string) : M (option Alarm) :=
  let* alarms := gets w_alarms in ret (find wanted alarms).

(** The next value of [Math.random().toString(36).substr(2, 9)]. *)
Definition nextRandom : M string :=
  fun w => (Ok (default "" (head (w_random w))), set_random (drop 1) w).

Definition addAlarm (alarmInput : AlarmInput) : M unit :=
  try_catch
    (exec modify (set_error None) in
     let* now := gets w_now in
     let* rnd := nextRandom in
     let newAlarm :=
       {| id := "alarm-" +:+ pretty now +:+ "-" +:+ rnd;
          label := in_label alarmInput;
          description := in_description alarmInput;
          time := in_time alarmInput;
          repeats := in_repeats alarmInput;
          isEnabled := in_isEnabled alarmInput;
          soundUri := in_soundUri alarmInput;
          snoozeEnabled := in_snoozeEnabled alarmInput;
          snoozeDuration := in_snoozeDuration alarmInput;
          notificationId := None;
          createdAt := now;
          updatedAt := now |} in
     let* newAlarm :=
       if isEnabled newAlarm then
         try_catch
           (let* notificationId := SchedulerService.scheduleAlarm newAlarm in
            ret (with_notificationId newAlarm (Some notificationId)))
           (fun _ =>
              exec console_error "[AlarmContext] Failed to schedule alarm:" None in
              throw "Failed to schedule alarm notification")
       else ret newAlarm in
     exec StorageService.addAlarm newAlarm in
     modify (set_alarms (fun prev => (prev ++ [newAlarm])%list)))
    (fun err =>
       exec console_error "[AlarmContext] Failed to add alarm" None in
       exec modify (set_error (Some "Failed to add alarm")) in
       throw err).

(** [{ ...existingAlarm, ...updates, id, createdAt, updatedAt }] *)
Definition merge (existingAlarm : Alarm) (updates : AlarmUpdates)
    (now : Date.t) : Alarm :=
  {| id := id existingAlarm;
     label := default (label existingAlarm) (u_label updates);
     description := default (description existingAlarm) (u_description updates);
     time := default (time existingAlarm) (u_time updates);
     repeats := default (repeats existingAlarm) (u_repeats updates);
     isEnabled := default (isEnabled existingAlarm) (u_isEnabled updates);
     soundUri := default (soundUri existingAlarm) (u_soundUri updates);
     snoozeEnabled := default (snoozeEnabled existingAlarm) (u_snoozeEnabled updates);
     snoozeDuration := default (snoozeDuration existingAlarm) (u_snoozeDuration updates);
     notificationId := default (notificationId existingAlarm) (u_notificationId updates);
     createdAt := createdAt existingAlarm;
     updatedAt := now |}.

Definition needsReschedule (updates : AlarmUpdates) : bool :=
  bool_decide (u_time updates ≠ None)
  || bool_decide (u_repeats updates ≠ None)
  || bool_decide (u_isEnabled updates ≠ None)
  || bool_decide (u_soundUri updates ≠ None).


(** The callback of the latest render, the one a caller gets once React
    has rendered again after the last change of the list: the list it
    captured is the state. *)
Definition updateAlarm (wanted : string) (updates : AlarmUpdates) : M unit :=
  try_catch
    (exec modify (set_error None) in
     let* alarms := gets w_alarms in
     match find wanted alarms with
     | None => throw "Alarm not found"
     | Some existingAlarm =>
         let* now := gets w_now in
         let updatedAlarm := merge existingAlarm updates now in
         let* updatedAlarm :=
           if needsReschedule updates then
             exec when_truthy (notificationId existingAlarm)
                    SchedulerService.cancelAlarm in
             if isEnabled updatedAlarm then
               let* notificationId := SchedulerService.scheduleAlarm updatedAlarm in
               ret (with_notificationId updatedAlarm (Some notificationId))
             else ret (with_notificationId updatedAlarm None)
           else ret updatedAlarm in
         exec StorageService.updateAlarm updatedAlarm in
         modify (set_alarms
           (map (fun a => if String.eqb (id a) wanted then updatedAlarm else a)))
     end)
    (fun err =>
       exec console_error "[AlarmContext] Failed to update alarm" None in
       exec modify (set_error (Some "Failed to update alarm")) in
       throw err).

Definition toggleAlarm (wanted : string) : M unit :=
  try_catch
    (exec modify (set_error None) in
     let* alarms := gets w_alarms in
     match find wanted alarms with
     | None => throw "Alarm not found"
     | Some alarm =>
         let newEnabledState := negb (isEnabled alarm) in
         updateAlarm wanted
           {| u_label := None; u_description := None; u_time := None;
              u_repeats := None; u_isEnabled := Some newEnabledState;
              u_soundUri := None; u_snoozeEnabled := None;
              u_snoozeDuration := None; u_notificationId := None |}
     end)
    (fun err =>
       exec console_error "[AlarmContext] Failed to toggle alarm" None in
       exec modify (set_error (Some "Failed to toggle alarm")) in
       throw err).

Definition deleteAlarm (wanted : string) : M unit :=
  try_catch
    (exec modify (set_error None) in
     let* alarms := gets w_alarms in
     match find wanted alarms with
     | None => throw "Alarm not found"
     | Some alarm =>
         exec when_truthy (notificationId alarm) SchedulerService.cancelAlarm in
         exec StorageService.deleteAlarm wanted in
         modify (set_alarms (filter (fun a => id a ≠ wanted)))
     end)
    (fun err =>
       exec console_error "[AlarmContext] Failed to delete alarm" None in
       exec modify (set_error (Some "Failed to delete alarm")) in
       throw err).

End AlarmContext.

(** ** hooks/useAlarmScheduler.ts: the wrappers used by App.tsx *)

Module useAlarmScheduler.

Definition cancelSchedule (notificationId : string) : M unit :=
  try_catch (SchedulerService.cancelAlarm notificationId)
    (fun error =>
       exec console_error "[useAlarmScheduler] Failed to cancel schedule:" None in
       throw error).

Definition scheduleSnooze (alarm : Alarm) (durationMinutes : Z) : M string :=
  try_catch (SchedulerService.scheduleSnooze alarm durationMinutes)
    (fun error =>
       exec console_error "[useAlarmScheduler] Failed to schedule snooze:" None in
       throw error).

Definition rescheduleRepeatingAlarm (alarm : Alarm) : M (option string) :=
  try_catch (SchedulerService.rescheduleRepeatingAlarm alarm)
    (fun error =>
       exec console_error "[useAlarmScheduler] Failed to reschedule repeating alarm:" None in
       throw error).

End useAlarmScheduler.

(** ** App.tsx: the handlers given to [useNotificationListener] *)

Module App.

Definition onSnooze (alarmId : string) : M unit :=
  try_catch
    (let* found := AlarmContext.getAlarmById alarmId in
     match found with
     | None => console_error "[App] Alarm not found for snooze:" (Some alarmId)
     | Some alarm =>
         if negb (snoozeEnabled alarm) then ret tt
         else
           exec when_truthy (notificationId alarm)
                  useAlarmScheduler.cancelSchedule in
           let* notificationId :=
             useAlarmScheduler.scheduleSnooze alarm (snoozeDuration alarm) in
           AlarmContext.updateAlarm alarmId
             {| u_label := None; u_description := None; u_time := None;
                u_repeats := None; u_isEnabled := None; u_soundUri := None;
                u_snoozeEnabled := None; u_snoozeDuration := None;
                u_notificationId := Some (Some notificationId) |}
     end)
    (fun _ => console_error "[App] Error handling snooze:" None).

Definition onDismiss (alarmId : string) : M unit :=
  try_catch
    (let* found := AlarmContext.getAlarmById alarmId in
     match found with
     | None => console_error "[App] Alarm not found for dismiss:" (Some alarmId)
     | Some alarm =>
         exec when_truthy (notificationId alarm)
                useAlarmScheduler.cancelSchedule in
         if (0 <? length (repeats alarm))%nat then
           let* notificationId := useAlarmScheduler.rescheduleRepeatingAlarm alarm in
           if truthy notificationId then
             AlarmContext.updateAlarm alarmId
               {| u_label := None; u_description := None; u_time := None;
                  u_repeats := None; u_isEnabled := None; u_soundUri := None;
                  u_snoozeEnabled := None; u_snoozeDuration := None;
                  u_notificationId := Some notificationId |}
           else ret tt
         else
           AlarmContext.updateAlarm alarmId
             {| u_label := None; u_description := None; u_time := None;
                u_repeats := None; u_isEnabled := Some false; u_soundUri := None;
                u_snoozeEnabled := None; u_snoozeDuration := None;
                u_notificationId := Some None |}
     end)
    (fun _ => console_error "[App] Error handling dismiss:" None).

End App.

(** ** components/WeekDayPicker.tsx: what the buttons hand to [onDaysChange] *)

Module WeekDayPicker.

Definition toggleDay (selectedDays : list WeekDay) (day : WeekDay) : list WeekDay :=
  if bool_decide (day ∈ selectedDays)
  then filter (fun d => d ≠ day) selectedDays
  else (selectedDays ++ [day])%list.

Definition selectAllDays : list WeekDay := WEEK_DAYS.
Definition selectWeekdays : list WeekDay := [Mon; Tue; Wed; Thu; Fri].
Definition selectWeekends : list WeekDay := [Sat; Sun].
Definition clearSelection : list WeekDay := [].

End WeekDayPicker.

(** * Vocabulary of the properties *)

(** The number read from the [i]-th piece of a colon-split string; [None]
    is NaN. *)
Definition component_number (time : string) (i : nat) : option Z :=
  Js.parseInt10_opt (Js.split_colon time !! i).

(** NaN, or a number outside [lo..hi]. *)
Definition nan_or_outside (lo hi : Z) (x : option Z) : Prop :=
  match x with
  | None => True
  | Some v => v < lo ∨ hi < v
  end.

(** Following the spec's words, the form HH:mm: exactly two decimal
    digits, a colon, two decimal digits. *)
Definition isHHmmShape (s : string) : bool :=
  match s with
  | String h1 (String h2 (String c (String m1 (String m2 EmptyString)))) =>
      bool_decide (is_Some (Js.digit_value h1))
      && bool_decide (is_Some (Js.digit_value h2))
      && Ascii.eqb c ":"
      && bool_decide (is_Some (Js.digit_value m1))
      && bool_decide (is_Some (Js.digit_value m2))
  | _ => false
  end.

(** The time of day of a parsed time string, in milliseconds. *)
Definition timeOfDayMs (hm : HM) : Z :=
  hours hm * Date.msPerHour + minutes hm * Date.msPerMinute.

(** The range of hours and minutes that [parseTimeString] lets through. *)
Definition valid_hm (hm : HM) : Prop :=
  0 <= hours hm <= 23 ∧ 0 <= minutes hm <= 59.


(** An alarm with the given time and repeat days, for the examples. *)
Definition exampleAlarm (tm : string) (days : list WeekDay) : Alarm :=
  {| id := "alarm-1"; label := "Wake up"; description := None; time := tm;
     repeats := days; isEnabled := true; soundUri := "chimes";
     snoozeEnabled := true; snoozeDuration := 10; notificationId := None;
     createdAt := 0; updatedAt := 0 |}.

(** [content.data?.scheduledAt] when it is a string. *)
Definition n_data_scheduledAt (n : NotificationService.Notification)
    : option DateString :=
  NotificationService.n_data n ≫= scheduledAt.

(** The expected trigger instant carried by a delivered notification: the
    non-empty [scheduledAt] string of its data when there is one, and the
    date of its trigger otherwise. *)
Definition carries_expected (n : NotificationService.Notification)
    (expected : Date.t) : Prop :=
  (∃ s, n_data_scheduledAt n = Some s ∧ ds_empty s = false
        ∧ ds_time s = Some expected)
  ∨ ((n_data_scheduledAt n = None
      ∨ ∃ s, n_data_scheduledAt n = Some s ∧ ds_empty s = true)
     ∧ NotificationService.n_trigger n
       = Some (NotificationService.DateTrigger expected)).

(** The behaviour that shows nothing. *)
Definition showNothing : NotificationService.NotificationBehavior :=
  {| NotificationService.shouldShowAlert := false;
     NotificationService.shouldPlaySound := false;
     NotificationService.shouldSetBadge := false;
     NotificationService.shouldShowBanner := false;
     NotificationService.shouldShowList := false |}.

(** The answer expo-notifications gives to the next schedule call. *)
Definition expo_reply (w : World) : ExpoReply :=
  match w_expo w with r :: _ => r | [] => ExpoReject end.

Ltac unfold_monad :=
  unfold try_catch, bind, ret, throw, gets, modify, lift, console_error,
    when_truthy in *.

Ltac unfold_services :=
  unfold AlarmContext.addAlarm, AlarmContext.updateAlarm, AlarmContext.toggleAlarm,
    AlarmContext.getAlarmById, AlarmContext.nextRandom,
    StorageService.addAlarm, StorageService.updateAlarm,
    StorageService.getAlarms, StorageService.saveAlarms,
    SchedulerService.scheduleAlarm, SchedulerService.calculateNextTrigger,
    SchedulerService.cancelAlarm, SchedulerService.scheduleSnooze,
    SchedulerService.rescheduleRepeatingAlarm, SchedulerService.rescheduleAlarm,
    NotificationService.scheduleNotification,
    NotificationService.cancelNotification,
    Expo.scheduleNotificationAsync, Expo.cancelScheduledNotificationAsync in *.

(** The cancel call that a truthy identifier gives rise to. *)
Definition cancel_calls (nid : option string) : list NotifierCall :=
  match nid with
  | Some s => if truthy nid then [CallCancel s] else []
  | None => []
  end.

(** The pending requests once a truthy identifier has been cancelled. *)
Definition after_cancel (nid : option string) (regs : list Registration)
    : list Registration :=
  match nid with
  | Some s => if truthy nid then filter (fun r => reg_identifier r ≠ s) regs else regs
  | None => regs
  end.

(** The request that [scheduleAlarm] registers for an alarm. *)
Definition alarm_registration (alarm : Alarm) (identifier : string)
    (triggerDate : Date.t) : Registration :=
  {| reg_identifier := identifier;
     reg_data := {| alarmId := id alarm; isSnoozed := Some false;
                    data_label := Some (label alarm); scheduledAt := None |};
     reg_sound := if String.eqb (soundUri alarm) "default"
                     || String.eqb (soundUri alarm) ""
                  then "default" else soundUri alarm;
     reg_triggerDate := triggerDate |}.

(** [prev.map(a => a.id === wanted ? updated : a)] *)
Definition replace_alarm (wanted : string) (updated : Alarm)
    (alarms : list Alarm) : list Alarm :=
  map (fun a => if String.eqb (id a) wanted then updated else a) alarms.

(** The world after a cancel of a truthy identifier; nothing happens for a
    falsy one. *)
Definition cancel_world (nid : option string) (w : World) : World :=
  match nid with
  | Some s =>
      if truthy nid then
        set_scheduled (filter (fun r => reg_identifier r ≠ s))
          (set_calls (fun c => (c ++ [CallCancel s])%list) w)
      else w
  | None => w
  end.

(** The world after expo-notifications has received a schedule call. *)
Definition call_world (forAlarm : string) (triggerDate : Date.t) (w : World)
    : World :=
  set_calls
    (fun c => (c ++ [CallSchedule forAlarm triggerDate (expo_reply w)])%list)
    (set_expo (drop 1) w).

(** The world with one more pending request. *)
Definition register_world (reg : Registration) (w : World) : World :=
  set_scheduled (fun l => (l ++ [reg])%list) w.

(** The world with one more line on the error console. *)
Definition log_world (msg : string) (about : option string) (w : World) : World :=
  set_console (fun c => (c ++ [{| line_msg := msg; line_alarm := about |}])%list) w.

(** The request that [scheduleSnooze] registers for an alarm. *)
Definition snooze_registration (alarm : Alarm) (identifier : string)
    (triggerDate : Date.t) : Registration :=
  {| reg_identifier := identifier;
     reg_data := {| alarmId := id alarm; isSnoozed := Some true;
                    data_label := Some (label alarm); scheduledAt := None |};
     reg_sound := if String.eqb (soundUri alarm) "default"
                     || String.eqb (soundUri alarm) ""
                  then "default" else soundUri alarm;
     reg_triggerDate := triggerDate |}.

(** The list kept in storage, empty when the item is absent. *)
Definition stored_alarms (w : World) : list Alarm := default [] (w_storage w).

(** What the notifier part of [updateAlarm] makes of the merged alarm and
    of the world, when it completes: [updated] is the alarm that is then
    saved and [w1] the world before it is saved. *)
Definition reschedule_outcome (existing merged : Alarm)
    (needsReschedule : bool) (w0 : World) (updated : Alarm) (w1 : World) : Prop :=
  if needsReschedule then
    let wc := cancel_world (notificationId existing) w0 in
    if isEnabled merged then
      ∃ t identifier,
        getNextAlarmTime merged (w_now w0) = Ok t
        ∧ expo_reply w0 = ExpoId identifier
        ∧ updated = with_notificationId merged (Some identifier)
        ∧ w1 = register_world (alarm_registration merged identifier t)
                 (call_world (id merged) t wc)
    else
      updated = with_notificationId merged None ∧ w1 = wc
  else
    updated = merged ∧ w1 = w0.

(** The update carries one of the four keys that [updateAlarm] looks at. *)
Definition carries_schedule_key (updates : AlarmUpdates) : Prop :=
  is_Some (u_time updates) ∨ is_Some (u_repeats updates)
  ∨ is_Some (u_isEnabled updates) ∨ is_Some (u_soundUri updates).

(** Following the spec's words: the update changes the time of day, the
    repeat days, the enabled flag or the snooze duration of the alarm. *)
Definition changes_schedule_field (existing : Alarm) (updates : AlarmUpdates)
    : Prop :=
  (∃ v, u_time updates = Some v ∧ v ≠ time existing)
  ∨ (∃ v, u_repeats updates = Some v ∧ v ≠ repeats existing)
  ∨ (∃ v, u_isEnabled updates = Some v ∧ v ≠ isEnabled existing)
  ∨ (∃ v, u_snoozeDuration updates = Some v ∧ v ≠ snoozeDuration existing).

(** A world with the given alarms in the React state and in storage, the
    given pending requests and the given answers of expo-notifications. *)
Definition exampleWorld (now : Date.t) (alarms : list Alarm)
    (pending : list Registration) (expo : list ExpoReply) : World :=
  {| w_now := now; w_expo := expo; w_random := ["k3j9x0q2a"];
     w_calls := []; w_scheduled := pending; w_storage := Some alarms;
     w_alarms := alarms; w_error := None; w_console := [] |}.

(** The example alarm armed under the identifier "n0", with its request. *)
Definition armedAlarm : Alarm :=
  with_notificationId (exampleAlarm "07:30" []) (Some "n0").

Definition armedWorld (expo : list ExpoReply) : World :=
  exampleWorld (Date.make 2025 10 23 7 0) [armedAlarm]
    [alarm_registration armedAlarm "n0" (Date.make 2025 10 23 7 30)] expo.

(** Updates with a single key. *)
Definition upd_time (v : string) : AlarmUpdates :=
  {| u_label := None; u_description := None; u_time := Some v; u_repeats := None;
     u_isEnabled := None; u_soundUri := None; u_snoozeEnabled := None;
     u_snoozeDuration := None; u_notificationId := None |}.

Definition upd_snoozeDuration (v : Z) : AlarmUpdates :=
  {| u_label := None; u_description := None; u_time := None; u_repeats := None;
     u_isEnabled := None; u_soundUri := None; u_snoozeEnabled := None;
     u_snoozeDuration := Some v; u_notificationId := None |}.

Definition upd_isEnabled (v : bool) : AlarmUpdates :=
  {| u_label := None; u_description := None; u_time := None; u_repeats := None;
     u_isEnabled := Some v; u_soundUri := None; u_snoozeEnabled := None;
     u_snoozeDuration := None; u_notificationId := None |}.

Definition upd_notificationId (v : option string) : AlarmUpdates :=
  {| u_label := None; u_description := None; u_time := None; u_repeats := None;
     u_isEnabled := None; u_soundUri := None; u_snoozeEnabled := None;
     u_snoozeDuration := None; u_notificationId := Some v |}.

(** The pending requests that belong to an alarm. *)
Definition live_for (wanted : string) (regs : list Registration)
    : list Registration :=
  filter (fun r => alarmId (reg_data r) = wanted) regs.

(** At rest, the requests pending for the alarm are all under the
    identifier the record holds, and that identifier is not empty. *)
Definition registered_under (wanted : string) (nid : option string)
    (regs : list Registration) : Prop :=
  ∀ r, r ∈ regs → alarmId (reg_data r) = wanted →
       nid = Some (reg_identifier r) ∧ reg_identifier r ≠ "".


(** The relation the spec asks of an alarm at rest: it holds an identifier
    exactly when it is enabled. *)
Definition at_rest (a : Alarm) : Prop :=
  is_Some (notificationId a) ↔ isEnabled a = true.

Definition all_at_rest (alarms : list Alarm) : Prop :=
  ∀ a, a ∈ alarms → at_rest a.

(** A computation that leaves the React state [alarms] as it was, whatever
    its outcome. *)
Definition keeps_alarms {A} (m : M A) : Prop :=
  ∀ w r w', m w = (r, w') → w_alarms w' = w_alarms w.

(** A computation that leaves [alarms] as it was when it throws. *)
Definition keeps_alarms_on_throw {A} (m : M A) : Prop :=
  ∀ w e w', m w = (Throw e, w') → w_alarms w' = w_alarms w.

(** The world of the counterexample to the at-rest relation: one disabled
    alarm without identifier, whose snooze is enabled. *)
Definition disabledAlarm : Alarm :=
  {| id := "alarm-1"; label := "Wake up"; description := None; time := "07:30";
     repeats := []; isEnabled := false; soundUri := "chimes";
     snoozeEnabled := true; snoozeDuration := 10; notificationId := None;
     createdAt := 0; updatedAt := 0 |}.

Definition disabledWorld (expo : list ExpoReply) : World :=
  exampleWorld (Date.make 2025 10 23 7 0) [disabledAlarm] [] expo.





(** Four alarms for the example of [rescheduleAllAlarms]: the second has a
    time that does not parse and the third is disabled. *)
Definition badTimeAlarm : Alarm :=
  {| id := "a2"; label := "two"; description := None; time := "25:00";
     repeats := []; isEnabled := true; soundUri := "chimes";
     snoozeEnabled := true; snoozeDuration := 10; notificationId := None;
     createdAt := 0; updatedAt := 0 |}.


(** An input for [addAlarm]: an enabled one-time alarm at 07:30. *)
Definition exampleInput : AlarmInput :=
  {| in_label := "Wake up"; in_description := None; in_time := "07:30";
     in_repeats := []; in_isEnabled := true; in_soundUri := "chimes";
     in_snoozeEnabled := true; in_snoozeDuration := 10 |}.

(** Following the spec's words: after a failed schedule the record of the
    input is in the Store, disabled and without pending trigger. *)
Definition kept_disabled (input : AlarmInput) (w' : World) : Prop :=
  ∃ a, a ∈ stored_alarms w'
       ∧ label a = in_label input ∧ time a = in_time input
       ∧ isEnabled a = false ∧ notificationId a = None.

(** A notification whose trigger date is 07:30, and a world whose clock
    reads 07:25 with the example alarm armed for 07:30. *)
Definition earlyNotification : NotificationService.Notification :=
  {| NotificationService.n_identifier := "n0";
     NotificationService.n_data :=
       Some {| alarmId := "alarm-1"; isSnoozed := Some false;
               data_label := Some "Wake up"; scheduledAt := None |};
     NotificationService.n_trigger :=
       Some (NotificationService.DateTrigger (Date.make 2025 10 23 7 30)) |}.

Definition earlyWorld : World :=
  exampleWorld (Date.make 2025 10 23 7 25) [armedAlarm]
    [alarm_registration armedAlarm "n0" (Date.make 2025 10 23 7 30)] [].




(** * Vocabulary of the further properties *)

(** The number of calendar days from today to the next occurrence of a
    weekday, as [getNextWeekdayOccurrence] counts them: [dueToday] tells
    whether today's instant is still after [now]. *)
Definition dayOffset (target current : Z) (dueToday : bool) : Z :=
  let daysUntil := target - current in
  if daysUntil =? 0 then (if dueToday then 0 else 7)
  else if daysUntil <? 0 then daysUntil + 7
  else daysUntil.

(** An instant at the time of day [hm]. *)
Definition at_time_of_day (hm : HM) (t : Date.t) : Prop :=
  Date.setHours t (hours hm) (minutes hm) = t.


(** The hours and minutes of the day, as pairs. *)
Definition allTimesOfDay : list (Z * Z) :=
  flat_map (fun h => map (fun m => (Z.of_nat h, Z.of_nat m)) (seq 0 60)) (seq 0 24).

(** No string occurs twice in the list. *)
Fixpoint distinct_strings (l : list string) : bool :=
  match l with
  | [] => true
  | x :: rest => negb (existsb (String.eqb x) rest) && distinct_strings rest
  end.

(** A world at 07:00 on 2025-10-23 with nothing in it. *)
Definition morningWorld : World :=
  exampleWorld (Date.make 2025 10 23 7 0) [] [] [].

Definition noTimeRemaining : TimeRemaining :=
  {| tr_hours := 0; tr_minutes := 0; tr_total := 0 |}.

(** Two worlds with the same alarms, Store, pending requests and calls to
    the notifier. *)
Definition same_data (w w' : World) : Prop :=
  w_alarms w' = w_alarms w ∧ w_storage w' = w_storage w
  ∧ w_scheduled w' = w_scheduled w ∧ w_calls w' = w_calls w.

(** The alarms as the app holds them: the React state and the Store. *)
Definition alarm_data (w : World) : list Alarm * option (list Alarm) :=
  (w_alarms w, w_storage w).

(** A computation that leaves both as they were, whatever its outcome. *)
Definition keeps_data {A} (m : M A) : Prop :=
  ∀ w r w', m w = (r, w') → alarm_data w' = alarm_data w.

(** A computation that leaves both as they were when it throws. *)
Definition keeps_data_on_throw {A} (m : M A) : Prop :=
  ∀ w e w', m w = (Throw e, w') → alarm_data w' = alarm_data w.

(** The React state holds the alarms that the Store holds. *)
Definition state_matches_store (w : World) : Prop :=
  stored_alarms w = w_alarms w.

(** An alarm without its [updatedAt] stamp, which the context and the
    Store each take from their own reading of the clock. *)
Definition without_stamp (a : Alarm) : Alarm := StorageService.touch a 0.

(** The React state holds the alarms that the Store holds, the [updatedAt]
    stamps apart. *)
Definition same_but_stamps (w : World) : Prop :=
  without_stamp <$> stored_alarms w = without_stamp <$> w_alarms w.






(** The offset of the zone is [offset] all the way from the time value
    [from] to the time value [to]: it is the offset in force at each time
    value between them, and the one their local readings are read with. *)
Definition steady (tz : Zoned.Zone) (offset from to : Z) : Prop :=
  ∀ t, from <= t <= to →
       Zoned.offsetAt tz t = offset ∧ Zoned.offsetOf tz (t + offset) = offset.

(** The time value of a date given by its reading, in a zone of offset
    [offset]; a thrown error stays. *)
Definition as_time_value (offset : Z) (r : result Date.t) : result Z :=
  match r with
  | Ok reading => Ok (reading - offset)
  | Throw e => Throw e
  end.


(** A Saturday morning in New York, the day before the clocks go back, as
    a time value. *)
Definition beforeFallBack : Z :=
  Zoned.UTC Zoned.newYork2025 (Date.make 2025 11 1 8 0).

(** * Properties *)

(** ** Time parsing *)

Lemma time_in_range_Some h m hm :
  time_in_range h m = Some hm ↔
  h = Some (hours hm) ∧ m = Some (minutes hm)
  ∧ 0 <= hours hm <= 23 ∧ 0 <= minutes hm <= 59.
Proof.
  unfold time_in_range. destruct hm as [hv mv]; simpl.
  destruct h as [h|], m as [m|]; try (split; [discriminate | intros (? & ? & _); discriminate]).
  destruct (h <? 0) eqn:E1, (23 <? h) eqn:E2, (m <? 0) eqn:E3, (59 <? m) eqn:E4;
    simpl; (split; [intros [= <- <-] | intros ([= <-] & [= <-] & ? & ?)]);
    try discriminate; try lia; repeat split; try lia; reflexivity.
Qed.

Lemma time_in_range_None h m :
  time_in_range h m = None ↔ nan_or_outside 0 23 h ∨ nan_or_outside 0 59 m.
Proof.
  unfold time_in_range, nan_or_outside.
  destruct h as [h|], m as [m|]; try tauto.
  destruct (h <? 0) eqn:E1, (23 <? h) eqn:E2, (m <? 0) eqn:E3, (59 <? m) eqn:E4;
    simpl; split; intros; try reflexivity; try discriminate; lia.
Qed.

Lemma parseTimeString_Ok time hm :
  parseTimeString time = Ok hm →
  0 <= hours hm <= 23 ∧ 0 <= minutes hm <= 59.
Proof.
  unfold parseTimeString.
  destruct (time_in_range _ _) as [hm'|] eqn:E; [|discriminate].
  intros [= <-]. apply time_in_range_Some in E. tauto.
Qed.

(** Every hour and minute of the day, printed as HH:mm, is read back. *)
Lemma parseTimeString_formatHM h m :
  0 <= h <= 23 → 0 <= m <= 59 →
  parseTimeString (formatHM h m) = Ok {| hours := h; minutes := m |}.
Proof.
  intros Hh Hm.
  pose (reads := fun hn mn : nat =>
          match parseTimeString (formatHM (Z.of_nat hn) (Z.of_nat mn)) with
          | Ok hm => (hours hm =? Z.of_nat hn) && (minutes hm =? Z.of_nat mn)
          | Throw _ => false
          end).
  assert (forallb (fun hn => forallb (reads hn) (seq 0 60)) (seq 0 24) = true)
    as Hall by (vm_compute; reflexivity).
  rewrite forallb_forall in Hall.
  specialize (Hall (Z.to_nat h)). rewrite forallb_forall in Hall.
  assert (In (Z.to_nat h) (seq 0 24)) as Hin by (apply in_seq; lia).
  assert (In (Z.to_nat m) (seq 0 60)) as Hin' by (apply in_seq; lia).
  specialize (Hall Hin (Z.to_nat m) Hin'). unfold reads in Hall.
  rewrite !Z2Nat.id in Hall by lia.
  destruct (parseTimeString (formatHM h m)) as [[h' m']|]; [|discriminate].
  simpl in Hall. apply andb_prop in Hall as [H1 H2].
  apply Z.eqb_eq in H1, H2. subst. reflexivity.
Qed.

(** C10: [parseTimeString], and with it [isValidTimeString], rejects a
    string exactly when the number [parseInt] reads at the head of the
    first or of the second colon-separated piece is NaN or lies outside
    0..23, respectively 0..59.  The shape HH:mm is not required:
    '7:30abc' and '07:3x:59' are not of that shape and are accepted, as
    7:30 and 7:03. *)
Theorem parseTimeString_checks_numeric_prefixes_only :
  (∀ time : string,
     isValidTimeString time = false ↔
     nan_or_outside 0 23 (component_number time 0)
     ∨ nan_or_outside 0 59 (component_number time 1))
  ∧ (∀ time : string,
       isValidTimeString time = false ↔
       parseTimeString time = Throw invalid_time_format)
  ∧ isHHmmShape "7:30abc" = false
  ∧ parseTimeString "7:30abc" = Ok {| hours := 7; minutes := 30 |}
  ∧ isValidTimeString "7:30abc" = true
  ∧ isHHmmShape "07:3x:59" = false
  ∧ parseTimeString "07:3x:59" = Ok {| hours := 7; minutes := 3 |}
  ∧ isValidTimeString "07:3x:59" = true.
Proof.
  split; [|split].
  - intros time. rewrite <- time_in_range_None.
    unfold isValidTimeString, parseTimeString, component_number.
    destruct (time_in_range _ _); simpl; split; congruence.
  - intros time. unfold isValidTimeString, parseTimeString.
    destruct (time_in_range _ _); simpl; split; congruence.
  - repeat split; vm_compute; reflexivity.
Qed.

(** ** Calendar arithmetic *)

Section Calendar.

Import Date.

Lemma timeOfDayMs_bounds hm :
  valid_hm hm → 0 <= timeOfDayMs hm < msPerDay.
Proof. unfold valid_hm, timeOfDayMs, msPerHour, msPerMinute, msPerDay. lia. Qed.

Lemma startOfDay_bounds d : startOfDay d <= d < startOfDay d + msPerDay.
Proof.
  unfold startOfDay, msPerDay.
  pose proof (Z.div_mod d 86400000 ltac:(lia)).
  pose proof (Z.mod_pos_bound d 86400000 ltac:(lia)). lia.
Qed.

Lemma day_of_offset q r : 0 <= r < msPerDay → (q * msPerDay + r) / msPerDay = q.
Proof.
  intros Hr. symmetry. apply (Z.div_unique_pos _ _ q r); [exact Hr | lia].
Qed.

Lemma setHours_spec d hm :
  setHours d (hours hm) (minutes hm) = startOfDay d + timeOfDayMs hm.
Proof. unfold setHours, timeOfDayMs. lia. Qed.

Lemma day_setHours d hm :
  valid_hm hm → setHours d (hours hm) (minutes hm) / msPerDay = d / msPerDay.
Proof.
  intros Hv. rewrite setHours_spec. unfold startOfDay.
  apply day_of_offset, timeOfDayMs_bounds, Hv.
Qed.

Lemma day_addDays d k : addDays d k / msPerDay = d / msPerDay + k.
Proof.
  unfold addDays. rewrite Z.div_add by (unfold msPerDay; lia). reflexivity.
Qed.

Lemma startOfDay_addDays d k : startOfDay (addDays d k) = startOfDay d + k * msPerDay.
Proof. unfold startOfDay. rewrite day_addDays. lia. Qed.

Lemma getDay_setHours d hm :
  valid_hm hm → getDay (setHours d (hours hm) (minutes hm)) = getDay d.
Proof. intros Hv. unfold getDay. rewrite day_setHours by exact Hv. reflexivity. Qed.

Lemma getDay_range d : 0 <= getDay d < 7.
Proof. unfold getDay. apply Z.mod_pos_bound. lia. Qed.

Lemma getDay_addDays d k : getDay (addDays d k) = (getDay d + k) mod 7.
Proof.
  unfold getDay. rewrite day_addDays.
  rewrite Zplus_mod_idemp_l. f_equal. lia.
Qed.

Lemma WEEKDAY_TO_NUMBER_range day : 0 <= WEEKDAY_TO_NUMBER day < 7.
Proof. destruct day; simpl; lia. Qed.


End Calendar.

(** ** Next trigger of a one-time alarm *)


(** *** Where the offset of the zone does not change *)

Lemma steady_LocalTime tz offset from to t :
  steady tz offset from to → from <= t <= to →
  Zoned.LocalTime tz t = t + offset.
Proof.
  intros Hsteady Ht. unfold Zoned.LocalTime.
  rewrite (proj1 (Hsteady t Ht)). reflexivity.
Qed.

Lemma steady_UTC tz offset from to tlocal :
  steady tz offset from to → from <= tlocal - offset <= to →
  Zoned.UTC tz tlocal = tlocal - offset.
Proof.
  intros Hsteady Ht. unfold Zoned.UTC.
  pose proof (proj2 (Hsteady (tlocal - offset) Ht)) as Hof.
  replace (tlocal - offset + offset) with tlocal in Hof by lia.
  rewrite Hof. reflexivity.
Qed.


(** ** Next trigger of a repeating alarm *)

Lemma getNextWeekdayOccurrence_weekday day time now hm :
  parseTimeString time = Ok hm →
  ∃ occurrence,
    getNextWeekdayOccurrence day time now = Ok occurrence
    ∧ Date.getDay occurrence = WEEKDAY_TO_NUMBER day.
Proof.
  intros Hparse. pose proof (parseTimeString_Ok _ _ Hparse) as Hv.
  pose proof (WEEKDAY_TO_NUMBER_range day) as Ht.
  pose proof (getDay_range now) as Hc.
  unfold getNextWeekdayOccurrence. rewrite Hparse.
  destruct (Z.eqb_spec (WEEKDAY_TO_NUMBER day - Date.getDay now) 0) as [H0|H0].
  - destruct (now <? _); eexists; (split; [reflexivity|]);
      rewrite getDay_setHours by exact Hv.
    + lia.
    + rewrite getDay_addDays.
      rewrite <- (Z.mul_1_l 7) at 1. rewrite Z_mod_plus_full, Z.mod_small; lia.
  - destruct (Z.ltb_spec (WEEKDAY_TO_NUMBER day - Date.getDay now) 0) as [Hneg|Hpos];
      eexists; (split; [reflexivity|]);
      rewrite getDay_setHours, getDay_addDays by exact Hv.
    + replace (Date.getDay now + (WEEKDAY_TO_NUMBER day - Date.getDay now + 7))
        with (WEEKDAY_TO_NUMBER day + 1 * 7) by lia.
      rewrite Z_mod_plus_full, Z.mod_small; lia.
    + replace (Date.getDay now + (WEEKDAY_TO_NUMBER day - Date.getDay now))
        with (WEEKDAY_TO_NUMBER day) by lia.
      rewrite Z.mod_small; lia.
Qed.









(** ** The notification handler *)

Lemma over_tolerance (diffMs : Z) :
  negb (Qle_bool (inject_Z diffMs / 1000) NotificationService.TOLERANCE_SECONDS)
    = true
  ↔ 30 * 1000 < diffMs.
Proof.
  rewrite negb_true_iff, <- not_true_iff_false, Qle_bool_iff.
  unfold NotificationService.TOLERANCE_SECONDS, Qle, Qdiv, Qmult, Qinv, inject_Z.
  simpl. lia.
Qed.

Lemma shouldShow_expected n now expected :
  carries_expected n expected →
  NotificationService.shouldShow n now
  = Ok (negb (bool_decide (30 * 1000 < expected - now))).
Proof.
  intros Hc. unfold NotificationService.shouldShow.
  fold (n_data_scheduledAt n).
  assert (∀ d, (if negb (Qle_bool (inject_Z d / 1000)
                          NotificationService.TOLERANCE_SECONDS)
                then Ok false else Ok true)
               = Ok (negb (bool_decide (30 * 1000 < d)))) as Htol.
  { intros d. pose proof (over_tolerance d) as Ho.
    destruct (negb _); case_bool_decide; simpl; try reflexivity.
    - exfalso. tauto.
    - destruct Ho as [_ Ho]. specialize (Ho ltac:(assumption)). discriminate. }
  destruct Hc as [(s & -> & He & Ht) | [Hd Htr]].
  - simpl. rewrite He. simpl. rewrite He, Ht. apply Htol.
  - rewrite Htr. destruct Hd as [-> | (s & -> & He)]; simpl.
    + apply Htol.
    + rewrite He. simpl. apply Htol.
Qed.

(** C2: with the tolerance of 30 seconds, a notification delivered more
    than the tolerance before the expected trigger instant it carries is
    not shown in any way (no alert, sound, badge, banner or list entry),
    and the handler leaves the world as it was: every alarm record keeps
    its [isEnabled] and its [notificationId], and no request is cancelled. *)
Theorem handleNotification_blocks_premature
    (n : NotificationService.Notification) (w : World) (expected : Date.t) :
  carries_expected n expected →
  (NotificationService.TOLERANCE_SECONDS < inject_Z (expected - w_now w) / 1000)%Q →
  NotificationService.TOLERANCE_SECONDS = 30%Q
  ∧ NotificationService.handleNotification n w = (Ok showNothing, w).
Proof.
  intros Hc Hearly. split; [reflexivity|].
  assert (30 * 1000 < expected - w_now w) as Hms.
  { apply over_tolerance. apply negb_true_iff, not_true_iff_false.
    rewrite Qle_bool_iff. apply Qlt_not_le, Hearly. }
  unfold NotificationService.handleNotification, bind, gets, lift, ret.
  rewrite (shouldShow_expected n (w_now w) expected Hc).
  rewrite bool_decide_eq_true_2 by exact Hms. reflexivity.
Qed.

(** ** Running the effectful code *)

(** ** Creating an alarm when the notifier fails *)

(** C1, as the code has it: when [addAlarm] is called with an enabled
    input and expo-notifications rejects the schedule call, the error
    'Failed to schedule alarm notification' is thrown to the caller and
    the error state is set to 'Failed to add alarm'; no record is created:
    the list in the Store, the list in the React state and the pending
    requests are what they were. *)
Theorem addAlarm_schedule_failure (input : AlarmInput) (w : World) :
  in_isEnabled input = true →
  expo_reply w = ExpoReject →
  ∃ w' : World,
    AlarmContext.addAlarm input w
      = (Throw "Failed to schedule alarm notification", w')
    ∧ w_error w' = Some "Failed to add alarm"
    ∧ w_alarms w' = w_alarms w
    ∧ w_storage w' = w_storage w
    ∧ w_scheduled w' = w_scheduled w.
Proof.
  intros Hen Hrej. unfold expo_reply in Hrej.
  unfold_services. unfold_monad. cbn. rewrite Hen. cbn.
  destruct (getNextAlarmTime _ _) as [t|e]; cbn.
  - destruct (w_expo w) as [|[ident|] rest]; try discriminate; cbn;
      eexists; (split; [reflexivity|]); cbn; auto.
  - eexists; (split; [reflexivity|]); cbn; auto.
Qed.

Lemma find_Some wanted alarms a :
  AlarmContext.find wanted alarms = Some a → id a = wanted ∧ a ∈ alarms.
Proof.
  induction alarms as [|b rest IH]; simpl; [discriminate|].
  destruct (String.eqb_spec (id b) wanted) as [Heq|Hne].
  - intros [= <-]. split; [exact Heq | left].
  - intros H. destruct (IH H). split; [assumption | right; assumption].
Qed.



(** ** Inversion of the monad *)

Lemma bind_Ok_inv {A B} (m : M A) (k : A → M B) w b w' :
  bind m k w = (Ok b, w') →
  ∃ a w1, m w = (Ok a, w1) ∧ k a w1 = (Ok b, w').
Proof.
  unfold bind. destruct (m w) as [[a|e] w1]; [eauto | discriminate].
Qed.

Lemma bind_Throw_inv {A B} (m : M A) (k : A → M B) w e w' :
  bind m k w = (Throw e, w') →
  m w = (Throw e, w') ∨ ∃ a w1, m w = (Ok a, w1) ∧ k a w1 = (Throw e, w').
Proof.
  unfold bind. destruct (m w) as [[a|e'] w1]; [eauto | intros [= <- <-]; auto].
Qed.

Lemma try_catch_inv {A} (m : M A) (h : string → M A) w r w' :
  try_catch m h w = (r, w') →
  (∃ a, r = Ok a ∧ m w = (Ok a, w'))
  ∨ ∃ e w1, m w = (Throw e, w1) ∧ h e w1 = (r, w').
Proof.
  unfold try_catch. destruct (m w) as [[a|e] w1]; [intros [= <- <-] |]; eauto.
Qed.

(** A handler that logs and throws never gives a value. *)
Lemma try_catch_rethrow_Ok_inv {A} (m : M A) msg about (e' : string → string) w a w' :
  try_catch m (fun e => exec console_error msg about in throw (e' e)) w = (Ok a, w') →
  m w = (Ok a, w').
Proof.
  intros H. apply try_catch_inv in H as [(a' & [= <-] & H) | (e & w1 & _ & H)];
    [exact H | discriminate].
Qed.

(** ** Closed forms of the leaf operations *)

Lemma scheduleNotification_run data sound t w :
  NotificationService.scheduleNotification data sound t w =
  let sound' := if String.eqb sound "default" || String.eqb sound ""
                then "default" else sound in
  match expo_reply w with
  | ExpoId identifier =>
      (Ok identifier,
       register_world {| reg_identifier := identifier; reg_data := data;
                         reg_sound := sound'; reg_triggerDate := t |}
         (call_world (alarmId data) t w))
  | ExpoReject =>
      (Throw "Failed to schedule notification",
       log_world "[NotificationService] Failed to schedule notification:" None
         (call_world (alarmId data) t w))
  end.
Proof.
  unfold NotificationService.scheduleNotification, Expo.scheduleNotificationAsync,
    try_catch, bind, console_error, modify, throw, call_world, expo_reply.
  destruct (w_expo w) as [|[identifier|] rest]; reflexivity.
Qed.

Lemma scheduleAlarm_run alarm w :
  SchedulerService.scheduleAlarm alarm w =
  match getNextAlarmTime alarm (w_now w) with
  | Ok t =>
      match expo_reply w with
      | ExpoId identifier =>
          (Ok identifier,
           register_world (alarm_registration alarm identifier t)
             (call_world (id alarm) t w))
      | ExpoReject =>
          (Throw "Failed to schedule alarm",
           log_world "[SchedulerService] Failed to schedule alarm:" None
             (log_world "[NotificationService] Failed to schedule notification:" None
                (call_world (id alarm) t w)))
      end
  | Throw _ =>
      (Throw "Failed to schedule alarm",
       log_world "[SchedulerService] Failed to schedule alarm:" None
         (log_world "[SchedulerService] Failed to calculate next trigger:" None w))
  end.
Proof.
  unfold SchedulerService.scheduleAlarm, SchedulerService.calculateNextTrigger.
  unfold try_catch at 1. unfold bind at 1. unfold try_catch at 1.
  unfold bind at 1, gets, lift.
  destruct (getNextAlarmTime alarm (w_now w)) as [t|e]; [|reflexivity].
  rewrite scheduleNotification_run. cbn.
  destruct (expo_reply w) as [identifier|]; reflexivity.
Qed.

Lemma scheduleSnooze_run alarm duration w :
  SchedulerService.scheduleSnooze alarm duration w =
  let snoozeTime := w_now w + duration * 60 * 1000 in
  if Date.isValid snoozeTime then
    match expo_reply w with
    | ExpoId identifier =>
        (Ok identifier,
         register_world (snooze_registration alarm identifier snoozeTime)
           (call_world (id alarm) snoozeTime w))
    | ExpoReject =>
        (Throw "Failed to schedule snooze",
         log_world "[SchedulerService] Failed to schedule snooze:" None
           (log_world "[NotificationService] Failed to schedule notification:" None
              (call_world (id alarm) snoozeTime w)))
    end
  else
    (Throw "Failed to schedule snooze",
     log_world "[SchedulerService] Failed to schedule snooze:" None w).
Proof.
  unfold SchedulerService.scheduleSnooze.
  unfold try_catch at 1. unfold bind at 1, gets.
  unfold bind at 1, toISOString_logged.
  destruct (Date.isValid (w_now w + duration * 60 * 1000)); [|reflexivity].
  unfold ret at 1. rewrite scheduleNotification_run. cbn.
  destruct (expo_reply w) as [identifier|]; reflexivity.
Qed.

Lemma cancelAlarm_run nid w :
  when_truthy nid SchedulerService.cancelAlarm w = (Ok tt, cancel_world nid w).
Proof.
  unfold when_truthy, cancel_world. destruct nid as [s|]; [|reflexivity].
  destruct (truthy (Some s)) eqn:Et; [|reflexivity].
  simpl in Et. apply negb_true_iff in Et.
  unfold SchedulerService.cancelAlarm, NotificationService.cancelNotification,
    Expo.cancelScheduledNotificationAsync, try_catch, bind, modify.
  rewrite Et. reflexivity.
Qed.

Lemma cancelSchedule_run nid w :
  when_truthy nid useAlarmScheduler.cancelSchedule w = (Ok tt, cancel_world nid w).
Proof.
  pose proof (cancelAlarm_run nid w) as H.
  unfold when_truthy, cancel_world in *. destruct nid as [s|]; [|reflexivity].
  destruct (truthy (Some s)); [|reflexivity].
  unfold useAlarmScheduler.cancelSchedule, try_catch. rewrite H. reflexivity.
Qed.

Lemma storage_updateAlarm_run alarm w :
  StorageService.updateAlarm alarm w =
  match StorageService.findIndex (id alarm) (stored_alarms w) with
  | Some index =>
      (Ok tt,
       set_storage
         (Some (<[index := StorageService.touch alarm (w_now w)]> (stored_alarms w))) w)
  | None =>
      (Throw "Failed to update alarm in storage",
       log_world "[StorageService] Failed to update alarm:" None w)
  end.
Proof.
  unfold StorageService.updateAlarm, StorageService.getAlarms,
    StorageService.saveAlarms, stored_alarms,
    try_catch, bind, gets, ret, throw, modify, console_error.
  destruct (w_storage w) as [alarms|]; simpl; [|reflexivity].
  destruct (StorageService.findIndex (id alarm) alarms); reflexivity.
Qed.

Section CancelWorld.

Variable nid : option string.
Variable w : World.

Ltac cancel_cases :=
  destruct nid as [s|]; [destruct (truthy (Some s))|].

Lemma cancel_world_now : w_now (cancel_world nid w) = w_now w.
Proof. unfold cancel_world. cancel_cases; reflexivity. Qed.

Lemma cancel_world_expo : w_expo (cancel_world nid w) = w_expo w.
Proof. unfold cancel_world. cancel_cases; reflexivity. Qed.

Lemma cancel_world_reply : expo_reply (cancel_world nid w) = expo_reply w.
Proof. unfold expo_reply. rewrite cancel_world_expo. reflexivity. Qed.

Lemma cancel_world_alarms : w_alarms (cancel_world nid w) = w_alarms w.
Proof. unfold cancel_world. cancel_cases; reflexivity. Qed.

Lemma cancel_world_storage : w_storage (cancel_world nid w) = w_storage w.
Proof. unfold cancel_world. cancel_cases; reflexivity. Qed.

Lemma cancel_world_console : w_console (cancel_world nid w) = w_console w.
Proof. unfold cancel_world. cancel_cases; reflexivity. Qed.

Lemma cancel_world_calls :
  w_calls (cancel_world nid w) = (w_calls w ++ cancel_calls nid)%list.
Proof.
  unfold cancel_world, cancel_calls.
  cancel_cases; simpl; rewrite ?app_nil_r; reflexivity.
Qed.

Lemma cancel_world_scheduled :
  w_scheduled (cancel_world nid w) = after_cancel nid (w_scheduled w).
Proof. unfold cancel_world, after_cancel. cancel_cases; reflexivity. Qed.

End CancelWorld.

(** [rescheduleAlarm] cancels the identifier the alarm holds before it
    schedules: on success the calls it made are the cancel, if there was a
    truthy identifier, and then the schedule call. *)
Lemma rescheduleAlarm_cancels_first alarm w nid w' :
  SchedulerService.rescheduleAlarm alarm w = (Ok nid, w') →
  ∃ t,
    getNextAlarmTime alarm (w_now w) = Ok t
    ∧ w_calls w' = (w_calls w ++ cancel_calls (notificationId alarm)
                    ++ [CallSchedule (id alarm) t (ExpoId nid)])%list
    ∧ w_scheduled w' = (after_cancel (notificationId alarm) (w_scheduled w)
                        ++ [alarm_registration alarm nid t])%list.
Proof.
  intros Hrun. unfold SchedulerService.rescheduleAlarm in Hrun.
  apply try_catch_rethrow_Ok_inv with (e' := fun _ => _) in Hrun.
  apply bind_Ok_inv in Hrun as ([] & wc & Hcancel & Hsched).
  rewrite cancelAlarm_run in Hcancel. injection Hcancel as Hwc. subst wc.
  rewrite scheduleAlarm_run, cancel_world_now, cancel_world_reply in Hsched.
  destruct (getNextAlarmTime alarm (w_now w)) as [t|]; [|discriminate].
  destruct (expo_reply w) as [identifier|] eqn:Er; [|discriminate].
  injection Hsched as Hnid Hw'. subst nid w'.
  exists t. split; [reflexivity|]. simpl.
  rewrite cancel_world_calls, cancel_world_scheduled, cancel_world_reply, Er.
  rewrite <- app_assoc. split; reflexivity.
Qed.

Lemma updateAlarm_Ok wanted updates w w' :
  AlarmContext.updateAlarm wanted updates w = (Ok tt, w') →
  ∃ existing index updated w1,
    AlarmContext.find wanted (w_alarms w) = Some existing
    ∧ reschedule_outcome existing
        (AlarmContext.merge existing updates (w_now w))
        (AlarmContext.needsReschedule updates) (set_error None w) updated w1
    ∧ StorageService.findIndex wanted (stored_alarms w) = Some index
    ∧ w' = set_alarms (replace_alarm wanted updated)
             (set_storage
                (Some (<[index := StorageService.touch updated (w_now w)]>
                         (stored_alarms w))) w1).
Proof.
  intros Hrun. unfold AlarmContext.updateAlarm in Hrun.
  apply try_catch_inv in Hrun as [(u & _ & Hrun) | (e & w1 & _ & Hthrow)].
  2:{ unfold bind, console_error, modify, throw in Hthrow. discriminate. }
  apply bind_Ok_inv in Hrun as ([] & w0 & [= <-] & Hrun).
  apply bind_Ok_inv in Hrun as (alarms & w0' & [= <- <-] & Hrun).
  simpl in Hrun.
  destruct (AlarmContext.find wanted (w_alarms w)) as [existing|] eqn:Efind;
    [|discriminate].
  apply bind_Ok_inv in Hrun as (now & w0' & [= <- <-] & Hrun).
  apply bind_Ok_inv in Hrun as (updated & w1 & Hnotif & Hrun).
  apply bind_Ok_inv in Hrun as ([] & w2 & Hstore & Hset).
  unfold modify in Hset. injection Hset as <-.
  rewrite storage_updateAlarm_run in Hstore.
  destruct (find_Some _ _ _ Efind) as [Hid _].
  assert (id updated = wanted ∧ stored_alarms w1 = stored_alarms w
          ∧ w_now w1 = w_now w
          ∧ reschedule_outcome existing
              (AlarmContext.merge existing updates (w_now w))
              (AlarmContext.needsReschedule updates) (set_error None w) updated w1)
    as (Hid' & Hst & Hnow & Hout).
  { unfold reschedule_outcome. simpl in Hnotif.
    destruct (AlarmContext.needsReschedule updates).
    - apply bind_Ok_inv in Hnotif as ([] & wc & Hcancel & Hnotif).
      rewrite cancelAlarm_run in Hcancel. injection Hcancel as <-.
      destruct (default (isEnabled existing) (u_isEnabled updates)) eqn:Een.
      + apply bind_Ok_inv in Hnotif as (identifier & ws & Hsched & [= <- <-]).
        rewrite scheduleAlarm_run in Hsched.
        rewrite cancel_world_now, cancel_world_reply in Hsched. simpl in Hsched.
        destruct (getNextAlarmTime _ _) as [t|] eqn:Et; [|discriminate].
        destruct (expo_reply (set_error None w)) as [ident|] eqn:Er; [|discriminate].
        injection Hsched as <- <-.
        unfold stored_alarms. simpl.
        rewrite cancel_world_storage, cancel_world_now. simpl.
        rewrite Een. do 3 (split; [done|]). exists t, ident. done.
      + injection Hnotif as <- <-. unfold stored_alarms.
        rewrite cancel_world_storage, cancel_world_now. simpl.
        rewrite Een. done.
    - injection Hnotif as <- <-. simpl. auto. }
  rewrite Hid', Hst, Hnow in Hstore.
  destruct (StorageService.findIndex wanted (stored_alarms w)) as [index|] eqn:Eidx;
    [|discriminate].
  injection Hstore as <-.
  exists existing, index, updated, w1. auto.
Qed.

Lemma find_replace wanted updated alarms existing :
  AlarmContext.find wanted alarms = Some existing →
  id updated = wanted →
  AlarmContext.find wanted (replace_alarm wanted updated alarms) = Some updated.
Proof.
  intros Hfind Hid. induction alarms as [|a rest IH]; simpl in *; [discriminate|].
  destruct (String.eqb (id a) wanted) eqn:Ea; simpl.
  - rewrite Hid, String.eqb_refl. reflexivity.
  - rewrite Ea. apply IH, Hfind.
Qed.

Lemma needsReschedule_keys updates :
  AlarmContext.needsReschedule updates = true ↔ carries_schedule_key updates.
Proof.
  unfold AlarmContext.needsReschedule, carries_schedule_key.
  rewrite !orb_true_iff, !bool_decide_eq_true, <- !not_eq_None_Some. tauto.
Qed.

(** ** Edits and the notifier *)

(** What a completed [updateAlarm] has done to the alarm and to the notifier. *)
Lemma updateAlarm_effect
    (wanted : string) (updates : AlarmUpdates) (w w' : World) :
  AlarmContext.updateAlarm wanted updates w = (Ok tt, w') →
  ∃ existing updated : Alarm,
    AlarmContext.find wanted (w_alarms w) = Some existing
    ∧ AlarmContext.find wanted (w_alarms w') = Some updated
    ∧ let merged := AlarmContext.merge existing updates (w_now w) in
      (carries_schedule_key updates →
         if isEnabled merged then
           ∃ t identifier,
             getNextAlarmTime merged (w_now w) = Ok t
             ∧ w_calls w' = (w_calls w ++ cancel_calls (notificationId existing)
                             ++ [CallSchedule wanted t (ExpoId identifier)])%list
             ∧ w_scheduled w' = (after_cancel (notificationId existing) (w_scheduled w)
                                 ++ [alarm_registration merged identifier t])%list
             ∧ updated = with_notificationId merged (Some identifier)
         else
           w_calls w' = (w_calls w ++ cancel_calls (notificationId existing))%list
           ∧ w_scheduled w' = after_cancel (notificationId existing) (w_scheduled w)
           ∧ updated = with_notificationId merged None)
      ∧ (¬ carries_schedule_key updates →
         w_calls w' = w_calls w
         ∧ w_scheduled w' = w_scheduled w
         ∧ updated = merged).
Proof.
  intros Hrun.
  destruct (updateAlarm_Ok _ _ _ _ Hrun)
    as (existing & index & updated & w1 & Hfind & Hout & _ & ->).
  destruct (find_Some _ _ _ Hfind) as [Hid _].
  assert (id updated = wanted) as Hid'.
  { unfold reschedule_outcome in Hout.
    destruct (AlarmContext.needsReschedule updates);
      [destruct (isEnabled _); [destruct Hout as (? & ? & _ & _ & -> & _)
                               | destruct Hout as [-> _]]
      | destruct Hout as [-> _]]; exact Hid. }
  exists existing, updated. split; [exact Hfind|]. split.
  { simpl. apply (find_replace _ _ _ existing); [|exact Hid'].
    unfold reschedule_outcome in Hout.
    destruct (AlarmContext.needsReschedule updates);
      [destruct (isEnabled _); [destruct Hout as (? & ? & _ & _ & _ & ->)
                               | destruct Hout as [_ ->]]
      | destruct Hout as [_ ->]];
      simpl; rewrite ?cancel_world_alarms; exact Hfind. }
  unfold reschedule_outcome in Hout. simpl. split.
  - intros Hkeys. apply needsReschedule_keys in Hkeys. rewrite Hkeys in Hout.
    simpl in Hout.
    destruct (default (isEnabled existing) (u_isEnabled updates)).
    + destruct Hout as (t & identifier & Ht & Her & -> & ->).
      exists t, identifier. simpl.
      rewrite cancel_world_calls, cancel_world_scheduled, cancel_world_reply.
      rewrite <- app_assoc, Hid, Her. done.
    + destruct Hout as [-> ->].
      rewrite cancel_world_calls, cancel_world_scheduled. auto.
  - intros Hkeys. rewrite <- needsReschedule_keys in Hkeys.
    apply not_true_is_false in Hkeys. rewrite Hkeys in Hout.
    destruct Hout as [-> ->]. auto.
Qed.

(** C5, as the code has it: a completed [updateAlarm] goes through the
    cancel-old/schedule-new path exactly when the update carries one of
    the keys [time], [repeats], [isEnabled], [soundUri], whether or not
    the value differs from the stored one.  On that path the current
    identifier, when truthy, is cancelled first; then a new request is
    registered and its identifier stored when the merged alarm is enabled,
    and the identifier is cleared when it is not.  An update with none of
    the four keys (a new snooze duration, label or description, for
    instance) makes no call to the notifier and leaves the pending
    requests as they are. *)
Theorem updateAlarm_reschedules_on_keys
    (wanted : string) (updates : AlarmUpdates) (w w' : World) :
  AlarmContext.updateAlarm wanted updates w = (Ok tt, w') →
  ∃ existing updated : Alarm,
    AlarmContext.find wanted (w_alarms w) = Some existing
    ∧ AlarmContext.find wanted (w_alarms w') = Some updated
    ∧ let merged := AlarmContext.merge existing updates (w_now w) in
      (carries_schedule_key updates →
         if isEnabled merged then
           ∃ t identifier,
             getNextAlarmTime merged (w_now w) = Ok t
             ∧ w_calls w' = (w_calls w ++ cancel_calls (notificationId existing)
                             ++ [CallSchedule wanted t (ExpoId identifier)])%list
             ∧ w_scheduled w' = (after_cancel (notificationId existing) (w_scheduled w)
                                 ++ [alarm_registration merged identifier t])%list
             ∧ updated = with_notificationId merged (Some identifier)
         else
           w_calls w' = (w_calls w ++ cancel_calls (notificationId existing))%list
           ∧ w_scheduled w' = after_cancel (notificationId existing) (w_scheduled w)
           ∧ updated = with_notificationId merged None)
      ∧ (¬ carries_schedule_key updates →
         w_calls w' = w_calls w
         ∧ w_scheduled w' = w_scheduled w
         ∧ updated = merged).
Proof. exact (updateAlarm_effect wanted updates w w'). Qed.

Lemma updateAlarm_reschedules_on_keys_witness :
  ∃ (w' : World) (updated : Alarm),
    AlarmContext.updateAlarm "alarm-1" (upd_time "08:00") (armedWorld [ExpoId "n1"])
      = (Ok tt, w')
    ∧ AlarmContext.find "alarm-1" (w_alarms w') = Some updated
    ∧ notificationId updated = Some "n1"
    ∧ w_calls w' = [CallCancel "n0";
                    CallSchedule "alarm-1" (Date.make 2025 10 23 8 0) (ExpoId "n1")].
Proof.
  pose (w := armedWorld [ExpoId "n1"]).
  pose (w' := (AlarmContext.updateAlarm "alarm-1" (upd_time "08:00") w).2).
  assert (AlarmContext.updateAlarm "alarm-1" (upd_time "08:00") w = (Ok tt, w'))
    as Hrun by (vm_compute; reflexivity).
  destruct (updateAlarm_reschedules_on_keys "alarm-1" (upd_time "08:00") w w' Hrun)
    as (existing & updated & Hfind & Hfind' & Hkeys & _).
  exists w', updated. split; [exact Hrun|]. split; [exact Hfind'|].
  assert (existing = armedAlarm) as ->
    by (vm_compute in Hfind; injection Hfind as <-; reflexivity).
  assert (carries_schedule_key (upd_time "08:00")) as Hk by (left; eexists; reflexivity).
  specialize (Hkeys Hk). simpl in Hkeys.
  destruct Hkeys as (t & identifier & Ht & Hcalls & _ & ->).
  vm_compute in Ht. injection Ht as <-.
  assert (identifier = "n1") as ->.
  { vm_compute in Hcalls. injection Hcalls as <-. reflexivity. }
  split; reflexivity.
Defined.

(** A new snooze duration is an update that changes a field the claim
    lists, and it makes no call to the notifier; the unchanged time sent
    again changes no field, and it cancels and schedules anew. *)
Lemma updateAlarm_reschedule_counterexample :
  changes_schedule_field armedAlarm (upd_snoozeDuration 5)
  ∧ (∃ w', AlarmContext.updateAlarm "alarm-1" (upd_snoozeDuration 5)
             (armedWorld [ExpoId "n1"]) = (Ok tt, w')
           ∧ w_calls w' = w_calls (armedWorld [ExpoId "n1"])
           ∧ w_scheduled w' = w_scheduled (armedWorld [ExpoId "n1"]))
  ∧ ¬ changes_schedule_field armedAlarm (upd_time "07:30")
  ∧ (∃ w', AlarmContext.updateAlarm "alarm-1" (upd_time "07:30")
             (armedWorld [ExpoId "n1"]) = (Ok tt, w')
           ∧ w_calls w'
             = [CallCancel "n0";
                CallSchedule "alarm-1" (Date.make 2025 10 23 7 30) (ExpoId "n1")]).
Proof.
  split; [|split; [|split]].
  - right. right. right. exists 5. split; [reflexivity | discriminate].
  - eexists. split; [vm_compute; reflexivity|]. split; reflexivity.
  - intros [(v & [= <-] & Hne) | [(v & Hv & _) | [(v & Hv & _) | (v & Hv & _)]]];
      try discriminate. apply Hne. reflexivity.
  - eexists. split; [vm_compute; reflexivity|]. reflexivity.
Qed.

(** ** Two edits in a row *)


Lemma live_for_after_cancel_nil wanted nid regs :
  registered_under wanted nid regs →
  live_for wanted (after_cancel nid regs) = [].
Proof.
  intros Hunder. unfold live_for.
  induction regs as [|r rest IH]; simpl.
  - unfold after_cancel. destruct nid as [s|]; [destruct (truthy _)|]; reflexivity.
  - assert (registered_under wanted nid rest) as Hrest.
    { intros r' Hin. apply Hunder. right. exact Hin. }
    specialize (IH Hrest).
    destruct (decide (alarmId (reg_data r) = wanted)) as [Hmine|Hother].
    + destruct (Hunder r ltac:(left) Hmine) as [-> Hne].
      unfold after_cancel in *. simpl in *.
      apply String.eqb_neq in Hne as Hb. rewrite Hb in *. simpl in *.
      rewrite filter_cons_False by (intros H; apply H; reflexivity).
      exact IH.
    + unfold after_cancel in *.
      destruct nid as [s|]; [destruct (truthy (Some s))|].
      * destruct (decide (reg_identifier r ≠ s)).
        -- rewrite filter_cons_True by assumption.
           rewrite filter_cons_False by assumption. exact IH.
        -- rewrite filter_cons_False by assumption. exact IH.
      * rewrite filter_cons_False by assumption. exact IH.
      * rewrite filter_cons_False by assumption. exact IH.
Qed.







(** ** Frames: what leaves the list of alarms alone *)

Create HintDb keeps discriminated.

Lemma keeps_ret {A} (a : A) : keeps_alarms (ret a).
Proof. intros w r w' [= <- <-]. reflexivity. Qed.

Lemma keeps_throw {A} msg : keeps_alarms (@throw A msg).
Proof. intros w r w' [= <- <-]. reflexivity. Qed.

Lemma keeps_gets {A} (f : World → A) : keeps_alarms (gets f).
Proof. intros w r w' [= <- <-]. reflexivity. Qed.

Lemma keeps_lift {A} (x : result A) : keeps_alarms (lift x).
Proof. intros w r w' [= <- <-]. reflexivity. Qed.

Lemma keeps_modify (f : World → World) :
  (∀ w, w_alarms (f w) = w_alarms w) → keeps_alarms (modify f).
Proof. intros Hf w r w' [= <- <-]. apply Hf. Qed.

Lemma keeps_console_error msg about : keeps_alarms (console_error msg about).
Proof. apply keeps_modify. reflexivity. Qed.

Lemma keeps_bind {A B} (m : M A) (k : A → M B) :
  keeps_alarms m → (∀ a, keeps_alarms (k a)) → keeps_alarms (bind m k).
Proof.
  intros Hm Hk w r w'. unfold bind.
  destruct (m w) as [[a|e] w1] eqn:Em.
  - intros Hrun. rewrite (Hk _ _ _ _ Hrun). exact (Hm _ _ _ Em).
  - intros [= <- <-]. exact (Hm _ _ _ Em).
Qed.

Lemma keeps_try_catch {A} (m : M A) (h : string → M A) :
  keeps_alarms m → (∀ e, keeps_alarms (h e)) → keeps_alarms (try_catch m h).
Proof.
  intros Hm Hh w r w'. unfold try_catch.
  destruct (m w) as [[a|e] w1] eqn:Em.
  - intros [= <- <-]. exact (Hm _ _ _ Em).
  - intros Hrun. rewrite (Hh _ _ _ _ Hrun). exact (Hm _ _ _ Em).
Qed.

Lemma keeps_when_truthy nid (k : string → M unit) :
  (∀ s, keeps_alarms (k s)) → keeps_alarms (when_truthy nid k).
Proof.
  intros Hk. unfold when_truthy.
  destruct nid as [s|]; [destruct (truthy _)|]; auto using keeps_ret.
Qed.

#[local] Hint Resolve keeps_ret keeps_throw keeps_gets keeps_lift
  keeps_console_error keeps_bind keeps_try_catch keeps_when_truthy : keeps.

Ltac keeps_step :=
  first
    [ apply keeps_bind; [|intros ?]
    | apply keeps_try_catch; [|intros ?]
    | apply keeps_when_truthy; intros ?
    | apply keeps_ret | apply keeps_throw | apply keeps_gets | apply keeps_lift
    | apply keeps_console_error
    | apply keeps_modify; intros ?; reflexivity
    | match goal with
      | |- keeps_alarms (if ?b then _ else _) => destruct b
      | |- keeps_alarms (match ?x with _ => _ end) => destruct x
      end ].

Lemma keeps_scheduleNotification data sound t :
  keeps_alarms (NotificationService.scheduleNotification data sound t).
Proof.
  intros w r w'. rewrite scheduleNotification_run. simpl.
  destruct (expo_reply w); intros [= <- <-]; reflexivity.
Qed.

Lemma keeps_scheduleAlarm alarm : keeps_alarms (SchedulerService.scheduleAlarm alarm).
Proof.
  intros w r w'. rewrite scheduleAlarm_run.
  destruct (getNextAlarmTime _ _); [destruct (expo_reply w)|];
    intros [= <- <-]; reflexivity.
Qed.

Lemma keeps_scheduleSnooze alarm d : keeps_alarms (SchedulerService.scheduleSnooze alarm d).
Proof.
  intros w r w'. rewrite scheduleSnooze_run. cbv zeta.
  destruct (Date.isValid _); [destruct (expo_reply w)|];
    intros [= <- <-]; reflexivity.
Qed.

Lemma keeps_cancelAlarm s : keeps_alarms (SchedulerService.cancelAlarm s).
Proof.
  unfold SchedulerService.cancelAlarm, NotificationService.cancelNotification,
    Expo.cancelScheduledNotificationAsync.
  repeat keeps_step.
Qed.

Lemma keeps_storage_updateAlarm a : keeps_alarms (StorageService.updateAlarm a).
Proof.
  intros w r w'. rewrite storage_updateAlarm_run.
  destruct (StorageService.findIndex _ _); intros [= <- <-]; reflexivity.
Qed.

Lemma keeps_storage_addAlarm a : keeps_alarms (StorageService.addAlarm a).
Proof.
  unfold StorageService.addAlarm, StorageService.getAlarms, StorageService.saveAlarms.
  repeat keeps_step.
Qed.

#[local] Hint Resolve keeps_scheduleNotification keeps_scheduleAlarm
  keeps_scheduleSnooze keeps_cancelAlarm keeps_storage_updateAlarm
  keeps_storage_addAlarm : keeps.

(** ** The at-rest relation *)

Lemma all_at_rest_replace wanted updated alarms :
  all_at_rest alarms → at_rest updated →
  all_at_rest (replace_alarm wanted updated alarms).
Proof.
  intros Hall Hupd a Hin. unfold replace_alarm in Hin.
  apply list_elem_of_fmap in Hin as (b & -> & Hb).
  destruct (String.eqb (id b) wanted); [exact Hupd | apply Hall, Hb].
Qed.

Lemma all_at_rest_snoc alarms a :
  all_at_rest alarms → at_rest a → all_at_rest (alarms ++ [a]).
Proof.
  intros Hall Ha b Hin. apply elem_of_app in Hin as [Hin|Hin].
  - apply Hall, Hin.
  - apply list_elem_of_singleton in Hin as ->. exact Ha.
Qed.

(** The alarm that a completed [updateAlarm] writes. *)
Lemma updateAlarm_updated wanted updates w w' :
  AlarmContext.updateAlarm wanted updates w = (Ok tt, w') →
  ∃ existing updated,
    AlarmContext.find wanted (w_alarms w) = Some existing
    ∧ w_alarms w' = replace_alarm wanted updated (w_alarms w)
    ∧ (carries_schedule_key updates → at_rest updated)
    ∧ (¬ carries_schedule_key updates →
       isEnabled updated = isEnabled existing
       ∧ notificationId updated
         = default (notificationId existing) (u_notificationId updates)).
Proof.
  intros Hrun.
  destruct (updateAlarm_Ok _ _ _ _ Hrun)
    as (existing & index & updated & w1 & Hfind & Hout & _ & ->).
  exists existing, updated. split; [exact Hfind|].
  unfold reschedule_outcome in Hout.
  destruct (AlarmContext.needsReschedule updates) eqn:Eneeds.
  - apply needsReschedule_keys in Eneeds as Hkeys.
    destruct (isEnabled (AlarmContext.merge existing updates (w_now w))) eqn:Een.
    + destruct Hout as (t & identifier & _ & _ & -> & ->). simpl.
      rewrite cancel_world_alarms. simpl.
      split; [reflexivity|]. split; [|tauto].
      intros _. unfold at_rest. simpl. simpl in Een. rewrite Een.
      split; [reflexivity | eauto].
    + destruct Hout as [-> ->]. simpl. rewrite cancel_world_alarms. simpl.
      split; [reflexivity|]. split; [|tauto].
      intros _. unfold at_rest. simpl. simpl in Een. rewrite Een.
      split; [intros [? [=]] | discriminate].
  - destruct Hout as [-> ->]. simpl. split; [reflexivity|].
    split.
    + intros Hkeys. apply needsReschedule_keys in Hkeys. congruence.
    + intros Hkeys. unfold carries_schedule_key in Hkeys.
      destruct (u_isEnabled updates) as [v|] eqn:Ev;
        [exfalso; apply Hkeys; right; right; left; eauto | auto].
Qed.

Lemma on_throw_of_keeps {A} (m : M A) :
  keeps_alarms m → keeps_alarms_on_throw m.
Proof. intros Hm w e w' Hrun. exact (Hm _ _ _ Hrun). Qed.

Lemma on_throw_modify (f : World → World) : keeps_alarms_on_throw (modify f).
Proof. intros w e w' [=]. Qed.

Lemma on_throw_bind {A B} (m : M A) (k : A → M B) :
  keeps_alarms m → (∀ a, keeps_alarms_on_throw (k a)) →
  keeps_alarms_on_throw (bind m k).
Proof.
  intros Hm Hk w e w' Hrun.
  apply bind_Throw_inv in Hrun as [Hrun | (a & w1 & Hrun & Hk')].
  - exact (Hm _ _ _ Hrun).
  - rewrite (Hk _ _ _ _ Hk'). exact (Hm _ _ _ Hrun).
Qed.

Lemma on_throw_try_catch {A} (m : M A) (h : string → M A) :
  keeps_alarms_on_throw m → (∀ e, keeps_alarms (h e)) →
  keeps_alarms_on_throw (try_catch m h).
Proof.
  intros Hm Hh w e w' Hrun.
  apply try_catch_inv in Hrun as [(a & [=] & _) | (e0 & w1 & Hrun & Hh')].
  rewrite (Hh _ _ _ _ Hh'). exact (Hm _ _ _ Hrun).
Qed.

Lemma updateAlarm_keeps_on_throw wanted updates :
  keeps_alarms_on_throw (AlarmContext.updateAlarm wanted updates).
Proof.
  unfold AlarmContext.updateAlarm.
  apply on_throw_try_catch; [|intros ?; repeat keeps_step].
  apply on_throw_bind; [repeat keeps_step | intros _].
  apply on_throw_bind; [repeat keeps_step | intros alarms].
  destruct (AlarmContext.find wanted alarms) as [existing|];
    [|apply on_throw_of_keeps, keeps_throw].
  apply on_throw_bind; [repeat keeps_step | intros now].
  apply on_throw_bind; [|intros updated].
  { repeat (first [ apply keeps_scheduleAlarm | apply keeps_cancelAlarm
                  | keeps_step ]). }
  apply on_throw_bind; [auto with keeps | intros _].
  apply on_throw_modify.
Qed.

Ltac keeps_all :=
  repeat (first [ apply keeps_scheduleAlarm | apply keeps_cancelAlarm
                | apply keeps_scheduleSnooze | apply keeps_storage_updateAlarm
                | apply keeps_storage_addAlarm | keeps_step ]).

(** A completed [addAlarm] appends one alarm, built from the input, that
    holds an identifier exactly when it is enabled. *)
Lemma addAlarm_Ok input w w' :
  AlarmContext.addAlarm input w = (Ok tt, w') →
  ∃ a,
    w_alarms w' = (w_alarms w ++ [a])%list
    ∧ time a = in_time input
    ∧ repeats a = in_repeats input
    ∧ isEnabled a = in_isEnabled input
    ∧ at_rest a.
Proof.
  intros Hrun. unfold AlarmContext.addAlarm in Hrun.
  apply try_catch_inv in Hrun as [(u & _ & Hrun) | (e & w1 & _ & Hthrow)].
  2:{ unfold bind, console_error, modify, throw in Hthrow. discriminate. }
  apply bind_Ok_inv in Hrun as ([] & w0 & [= <-] & Hrun).
  apply bind_Ok_inv in Hrun as (now & w0 & [= <- <-] & Hrun).
  apply bind_Ok_inv in Hrun as (rnd & w1 & Hrnd & Hrun).
  unfold AlarmContext.nextRandom in Hrnd. injection Hrnd as <- <-.
  apply bind_Ok_inv in Hrun as (a & w2 & Hsched & Hrun).
  apply bind_Ok_inv in Hrun as ([] & w3 & Hstore & Hset).
  unfold modify in Hset. injection Hset as Hset. subst w'.
  exists a. simpl.
  rewrite (keeps_storage_addAlarm _ _ _ _ Hstore).
  simpl in Hsched.
  destruct (in_isEnabled input) eqn:Een.
  - apply try_catch_inv in Hsched as [(a' & [= <-] & Hsched) | (e & w4 & _ & Hthrow)].
    2:{ unfold bind, console_error, modify, throw in Hthrow. discriminate. }
    apply bind_Ok_inv in Hsched as (nid & w4 & Hsched & [= <- <-]).
    rewrite (keeps_scheduleAlarm _ _ _ _ Hsched). simpl.
    repeat split; try assumption; unfold at_rest; simpl; rewrite ?Een; eauto.
  - injection Hsched as <- <-. simpl.
    repeat split; try assumption; unfold at_rest; simpl; rewrite ?Een;
      try discriminate. intros [? [=]].
Qed.

Lemma toggleAlarm_Ok wanted w w' :
  AlarmContext.toggleAlarm wanted w = (Ok tt, w') →
  ∃ alarm,
    AlarmContext.find wanted (w_alarms w) = Some alarm
    ∧ AlarmContext.updateAlarm wanted (upd_isEnabled (negb (isEnabled alarm)))
        (set_error None w) = (Ok tt, w').
Proof.
  intros Hrun. unfold AlarmContext.toggleAlarm in Hrun.
  apply try_catch_inv in Hrun as [(u & _ & Hrun) | (e & w1 & _ & Hthrow)].
  2:{ unfold bind, console_error, modify, throw in Hthrow. discriminate. }
  apply bind_Ok_inv in Hrun as ([] & w0 & [= <-] & Hrun).
  apply bind_Ok_inv in Hrun as (alarms & w0 & [= <- <-] & Hrun).
  simpl in Hrun.
  destruct (AlarmContext.find wanted (w_alarms w)) as [alarm|]; [|discriminate].
  exists alarm. destruct u. split; [reflexivity | exact Hrun].
Qed.

(** Completed edits and the at-rest relation. *)
Lemma updateAlarm_at_rest wanted updates w w' :
  AlarmContext.updateAlarm wanted updates w = (Ok tt, w') →
  carries_schedule_key updates ∨ u_notificationId updates = None →
  all_at_rest (w_alarms w) →
  all_at_rest (w_alarms w').
Proof.
  intros Hrun Hshape Hall.
  destruct (updateAlarm_updated _ _ _ _ Hrun)
    as (existing & updated & Hfind & -> & Hkey & Hnokey).
  apply all_at_rest_replace; [exact Hall|].
  destruct (AlarmContext.needsReschedule updates) eqn:Eneeds.
  - apply Hkey, needsReschedule_keys, Eneeds.
  - assert (¬ carries_schedule_key updates) as Hno.
    { rewrite <- needsReschedule_keys. congruence. }
    destruct Hshape as [? | Hnid]; [tauto|].
    destruct (Hnokey Hno) as [Hen Hid]. rewrite Hnid in Hid. simpl in Hid.
    destruct (find_Some _ _ _ Hfind) as [_ Hin].
    specialize (Hall existing Hin). unfold at_rest in *.
    rewrite Hen, Hid. exact Hall.
Qed.

Lemma keeps_rescheduleRepeatingAlarm alarm :
  keeps_alarms (useAlarmScheduler.rescheduleRepeatingAlarm alarm).
Proof.
  unfold useAlarmScheduler.rescheduleRepeatingAlarm,
    SchedulerService.rescheduleRepeatingAlarm.
  keeps_all.
Qed.

Lemma keeps_hook_scheduleSnooze alarm d :
  keeps_alarms (useAlarmScheduler.scheduleSnooze alarm d).
Proof. unfold useAlarmScheduler.scheduleSnooze. keeps_all. Qed.

Lemma keeps_cancelSchedule s : keeps_alarms (useAlarmScheduler.cancelSchedule s).
Proof. unfold useAlarmScheduler.cancelSchedule. keeps_all. Qed.

Lemma keeps_getAlarmById wanted : keeps_alarms (AlarmContext.getAlarmById wanted).
Proof. unfold AlarmContext.getAlarmById. keeps_all. Qed.

Lemma getAlarmById_run wanted w :
  AlarmContext.getAlarmById wanted w
  = (Ok (AlarmContext.find wanted (w_alarms w)), w).
Proof. reflexivity. Qed.

(** [rescheduleRepeatingAlarm] only gives an identifier for an enabled alarm. *)
Lemma rescheduleRepeatingAlarm_Some alarm w nid w' :
  useAlarmScheduler.rescheduleRepeatingAlarm alarm w = (Ok (Some nid), w') →
  isEnabled alarm = true.
Proof.
  intros Hrun. unfold useAlarmScheduler.rescheduleRepeatingAlarm in Hrun.
  apply try_catch_rethrow_Ok_inv with (e' := fun e => e) in Hrun.
  unfold SchedulerService.rescheduleRepeatingAlarm in Hrun.
  apply try_catch_rethrow_Ok_inv with (e' := fun _ => _) in Hrun.
  destruct (length (repeats alarm) =? 0)%nat; [discriminate|].
  destruct (isEnabled alarm); [reflexivity | discriminate].
Qed.

Lemma onDismiss_at_rest alarmId w r w' :
  App.onDismiss alarmId w = (r, w') →
  all_at_rest (w_alarms w) →
  r = Ok tt ∧ all_at_rest (w_alarms w').
Proof.
  intros Hrun Hall. unfold App.onDismiss in Hrun.
  apply try_catch_inv in Hrun as [(u & -> & Hrun) | (e & w1 & Hbody & Hh)].
  - destruct u. split; [reflexivity|].
    apply bind_Ok_inv in Hrun as (found & w0 & Hget & Hrun).
    rewrite getAlarmById_run in Hget. injection Hget as <- <-.
    destruct (AlarmContext.find alarmId (w_alarms w)) as [alarm|] eqn:Efind.
    2:{ injection Hrun as <-. exact Hall. }
    apply bind_Ok_inv in Hrun as ([] & w1 & Hcancel & Hrun).
    rewrite cancelSchedule_run in Hcancel. injection Hcancel as <-.
    assert (all_at_rest (w_alarms (cancel_world (notificationId alarm) w))) as Hall1
      by (rewrite cancel_world_alarms; exact Hall).
    destruct (0 <? length (repeats alarm))%nat.
    + apply bind_Ok_inv in Hrun as (nid & w2 & Hres & Hrun).
      pose proof (keeps_rescheduleRepeatingAlarm _ _ _ _ Hres) as Hkeep.
      rewrite cancel_world_alarms in Hkeep.
      destruct (truthy nid) eqn:Etruthy.
      2:{ injection Hrun as <-. rewrite Hkeep. exact Hall. }
      destruct nid as [s|]; [|discriminate].
      apply rescheduleRepeatingAlarm_Some in Hres as Hen.
      destruct (updateAlarm_updated _ _ _ _ Hrun)
        as (existing & updated & Hfind & -> & _ & Hnokey).
      rewrite Hkeep in *. rewrite Efind in Hfind. injection Hfind as <-.
      apply all_at_rest_replace; [exact Hall|].
      destruct Hnokey as [Hen' Hid'].
      { intros [[? [=]] | [[? [=]] | [[? [=]] | [? [=]]]]]. }
      simpl in Hid'. unfold at_rest. rewrite Hen', Hid', Hen.
      split; [reflexivity | eauto].
    + eapply updateAlarm_at_rest; [exact Hrun | | exact Hall1].
      left. right. right. left. eexists. reflexivity.
  - unfold console_error, modify in Hh. injection Hh as <- <-.
    split; [reflexivity|]. simpl.
    assert (w_alarms w1 = w_alarms w) as ->; [|exact Hall].
    revert Hbody. generalize w e w1.
    change (keeps_alarms_on_throw
      (let* found := AlarmContext.getAlarmById alarmId in
       match found with
       | None => console_error "[App] Alarm not found for dismiss:" (Some alarmId)
       | Some alarm =>
           exec when_truthy (notificationId alarm)
                  useAlarmScheduler.cancelSchedule in
           if (0 <? length (repeats alarm))%nat then
             let* notificationId := useAlarmScheduler.rescheduleRepeatingAlarm alarm in
             if truthy notificationId then
               AlarmContext.updateAlarm alarmId
                 {| u_label := None; u_description := None; u_time := None;
                    u_repeats := None; u_isEnabled := None; u_soundUri := None;
                    u_snoozeEnabled := None; u_snoozeDuration := None;
                    u_notificationId := Some notificationId |}
             else ret tt
           else
             AlarmContext.updateAlarm alarmId
               {| u_label := None; u_description := None; u_time := None;
                  u_repeats := None; u_isEnabled := Some false; u_soundUri := None;
                  u_snoozeEnabled := None; u_snoozeDuration := None;
                  u_notificationId := Some None |}
       end)).
    apply on_throw_bind; [apply keeps_getAlarmById | intros [alarm|]].
    2:{ apply on_throw_of_keeps, keeps_console_error. }
    apply on_throw_bind.
    { apply keeps_when_truthy, keeps_cancelSchedule. }
    intros _. destruct (0 <? length (repeats alarm))%nat.
    + apply on_throw_bind; [apply keeps_rescheduleRepeatingAlarm | intros nid].
      destruct (truthy nid);
        [apply updateAlarm_keeps_on_throw | apply on_throw_of_keeps, keeps_ret].
    + apply updateAlarm_keeps_on_throw.
Qed.

Lemma onSnooze_at_rest alarmId w r w' :
  App.onSnooze alarmId w = (r, w') →
  all_at_rest (w_alarms w) →
  (∀ alarm, AlarmContext.find alarmId (w_alarms w) = Some alarm →
            isEnabled alarm = true) →
  r = Ok tt ∧ all_at_rest (w_alarms w').
Proof.
  intros Hrun Hall Henabled. unfold App.onSnooze in Hrun.
  apply try_catch_inv in Hrun as [(u & -> & Hrun) | (e & w1 & Hbody & Hh)].
  - destruct u. split; [reflexivity|].
    apply bind_Ok_inv in Hrun as (found & w0 & Hget & Hrun).
    rewrite getAlarmById_run in Hget. injection Hget as <- <-.
    destruct (AlarmContext.find alarmId (w_alarms w)) as [alarm|] eqn:Efind.
    2:{ injection Hrun as <-. exact Hall. }
    destruct (snoozeEnabled alarm); simpl in Hrun.
    2:{ injection Hrun as <-. exact Hall. }
    apply bind_Ok_inv in Hrun as ([] & w1 & Hcancel & Hrun).
    rewrite cancelSchedule_run in Hcancel. injection Hcancel as <-.
    apply bind_Ok_inv in Hrun as (nid & w2 & Hsnooze & Hrun).
    pose proof (keeps_hook_scheduleSnooze _ _ _ _ _ Hsnooze) as Hkeep.
    rewrite cancel_world_alarms in Hkeep.
    destruct (updateAlarm_updated _ _ _ _ Hrun)
      as (existing & updated & Hfind & -> & _ & Hnokey).
    rewrite Hkeep in *. rewrite Efind in Hfind. injection Hfind as <-.
    apply all_at_rest_replace; [exact Hall|].
    destruct Hnokey as [Hen' Hid'].
    { intros [[? [=]] | [[? [=]] | [[? [=]] | [? [=]]]]]. }
    simpl in Hid'. unfold at_rest.
    rewrite Hen', Hid', (Henabled alarm eq_refl).
    split; [reflexivity | eauto].
  - unfold console_error, modify in Hh. injection Hh as <- <-.
    split; [reflexivity|]. simpl.
    assert (w_alarms w1 = w_alarms w) as ->; [|exact Hall].
    revert Hbody. generalize w e w1.
    apply on_throw_bind; [apply keeps_getAlarmById | intros [alarm|]].
    2:{ apply on_throw_of_keeps, keeps_console_error. }
    destruct (negb (snoozeEnabled alarm)); [apply on_throw_of_keeps, keeps_ret|].
    apply on_throw_bind.
    { apply keeps_when_truthy, keeps_cancelSchedule. }
    intros _.
    apply on_throw_bind; [apply keeps_hook_scheduleSnooze | intros nid].
    apply updateAlarm_keeps_on_throw.
Qed.

(** ** Rescheduling all alarms *)











Lemma addAlarm_schedule_failure_witness :
  ∃ w' : World,
    AlarmContext.addAlarm exampleInput
      (exampleWorld (Date.make 2025 10 23 7 0) [] [] [ExpoReject])
      = (Throw "Failed to schedule alarm notification", w')
    ∧ w_error w' = Some "Failed to add alarm"
    ∧ w_alarms w' = []
    ∧ w_storage w' = Some []
    ∧ w_scheduled w' = [].
Proof.
  apply (addAlarm_schedule_failure exampleInput
           (exampleWorld (Date.make 2025 10 23 7 0) [] [] [ExpoReject]));
    reflexivity.
Defined.

(** With an enabled input and a notifier that rejects the request, the
    Store holds no record of the input afterwards. *)
Lemma addAlarm_schedule_failure_counterexample :
  in_isEnabled exampleInput = true
  ∧ expo_reply (exampleWorld (Date.make 2025 10 23 7 0) [] [] [ExpoReject])
    = ExpoReject
  ∧ ∃ e w',
      AlarmContext.addAlarm exampleInput
        (exampleWorld (Date.make 2025 10 23 7 0) [] [] [ExpoReject])
        = (Throw e, w')
      ∧ stored_alarms w' = []
      ∧ ¬ kept_disabled exampleInput w'.
Proof.
  split; [reflexivity|]. split; [reflexivity|].
  eexists _, _. split; [vm_compute; reflexivity|].
  split; [reflexivity|].
  intros (a & Hin & _). vm_compute in Hin. apply elem_of_nil in Hin as [].
Qed.

Lemma handleNotification_blocks_premature_witness :
  Date.make 2025 10 23 7 30 - w_now earlyWorld = 5 * Date.msPerMinute
  ∧ NotificationService.handleNotification earlyNotification earlyWorld
    = (Ok showNothing, earlyWorld)
  ∧ AlarmContext.find "alarm-1" (w_alarms earlyWorld) = Some armedAlarm
  ∧ isEnabled armedAlarm = true
  ∧ notificationId armedAlarm = Some "n0".
Proof.
  split; [reflexivity|]. split; [|repeat split; reflexivity].
  apply (handleNotification_blocks_premature earlyNotification earlyWorld
           (Date.make 2025 10 23 7 30)).
  - right. split; [left|]; reflexivity.
  - vm_compute. reflexivity.
Defined.

(** ** The at-rest relation across the operations *)

(** C3, as the code has it: from a state in which every alarm holds an
    identifier exactly when it is enabled, the state after a completed
    [addAlarm], after a completed [toggleAlarm], after a completed
    [updateAlarm] whose update carries one of the keys [time], [repeats],
    [isEnabled], [soundUri] or does not carry the key [notificationId],
    after the dismiss handler, and after the snooze handler run for an
    alarm that is enabled, is again such a state.  An [updateAlarm] whose
    update carries [notificationId] and none of the four keys stores the
    identifier it is given and leaves [isEnabled] as it was. *)
Theorem at_rest_preserved (w : World) :
  all_at_rest (w_alarms w) →
  (∀ input w',
     AlarmContext.addAlarm input w = (Ok tt, w') → all_at_rest (w_alarms w'))
  ∧ (∀ wanted w',
       AlarmContext.toggleAlarm wanted w = (Ok tt, w') →
       all_at_rest (w_alarms w'))
  ∧ (∀ wanted updates w',
       AlarmContext.updateAlarm wanted updates w = (Ok tt, w') →
       carries_schedule_key updates ∨ u_notificationId updates = None →
       all_at_rest (w_alarms w'))
  ∧ (∀ alarmId r w',
       App.onDismiss alarmId w = (r, w') →
       r = Ok tt ∧ all_at_rest (w_alarms w'))
  ∧ (∀ alarmId r w',
       App.onSnooze alarmId w = (r, w') →
       (∀ alarm, AlarmContext.find alarmId (w_alarms w) = Some alarm →
                 isEnabled alarm = true) →
       r = Ok tt ∧ all_at_rest (w_alarms w'))
  ∧ (∀ wanted updates w' given,
       AlarmContext.updateAlarm wanted updates w = (Ok tt, w') →
       ¬ carries_schedule_key updates →
       u_notificationId updates = Some given →
       ∃ existing updated,
         AlarmContext.find wanted (w_alarms w) = Some existing
         ∧ AlarmContext.find wanted (w_alarms w') = Some updated
         ∧ notificationId updated = given
         ∧ isEnabled updated = isEnabled existing).
Proof.
  intros Hall. split; [|split; [|split; [|split; [|split]]]].
  - intros input w' Hrun.
    destruct (addAlarm_Ok _ _ _ Hrun) as (a & -> & _ & _ & _ & Ha).
    apply all_at_rest_snoc; assumption.
  - intros wanted w' Hrun.
    destruct (toggleAlarm_Ok _ _ _ Hrun) as (alarm & _ & Hupd).
    eapply updateAlarm_at_rest; [exact Hupd | | exact Hall].
    left. right. right. left. eexists. reflexivity.
  - intros wanted updates w' Hrun Hshape.
    eapply updateAlarm_at_rest; eassumption.
  - intros alarmId r w' Hrun. eapply onDismiss_at_rest; eassumption.
  - intros alarmId r w' Hrun Hen. eapply onSnooze_at_rest; eassumption.
  - intros wanted updates w' given Hrun Hnokey Hgiven.
    destruct (updateAlarm_Ok _ _ _ _ Hrun)
      as (existing & index & updated & w1 & Hfind & Hout & _ & ->).
    rewrite <- needsReschedule_keys in Hnokey.
    apply not_true_is_false in Hnokey.
    unfold reschedule_outcome in Hout. rewrite Hnokey in Hout.
    destruct Hout as [-> ->].
    destruct (find_Some _ _ _ Hfind) as [Hid _].
    exists existing, (AlarmContext.merge existing updates (w_now w)).
    split; [exact Hfind|]. split.
    { simpl. apply (find_replace _ _ _ existing Hfind). exact Hid. }
    simpl. rewrite Hgiven. simpl. split; [reflexivity|].
    destruct (u_isEnabled updates) as [v|] eqn:Ev; [|reflexivity].
    unfold AlarmContext.needsReschedule in Hnokey. rewrite Ev in Hnokey.
    rewrite (bool_decide_eq_true_2 (Some v ≠ None)) in Hnokey by discriminate.
    rewrite !orb_true_r in Hnokey. discriminate.
Qed.

Lemma at_rest_preserved_witness :
  all_at_rest (w_alarms (AlarmContext.toggleAlarm "alarm-1" (armedWorld [])).2)
  ∧ AlarmContext.toggleAlarm "alarm-1" (armedWorld [])
    = (Ok tt, (AlarmContext.toggleAlarm "alarm-1" (armedWorld [])).2).
Proof.
  assert (all_at_rest (w_alarms (armedWorld []))) as Hall.
  { intros a Hin. apply list_elem_of_singleton in Hin as ->.
    unfold at_rest. simpl. split; [reflexivity | eauto]. }
  split; [|vm_compute; reflexivity].
  apply (proj1 (proj2 (at_rest_preserved (armedWorld []) Hall)) "alarm-1").
  vm_compute. reflexivity.
Defined.

(** The snooze handler, run for a disabled alarm whose snooze is enabled,
    completes and leaves the alarm disabled with an identifier; so does an
    [updateAlarm] that carries only an identifier. *)
Lemma at_rest_counterexample :
  all_at_rest (w_alarms (disabledWorld [ExpoId "s1"]))
  ∧ (∃ w', App.onSnooze "alarm-1" (disabledWorld [ExpoId "s1"]) = (Ok tt, w')
           ∧ ¬ all_at_rest (w_alarms w'))
  ∧ (∃ w', AlarmContext.updateAlarm "alarm-1" (upd_notificationId (Some "x"))
             (disabledWorld []) = (Ok tt, w')
           ∧ ¬ all_at_rest (w_alarms w')).
Proof.
  assert (∀ a, isEnabled a = false → notificationId a = Some "s1" ∨
               notificationId a = Some "x" → ¬ all_at_rest [a]) as Hbroken.
  { intros a Hen Hnid Hall. specialize (Hall a ltac:(left)).
    unfold at_rest in Hall. rewrite Hen in Hall.
    assert (is_Some (notificationId a)) as Hs by (destruct Hnid as [-> | ->]; eauto).
    apply Hall in Hs. discriminate. }
  split; [|split].
  - intros a Hin. apply list_elem_of_singleton in Hin as ->.
    unfold at_rest. simpl. split; [intros [? [=]] | discriminate].
  - eexists. split; [vm_compute; reflexivity|].
    apply Hbroken; [reflexivity | left; reflexivity].
  - eexists. split; [vm_compute; reflexivity|].
    apply Hbroken; [reflexivity | right; reflexivity].
Qed.

(** * Further properties *)

(** ** Calendar arithmetic, continued *)

Lemma setHours_idem d hm :
  valid_hm hm →
  at_time_of_day hm (Date.setHours d (hours hm) (minutes hm)).
Proof.
  intros Hv. unfold at_time_of_day.
  rewrite (setHours_spec (Date.setHours d (hours hm) (minutes hm))).
  unfold Date.startOfDay at 1. rewrite day_setHours by exact Hv.
  rewrite setHours_spec. reflexivity.
Qed.

Lemma at_time_of_day_spec hm t :
  at_time_of_day hm t ↔ t = Date.startOfDay t + timeOfDayMs hm.
Proof. unfold at_time_of_day. rewrite setHours_spec. split; congruence. Qed.



Lemma getDay_is_weekday d : ∃ day, NUMBER_TO_WEEKDAY (Date.getDay d) = Some day.
Proof.
  pose proof (getDay_range d) as Hr.
  assert (Date.getDay d = 0 ∨ Date.getDay d = 1 ∨ Date.getDay d = 2
          ∨ Date.getDay d = 3 ∨ Date.getDay d = 4 ∨ Date.getDay d = 5
          ∨ Date.getDay d = 6) as Hc by lia.
  destruct Hc as [-> | [-> | [-> | [-> | [-> | [-> | ->]]]]]]; simpl; eauto.
Qed.

(** The closed form of [getNextWeekdayOccurrence]. *)
Lemma getNextWeekdayOccurrence_value day time now hm :
  parseTimeString time = Ok hm →
  getNextWeekdayOccurrence day time now
  = Ok (Date.startOfDay now
        + dayOffset (WEEKDAY_TO_NUMBER day) (Date.getDay now)
            (now <? Date.setHours now (hours hm) (minutes hm)) * Date.msPerDay
        + timeOfDayMs hm).
Proof.
  intros Hparse. unfold getNextWeekdayOccurrence, dayOffset. rewrite Hparse.
  destruct (WEEKDAY_TO_NUMBER day - Date.getDay now =? 0).
  - destruct (now <? _); rewrite !setHours_spec, ?startOfDay_addDays; f_equal; lia.
  - destruct (WEEKDAY_TO_NUMBER day - Date.getDay now <? 0);
      rewrite !setHours_spec, ?startOfDay_addDays; reflexivity.
Qed.

Lemma dayOffset_range target current due :
  0 <= target < 7 → 0 <= current < 7 →
  0 <= dayOffset target current due <= 7
  ∧ (dayOffset target current due = 0 → due = true)
  ∧ (dayOffset target current due = 7 → due = false).
Proof.
  intros Ht Hc. unfold dayOffset.
  destruct (Z.eqb_spec (target - current) 0);
    [destruct due; repeat split; (lia || auto)|].
  destruct (Z.ltb_spec (target - current) 0); repeat split; lia.
Qed.

Lemma getNextWeekdayOccurrence_bounds day time now hm :
  parseTimeString time = Ok hm →
  ∃ occurrence,
    getNextWeekdayOccurrence day time now = Ok occurrence
    ∧ now < occurrence
    ∧ occurrence <= now + 7 * Date.msPerDay
    ∧ Date.getDay occurrence = WEEKDAY_TO_NUMBER day
    ∧ at_time_of_day hm occurrence.
Proof.
  intros Hparse. pose proof (parseTimeString_Ok _ _ Hparse) as Hv.
  destruct (getNextWeekdayOccurrence_weekday day time now hm Hparse)
    as (occ & Hocc & Hday).
  exists occ. split; [exact Hocc|].
  pose proof Hocc as Hval.
  rewrite (getNextWeekdayOccurrence_value day time now hm Hparse) in Hval.
  injection Hval as Hval.
  pose proof (dayOffset_range (WEEKDAY_TO_NUMBER day) (Date.getDay now)
                (now <? Date.setHours now (hours hm) (minutes hm))
                (WEEKDAY_TO_NUMBER_range day) (getDay_range now))
    as (Hk & Hk0 & Hk7).
  pose proof (timeOfDayMs_bounds hm Hv) as Hoff.
  pose proof (startOfDay_bounds now) as Hnow.
  set (k := dayOffset _ _ _) in *.
  assert (now < occ ∧ occ <= now + 7 * Date.msPerDay) as [Hlo Hhi].
  { destruct (Z.eq_dec k 0) as [E0|N0]; [|destruct (Z.eq_dec k 7) as [E7|N7]].
    - specialize (Hk0 E0). apply Z.ltb_lt in Hk0. rewrite setHours_spec in Hk0.
      unfold Date.msPerDay in *. lia.
    - specialize (Hk7 E7). apply Z.ltb_ge in Hk7. rewrite setHours_spec in Hk7.
      unfold Date.msPerDay in *. lia.
    - unfold Date.msPerDay in *. nia. }
  repeat split; try assumption.
  apply at_time_of_day_spec. rewrite <- Hval. unfold Date.startOfDay at 2.
  replace (Date.startOfDay now + k * Date.msPerDay + timeOfDayMs hm)
    with ((now / Date.msPerDay + k) * Date.msPerDay + timeOfDayMs hm)
    by (unfold Date.startOfDay; lia).
  rewrite day_of_offset by exact Hoff. reflexivity.
Qed.

(** ** The next trigger, any repeat list *)

(** Whatever holds of every occurrence and of the start value holds of what
    the loop finds; the loop finds something unless it had nothing to look at. *)
Lemma earliestOccurrence_choice (P : Date.t → Prop) time now hm days acc :
  parseTimeString time = Ok hm →
  (∀ day occ, day ∈ days →
     getNextWeekdayOccurrence day time now = Ok occ → P occ) →
  (∀ t, acc = Some t → P t) →
  ∃ found,
    earliestOccurrence days time now acc = Ok found
    ∧ (∀ t, found = Some t → P t)
    ∧ (found = None → days = [] ∧ acc = None).
Proof.
  intros Hparse. revert acc.
  induction days as [|day rest IH]; intros acc Hocc Hacc; simpl.
  - eauto.
  - destruct (getNextWeekdayOccurrence_weekday day time now hm Hparse)
      as (occ & Hrun & _).
    rewrite Hrun.
    destruct (IH (if match acc with None => true | Some best => occ <? best end
                  then Some occ else acc)) as (found & Hloop & Hfound & Hnone).
    + intros d o Hd. apply Hocc. right. exact Hd.
    + intros t. destruct acc as [best|]; [destruct (occ <? best)|];
        intros [= <-]; auto; apply (Hocc day); auto; left.
    + exists found. split; [exact Hloop|]. split; [exact Hfound|].
      intros Hn. destruct (Hnone Hn) as [_ Hacc'].
      destruct acc as [best|]; [destruct (occ <? best)|]; discriminate.
Qed.


(** For a time string the parser accepts, [getNextAlarmTime] gives an
    instant strictly after [now], at most seven days after it, at the
    alarm's time of day. *)
Lemma getNextAlarmTime_future alarm now hm :
  parseTimeString (time alarm) = Ok hm →
  ∃ next,
    getNextAlarmTime alarm now = Ok next
    ∧ now < next
    ∧ next <= now + 7 * Date.msPerDay
    ∧ at_time_of_day hm next.
Proof.
  intros Hparse. pose proof (parseTimeString_Ok _ _ Hparse) as Hv.
  pose proof (timeOfDayMs_bounds hm Hv) as Hoff.
  pose proof (startOfDay_bounds now) as Hday.
  unfold getNextAlarmTime. rewrite Hparse.
  destruct (repeats alarm) as [|d0 ds] eqn:Edays.
  - destruct (Z.ltb_spec now (Date.setHours now (hours hm) (minutes hm))) as [Hlt|Hge].
    + eexists. split; [reflexivity|]. split; [exact Hlt|].
      split; [|apply setHours_idem, Hv].
      rewrite setHours_spec. unfold Date.msPerDay in *. lia.
    + eexists. split; [reflexivity|].
      rewrite setHours_spec in Hge.
      split; [|split].
      * rewrite setHours_spec. unfold Date.addDays, Date.msPerDay in *. lia.
      * rewrite setHours_spec. unfold Date.addDays, Date.msPerDay in *. lia.
      * replace (Date.addDays (Date.setHours now (hours hm) (minutes hm)) 1)
          with (Date.setHours (Date.addDays now 1) (hours hm) (minutes hm))
          by (rewrite !setHours_spec, startOfDay_addDays;
              unfold Date.addDays; lia).
        apply setHours_idem, Hv.
  - destruct (includes (d0 :: ds) (NUMBER_TO_WEEKDAY (Date.getDay now))
              && (now <? Date.setHours now (hours hm) (minutes hm))) eqn:Etoday.
    + apply andb_prop in Etoday as [_ Hlt]. apply Z.ltb_lt in Hlt.
      eexists. split; [reflexivity|]. split; [exact Hlt|].
      split; [|apply setHours_idem, Hv].
      rewrite setHours_spec. unfold Date.msPerDay in *. lia.
    + destruct (earliestOccurrence_choice
                  (fun t => now < t ∧ t <= now + 7 * Date.msPerDay
                            ∧ at_time_of_day hm t)
                  (time alarm) now hm (d0 :: ds) None Hparse)
        as (found & Hrun & Hfound & Hnone).
      * intros day occ _ Hocc.
        destruct (getNextWeekdayOccurrence_bounds day (time alarm) now hm Hparse)
          as (occ' & Hocc' & Hlo & Hhi & _ & Hat).
        rewrite Hocc in Hocc'. injection Hocc' as <-. auto.
      * discriminate.
      * rewrite Hrun. destruct found as [next|].
        -- exists next. split; [reflexivity|]. apply Hfound. reflexivity.
        -- destruct (Hnone eq_refl) as [? _]. discriminate.
Qed.




Lemma getNextAlarmTime_ok_iff alarm now :
  is_ok (getNextAlarmTime alarm now) = isValidTimeString (time alarm).
Proof.
  unfold isValidTimeString.
  destruct (parseTimeString (time alarm)) as [hm|e] eqn:Hparse.
  - destruct (getNextAlarmTime_future alarm now hm Hparse) as (next & -> & _).
    reflexivity.
  - unfold getNextAlarmTime. rewrite Hparse. reflexivity.
Qed.








(** X4: [getNextAlarmTime] succeeds exactly on the time strings that
    [isValidTimeString] accepts, whatever the repeat list and the clock;
    when it throws, the error is the invalid-format error of the parser,
    never 'Failed to calculate next alarm time'. *)
Theorem getNextAlarmTime_throws_only_invalid_format (alarm : Alarm) (now : Date.t) :
  is_ok (getNextAlarmTime alarm now) = isValidTimeString (time alarm)
  ∧ ∀ e : string,
      getNextAlarmTime alarm now = Throw e → e = invalid_time_format.
Proof.
  split; [apply getNextAlarmTime_ok_iff|].
  intros e Hrun.
  destruct (parseTimeString (time alarm)) as [hm|e'] eqn:Hparse.
  - destruct (getNextAlarmTime_future alarm now hm Hparse) as (next & Hok & _).
    congruence.
  - unfold getNextAlarmTime in Hrun. rewrite Hparse in Hrun.
    injection Hrun as <-. unfold parseTimeString in Hparse.
    destruct (time_in_range _ _); [discriminate|]. congruence.
Qed.

(** ** Printing and reading times *)







(** The two outcomes of [formatAlarmTime]. *)
Lemma formatAlarmTime_run (time : string) (use24Hour : bool) (w : World) :
  match parseTimeString time with
  | Ok hm =>
      formatAlarmTime time use24Hour w
      = (Ok (if use24Hour then formatHM (hours hm) (minutes hm)
             else format12Hour (hours hm) (minutes hm)), w)
      ∧ parseTimeString (formatHM (hours hm) (minutes hm)) = Ok hm
  | Throw _ =>
      formatAlarmTime time use24Hour w
      = (Ok time, log_world "[timeCalculations] Error formatting time:" None w)
  end.
Proof.
  unfold formatAlarmTime, try_catch, bind, lift.
  destruct (parseTimeString time) as [hm|e] eqn:Hparse.
  - split; [destruct use24Hour; reflexivity|].
    rewrite parseTimeString_formatHM by apply (parseTimeString_Ok _ _ Hparse).
    destruct hm. reflexivity.
  - reflexivity.
Qed.

(** X6: [formatAlarmTime] never throws.  On a time string the parser
    accepts it leaves the world alone and gives, in 24-hour mode, the
    HH:mm text, which the parser reads back as the same time; on any other
    string it gives the string back and writes one line on the error
    console. *)
Theorem formatAlarmTime_total (time : string) (use24Hour : bool) (w : World) :
  match parseTimeString time with
  | Ok hm =>
      formatAlarmTime time use24Hour w
      = (Ok (if use24Hour then formatHM (hours hm) (minutes hm)
             else format12Hour (hours hm) (minutes hm)), w)
      ∧ parseTimeString (formatHM (hours hm) (minutes hm)) = Ok hm
  | Throw _ =>
      formatAlarmTime time use24Hour w
      = (Ok time, log_world "[timeCalculations] Error formatting time:" None w)
  end.
Proof. exact (formatAlarmTime_run time use24Hour w). Qed.

Lemma distinct_strings_NoDup l : distinct_strings l = true → NoDup l.
Proof.
  induction l as [|x rest IH]; simpl; [constructor|].
  intros H. apply andb_prop in H as [Hx Hrest]. constructor; [|auto].
  intros Hin. apply negb_true_iff in Hx.
  assert (existsb (String.eqb x) rest = true) as Hex; [|congruence].
  apply existsb_exists. exists x. split; [|apply String.eqb_refl].
  apply list_elem_of_In. exact Hin.
Qed.

Lemma NoDup_fmap_inj {A B} (f : A → B) (l : list A) x y :
  NoDup (f <$> l) → x ∈ l → y ∈ l → f x = f y → x = y.
Proof.
  induction l as [|a rest IH]; intros Hnd Hx Hy Heq.
  - apply elem_of_nil in Hx as [].
  - rewrite fmap_cons in Hnd. apply NoDup_cons in Hnd as [Hnotin Hnd].
    apply elem_of_cons in Hx as [-> | Hx]; apply elem_of_cons in Hy as [-> | Hy].
    + reflexivity.
    + exfalso. apply Hnotin. rewrite Heq. apply list_elem_of_fmap. eauto.
    + exfalso. apply Hnotin. rewrite <- Heq. apply list_elem_of_fmap. eauto.
    + auto.
Qed.

Lemma allTimesOfDay_complete h m :
  0 <= h <= 23 → 0 <= m <= 59 → (h, m) ∈ allTimesOfDay.
Proof.
  intros Hh Hm. apply list_elem_of_In. unfold allTimesOfDay.
  apply in_flat_map. exists (Z.to_nat h). split; [apply in_seq; lia|].
  apply in_map_iff. exists (Z.to_nat m). split; [|apply in_seq; lia].
  rewrite !Z2Nat.id by lia. reflexivity.
Qed.

(** X7: the 12-hour text of [formatAlarmTime] tells the times of the day
    apart: two different times never have the same text. *)
Theorem format12Hour_injective (h m h' m' : Z) :
  0 <= h <= 23 → 0 <= m <= 59 → 0 <= h' <= 23 → 0 <= m' <= 59 →
  (h, m) ≠ (h', m') →
  format12Hour h m ≠ format12Hour h' m'.
Proof.
  intros Hh Hm Hh' Hm' Hne Heq. apply Hne.
  assert (NoDup ((fun p : Z * Z => format12Hour p.1 p.2) <$> allTimesOfDay)) as Hnd.
  { apply distinct_strings_NoDup. vm_compute. reflexivity. }
  exact (NoDup_fmap_inj _ _ (h, m) (h', m') Hnd
           (allTimesOfDay_complete h m Hh Hm)
           (allTimesOfDay_complete h' m' Hh' Hm') Heq).
Qed.

Lemma format12Hour_injective_witness :
  format12Hour 0 5 = "12:05 AM" ∧ format12Hour 12 5 = "12:05 PM"
  ∧ format12Hour 0 5 ≠ format12Hour 12 5.
Proof.
  split; [reflexivity|]. split; [reflexivity|].
  apply (format12Hour_injective 0 5 12 5); (lia || discriminate).
Defined.

(** ** The utilities that read the clock *)







(** ** The same calculations on time values, where the zone is steady *)

Lemma ltb_shift a b c : (a <? b - c) = (a + c <? b).
Proof.
  destruct (Z.ltb_spec a (b - c)), (Z.ltb_spec (a + c) b); (reflexivity || lia).
Qed.

Lemma steady_getDay tz offset from to d :
  steady tz offset from to → from <= d <= to →
  Zoned.getDay tz d = Date.getDay (d + offset).
Proof.
  intros Hsteady Hd. unfold Zoned.getDay.
  rewrite (steady_LocalTime _ _ _ _ _ Hsteady Hd). reflexivity.
Qed.

Lemma steady_setHours tz offset from to d hm :
  steady tz offset from to → valid_hm hm →
  from + Date.msPerDay <= d <= to - Date.msPerDay →
  Zoned.setHours tz d (hours hm) (minutes hm)
  = Date.setHours (d + offset) (hours hm) (minutes hm) - offset.
Proof.
  intros Hsteady Hv Hd. unfold Zoned.setHours.
  pose proof (timeOfDayMs_bounds hm Hv) as Hoff.
  pose proof (startOfDay_bounds (d + offset)) as Hday.
  rewrite (steady_LocalTime _ _ _ _ d Hsteady)
    by (unfold Date.msPerDay in *; lia).
  apply (steady_UTC _ _ _ _ _ Hsteady).
  rewrite setHours_spec. unfold Date.msPerDay in *. lia.
Qed.

Lemma steady_addDays tz offset from to d k :
  steady tz offset from to → from <= d <= to →
  from <= d + k * Date.msPerDay <= to →
  Zoned.addDays tz d k = d + k * Date.msPerDay.
Proof.
  intros Hsteady Hd Hk. unfold Zoned.addDays.
  rewrite (steady_LocalTime _ _ _ _ d Hsteady Hd). unfold Date.addDays.
  rewrite (steady_UTC _ _ _ _ _ Hsteady) by lia. lia.
Qed.

(** The occurrence [k] days on, for [k] from 0 to 7. *)
Lemma steady_occurrence tz offset now hm k :
  steady tz offset (now - Date.msPerDay) (now + 8 * Date.msPerDay) →
  valid_hm hm → 0 <= k <= 7 →
  Zoned.setHours tz (Zoned.addDays tz now k) (hours hm) (minutes hm)
  = Date.setHours (Date.addDays (now + offset) k) (hours hm) (minutes hm)
    - offset.
Proof.
  intros Hsteady Hv Hk.
  rewrite (steady_addDays _ _ _ _ now k Hsteady)
    by (unfold Date.msPerDay; lia).
  rewrite (steady_setHours _ _ _ _ _ hm Hsteady Hv)
    by (unfold Date.msPerDay; lia).
  unfold Date.addDays. do 2 f_equal. lia.
Qed.

Lemma steady_today tz offset now hm :
  steady tz offset (now - Date.msPerDay) (now + 8 * Date.msPerDay) →
  valid_hm hm →
  Zoned.setHours tz now (hours hm) (minutes hm)
  = Date.setHours (now + offset) (hours hm) (minutes hm) - offset.
Proof.
  intros Hsteady Hv.
  apply (steady_setHours _ _ _ _ _ hm Hsteady Hv). unfold Date.msPerDay. lia.
Qed.

Lemma steady_getNextWeekdayOccurrence tz offset day time now :
  steady tz offset (now - Date.msPerDay) (now + 8 * Date.msPerDay) →
  Zoned.getNextWeekdayOccurrence tz day time now
  = as_time_value offset (getNextWeekdayOccurrence day time (now + offset)).
Proof.
  intros Hsteady.
  unfold Zoned.getNextWeekdayOccurrence, getNextWeekdayOccurrence.
  destruct (parseTimeString time) as [hm|e] eqn:Hparse; [|reflexivity].
  pose proof (parseTimeString_Ok _ _ Hparse) as Hv.
  pose proof (WEEKDAY_TO_NUMBER_range day) as Ht.
  pose proof (getDay_range (now + offset)) as Hc.
  rewrite (steady_getDay _ _ _ _ now Hsteady) by (unfold Date.msPerDay; lia).
  rewrite (steady_today _ _ _ _ Hsteady Hv), ltb_shift.
  cbv zeta.
  destruct (Z.eqb_spec (WEEKDAY_TO_NUMBER day - Date.getDay (now + offset)) 0)
    as [H0|H0].
  - destruct (now + offset <? _); [reflexivity|].
    rewrite (steady_occurrence _ _ _ _ 7 Hsteady Hv) by lia. reflexivity.
  - destruct (Z.ltb_spec (WEEKDAY_TO_NUMBER day - Date.getDay (now + offset)) 0).
    + rewrite (steady_occurrence _ _ _ _ _ Hsteady Hv) by lia. reflexivity.
    + rewrite (steady_occurrence _ _ _ _ _ Hsteady Hv) by lia. reflexivity.
Qed.

Lemma steady_earliestOccurrence tz offset days time now :
  steady tz offset (now - Date.msPerDay) (now + 8 * Date.msPerDay) →
  ∀ acc : option Date.t,
    Zoned.earliestOccurrence tz days time now ((λ t, t - offset) <$> acc)
    = match earliestOccurrence days time (now + offset) acc with
      | Ok found => Ok ((λ t, t - offset) <$> found)
      | Throw e => Throw e
      end.
Proof.
  intros Hsteady. induction days as [|day rest IH]; intros acc; [reflexivity|].
  simpl. rewrite (steady_getNextWeekdayOccurrence _ _ _ _ _ Hsteady).
  destruct (getNextWeekdayOccurrence day time (now + offset)) as [occ|e];
    [|reflexivity].
  simpl. destruct acc as [best|]; simpl.
  - replace (occ - offset <? best - offset) with (occ <? best)
      by (destruct (Z.ltb_spec occ best),
            (Z.ltb_spec (occ - offset) (best - offset)); (reflexivity || lia)).
    destruct (occ <? best).
    + exact (IH (Some occ)).
    + exact (IH (Some best)).
  - exact (IH (Some occ)).
Qed.

(** Where the offset of the zone does not change from a day before [now]
    to eight days after it, the next trigger on time values is the next
    trigger on local readings, read back as a time value. *)
Lemma steady_getNextAlarmTime tz offset alarm now :
  steady tz offset (now - Date.msPerDay) (now + 8 * Date.msPerDay) →
  Zoned.getNextAlarmTime tz alarm now
  = as_time_value offset (getNextAlarmTime alarm (now + offset)).
Proof.
  intros Hsteady. unfold Zoned.getNextAlarmTime, getNextAlarmTime.
  destruct (parseTimeString (time alarm)) as [hm|e] eqn:Hparse; [|reflexivity].
  pose proof (parseTimeString_Ok _ _ Hparse) as Hv.
  pose proof (timeOfDayMs_bounds hm Hv) as Hoff.
  pose proof (startOfDay_bounds (now + offset)) as Hday.
  rewrite (steady_getDay _ _ _ _ now Hsteady) by (unfold Date.msPerDay; lia).
  rewrite (steady_today _ _ _ _ Hsteady Hv), ltb_shift.
  cbv zeta.
  destruct (repeats alarm) as [|d0 ds].
  - destruct (now + offset <? _); [reflexivity|]. simpl. f_equal.
    rewrite (steady_addDays _ _ _ _ _ 1 Hsteady);
      rewrite ?setHours_spec; unfold Date.addDays, Date.msPerDay in *; lia.
  - destruct (includes (d0 :: ds) _ && _); [reflexivity|].
    pose proof (steady_earliestOccurrence _ _ (d0 :: ds) (time alarm) _
                  Hsteady None) as Hloop.
    simpl fmap in Hloop. rewrite Hloop.
    destruct (earliestOccurrence (d0 :: ds) (time alarm) (now + offset) None)
      as [[found|]|e]; reflexivity.
Qed.

(** X10: in any zone, when the next trigger can be computed,
    [getTimeRemaining] leaves the world alone and counts the time elapsed
    from now to the next trigger: the total is the whole number of minutes
    between the two time values (zero where the trigger is not after now),
    hours and minutes split it, with the minutes below 60.  Where the
    offset of the zone does not change from a day before now to eight days
    after it, the total is at most the 10080 minutes of a week. *)
Theorem getTimeRemaining_splits_minutes
    (tz : Zoned.Zone) (alarm : Alarm) (w : World) (next : Z) :
  Zoned.getNextAlarmTime tz alarm (w_now w) = Ok next →
  ∃ r : TimeRemaining,
    Zoned.getTimeRemaining tz alarm w = (Ok r, w)
    ∧ tr_total r
      = (if next - w_now w <=? 0 then 0 else (next - w_now w) / 60000)
    ∧ 0 <= tr_total r
    ∧ tr_hours r * 60 + tr_minutes r = tr_total r
    ∧ 0 <= tr_minutes r < 60
    ∧ ∀ offset,
        steady tz offset (w_now w - Date.msPerDay) (w_now w + 8 * Date.msPerDay) →
        tr_total r <= 10080.
Proof.
  intros Hnext.
  unfold Zoned.getTimeRemaining, try_catch, bind, gets, lift. rewrite Hnext.
  destruct (Z.leb_spec (next - w_now w) 0) as [Hle|Hgt].
  - eexists. split; [reflexivity|]. simpl. repeat split; lia.
  - eexists. split; [reflexivity|]. simpl.
    change (1000 * 60) with 60000.
    set (total := (next - w_now w) / 60000).
    assert (0 <= total) as Htotal by (apply Z.div_pos; lia).
    split; [reflexivity|]. split; [exact Htotal|].
    rewrite Z.rem_mod_nonneg by lia.
    pose proof (Z.div_mod total 60 ltac:(lia)).
    pose proof (Z.mod_pos_bound total 60 ltac:(lia)).
    split; [lia|]. split; [lia|].
    intros offset Hsteady.
    rewrite (steady_getNextAlarmTime _ _ _ _ Hsteady) in Hnext.
    destruct (parseTimeString (time alarm)) as [hm|e] eqn:Hparse.
    + destruct (getNextAlarmTime_future alarm (w_now w + offset) hm Hparse)
        as (local & Hlocal & _ & Hhi & _).
      rewrite Hlocal in Hnext. injection Hnext as <-.
      unfold total. apply Z.div_le_upper_bound; unfold Date.msPerDay in Hhi; lia.
    + unfold getNextAlarmTime in Hnext. rewrite Hparse in Hnext. discriminate.
Qed.

(** In New York on 2025-11-01 at 08:00, the alarm of 07:30 is 24 hours
    and 30 minutes away. *)
Lemma getTimeRemaining_splits_minutes_witness :
  ∃ r : TimeRemaining,
    Zoned.getTimeRemaining Zoned.newYork2025 (exampleAlarm "07:30" [])
      (exampleWorld beforeFallBack [] [] [])
    = (Ok r, exampleWorld beforeFallBack [] [] [])
    ∧ tr_hours r = 24 ∧ tr_minutes r = 30 ∧ tr_total r = 1470.
Proof.
  destruct (getTimeRemaining_splits_minutes Zoned.newYork2025
              (exampleAlarm "07:30" []) (exampleWorld beforeFallBack [] [] [])
              (Zoned.UTC Zoned.newYork2025 (Date.make 2025 11 2 7 30)))
    as (r & Hrun & _); [vm_compute; reflexivity|].
  exists r. split; [exact Hrun|].
  vm_compute in Hrun. injection Hrun as <-. repeat split.
Defined.

(** X11: on a time string the parser rejects, the utilities do not throw:
    [isAlarmDueToday] answers false, [getTimeRemaining] answers zero hours,
    minutes and total, and [getAlarmDescription] gives the string back;
    each writes its line on the error console, [getAlarmDescription] also
    the line of [formatAlarmTime]. *)
Theorem utilities_on_invalid_time (alarm : Alarm) (w : World) :
  isValidTimeString (time alarm) = false →
  isAlarmDueToday (time alarm) w
    = (Ok false,
       log_world "[timeCalculations] Error checking if alarm is due today:" None w)
  ∧ getTimeRemaining alarm w
    = (Ok noTimeRemaining,
       log_world "[timeCalculations] Error calculating time remaining:" None w)
  ∧ getAlarmDescription alarm w
    = (Ok (time alarm),
       log_world "[timeCalculations] Error formatting time:" None
         (log_world "[timeCalculations] Error getting alarm description:" None w)).
Proof.
  intros Hbad. unfold isValidTimeString in Hbad.
  destruct (parseTimeString (time alarm)) as [hm|e] eqn:Hparse; [discriminate|].
  assert (getNextAlarmTime alarm (w_now w) = Throw e) as Hnext
    by (unfold getNextAlarmTime; rewrite Hparse; reflexivity).
  split; [|split].
  - unfold isAlarmDueToday, try_catch, bind, lift. rewrite Hparse. reflexivity.
  - unfold getTimeRemaining, try_catch, bind, gets, lift. rewrite Hnext. reflexivity.
  - unfold getAlarmDescription, try_catch at 1. unfold bind at 1, gets.
    unfold bind at 1, lift. rewrite Hnext.
    unfold bind, console_error, modify.
    pose proof (formatAlarmTime_run (time alarm) false) as Hfmt.
    rewrite Hparse in Hfmt. rewrite Hfmt. reflexivity.
Qed.

Lemma utilities_on_invalid_time_witness :
  (isAlarmDueToday "25:00" morningWorld).1 = Ok false
  ∧ (getTimeRemaining badTimeAlarm morningWorld).1 = Ok noTimeRemaining
  ∧ (getAlarmDescription badTimeAlarm morningWorld).1 = Ok "25:00".
Proof.
  destruct (utilities_on_invalid_time badTimeAlarm morningWorld eq_refl)
    as (Hdue & Hrem & Hdesc).
  simpl in Hdue. rewrite Hdue, Hrem, Hdesc. repeat split; reflexivity.
Defined.

(** ** The scheduler *)


(** X13: [scheduleSnooze] does not look at the alarm's time or repeat
    days.  When now plus the duration in minutes is within the range of
    [Date] and expo-notifications accepts, it adds one request for the
    alarm, marked as a snooze, whose trigger is that instant, also for an
    alarm whose time string is invalid.  Otherwise it throws 'Failed to
    schedule snooze' and the pending requests are unchanged: after a call
    that expo-notifications rejected when the instant is in range, and
    with no call to expo-notifications at all when it is not. *)
Theorem scheduleSnooze_at_now_plus_duration
    (alarm : Alarm) (durationMinutes : Z) (w : World) :
  match SchedulerService.scheduleSnooze alarm durationMinutes w with
  | (Ok nid, w') =>
      ∃ reg : Registration,
        w_scheduled w' = (w_scheduled w ++ [reg])%list
        ∧ expo_reply w = ExpoId nid
        ∧ reg_identifier reg = nid
        ∧ alarmId (reg_data reg) = id alarm
        ∧ isSnoozed (reg_data reg) = Some true
        ∧ reg_triggerDate reg = w_now w + durationMinutes * 60000
        ∧ Date.isValid (reg_triggerDate reg) = true
  | (Throw e, w') =>
      e = "Failed to schedule snooze"
      ∧ w_scheduled w' = w_scheduled w
      ∧ if Date.isValid (w_now w + durationMinutes * 60000) then
          expo_reply w = ExpoReject
          ∧ w_calls w'
            = (w_calls w
               ++ [CallSchedule (id alarm) (w_now w + durationMinutes * 60000)
                     ExpoReject])%list
        else w_calls w' = w_calls w
  end.
Proof.
  rewrite scheduleSnooze_run. cbv zeta.
  replace (durationMinutes * 60 * 1000) with (durationMinutes * 60000) by lia.
  destruct (Date.isValid (w_now w + durationMinutes * 60000)) eqn:Evalid.
  - destruct (expo_reply w) as [nid|] eqn:Er.
    + exists (snooze_registration alarm nid (w_now w + durationMinutes * 60000)).
      simpl. repeat split; try reflexivity. exact Evalid.
    + split; [reflexivity|]. split; [reflexivity|]. split; [reflexivity|].
      unfold log_world, call_world.
      cbn [w_calls set_console set_calls set_expo]. rewrite Er. reflexivity.
  - simpl. auto.
Qed.

Lemma filter_filter_same {A} (P : A → Prop) `{∀ x, Decision (P x)} (l : list A) :
  filter P (filter P l) = filter P l.
Proof.
  induction l as [|x rest IH]; [reflexivity|].
  destruct (decide (P x)) as [Hx|Hx].
  - rewrite (filter_cons_True P x rest Hx), (filter_cons_True P x _ Hx), IH.
    reflexivity.
  - rewrite (filter_cons_False P x rest Hx). exact IH.
Qed.

(** X14: [cancelAlarm] never throws.  With the empty identifier it does
    nothing at all.  With another identifier it leaves pending exactly the
    requests that were pending under other identifiers, and a second
    cancel of the same identifier changes nothing more. *)
Theorem cancelAlarm_idempotent (identifier : string) (w : World) :
  ∃ w1 w2 : World,
    SchedulerService.cancelAlarm identifier w = (Ok tt, w1)
    ∧ SchedulerService.cancelAlarm identifier w1 = (Ok tt, w2)
    ∧ w_scheduled w2 = w_scheduled w1
    ∧ (identifier = "" → w1 = w)
    ∧ (identifier ≠ "" →
       ∀ r, r ∈ w_scheduled w1 ↔ r ∈ w_scheduled w ∧ reg_identifier r ≠ identifier).
Proof.
  unfold SchedulerService.cancelAlarm, NotificationService.cancelNotification,
    Expo.cancelScheduledNotificationAsync, try_catch, bind, modify, ret.
  destruct (String.eqb_spec identifier "") as [-> | Hne].
  - exists w, w. simpl. do 4 (split; [reflexivity|]).
    intros H. destruct (H eq_refl).
  - eexists _, _. split; [reflexivity|]. split; [reflexivity|]. simpl.
    split; [apply filter_filter_same|]. split; [intros; contradiction|].
    intros _ r. rewrite list_elem_of_filter. tauto.
Qed.

Lemma trim_start_head s c rest :
  Js.trim_start s = String c rest → Js.is_white c = false.
Proof.
  induction s as [|a s' IH]; simpl; [discriminate|].
  destruct (Js.is_white a) eqn:Ea; [exact IH|].
  intros [= <- _]. exact Ea.
Qed.

Lemma trim_empty s : Js.trim s = "" → Js.trim_start s = "".
Proof.
  unfold Js.trim. destruct (Js.trim_start s) as [|c rest] eqn:Es; [reflexivity|].
  apply trim_start_head in Es. simpl. destruct (Js.trim_end rest); [|discriminate].
  rewrite Es. discriminate.
Qed.

Lemma blank_is_one_piece s : Js.trim_start s = "" → Js.split_colon s = [s].
Proof.
  induction s as [|c rest IH]; simpl; [reflexivity|].
  destruct (Js.is_white c) eqn:Ec; [|discriminate].
  intros Hrest. rewrite (IH Hrest).
  destruct (Ascii.eqb_spec c ":") as [-> | _]; [discriminate | reflexivity].
Qed.

(** A blank time string is not a valid time. *)
Lemma blank_time_invalid s : Js.trim s = "" → isValidTimeString s = false.
Proof.
  intros Hblank. apply trim_empty in Hblank.
  unfold isValidTimeString, parseTimeString.
  rewrite (blank_is_one_piece s Hblank). simpl.
  unfold Js.parseInt10. rewrite Hblank. reflexivity.
Qed.

(** X15: [validateAlarm] never throws and answers true exactly for an
    enabled alarm whose time string [isValidTimeString] accepts (the test
    for a blank time adds nothing to that).  It makes no call to the
    notifier, and when it answers true it changes nothing; an alarm it
    accepts is scheduled by [scheduleAlarm] whenever expo-notifications
    accepts the request. *)
Theorem validateAlarm_spec (alarm : Alarm) (w : World) :
  ∃ w' : World,
    SchedulerService.validateAlarm alarm w
    = (Ok (isEnabled alarm && isValidTimeString (time alarm)), w')
    ∧ w_calls w' = w_calls w
    ∧ w_scheduled w' = w_scheduled w
    ∧ (isEnabled alarm && isValidTimeString (time alarm) = true →
       w' = w
       ∧ ∀ nid, expo_reply w = ExpoId nid →
           ∃ w'', SchedulerService.scheduleAlarm alarm w = (Ok nid, w'')).
Proof.
  unfold SchedulerService.validateAlarm.
  destruct (isEnabled alarm); simpl.
  2:{ exists w. repeat split; try reflexivity; discriminate. }
  destruct (String.eqb_spec (time alarm) "") as [Hempty | _]; simpl.
  { exists w. rewrite Hempty. repeat split; try reflexivity; discriminate. }
  destruct (String.eqb_spec (Js.trim (time alarm)) "") as [Hblank | _]; simpl.
  { exists w. rewrite (blank_time_invalid _ Hblank).
    repeat split; try reflexivity; discriminate. }
  pose proof (getNextAlarmTime_ok_iff alarm (w_now w)) as Hiff.
  unfold try_catch at 1, bind at 1.
  unfold SchedulerService.calculateNextTrigger, try_catch, bind, gets, lift.
  destruct (getNextAlarmTime alarm (w_now w)) as [next|e] eqn:Hnext;
    simpl in Hiff; rewrite <- Hiff.
  - exists w. repeat split; try reflexivity.
    intros nid Her. rewrite scheduleAlarm_run, Hnext, Her. eauto.
  - eexists. split; [reflexivity|]. repeat split; discriminate.
Qed.

(** ** The store *)

Lemma findById_app wanted l1 l2 :
  StorageService.findById wanted (l1 ++ l2)
  = match StorageService.findById wanted l1 with
    | Some a => Some a
    | None => StorageService.findById wanted l2
    end.
Proof.
  induction l1 as [|a rest IH]; simpl; [reflexivity|].
  destruct (String.eqb (id a) wanted); [reflexivity | exact IH].
Qed.

Lemma findById_filter_ne wanted other l :
  other ≠ wanted →
  StorageService.findById other (filter (fun a => id a ≠ wanted) l)
  = StorageService.findById other l.
Proof.
  intros Hne. induction l as [|a rest IH]; [reflexivity|].
  destruct (decide (id a ≠ wanted)) as [Hkeep|Hdrop].
  - rewrite filter_cons_True by exact Hkeep. simpl. rewrite IH. reflexivity.
  - rewrite filter_cons_False by exact Hdrop. simpl.
    apply dec_stable in Hdrop.
    destruct (String.eqb_spec (id a) other) as [Heq|_]; [congruence | exact IH].
Qed.

Lemma findById_filter_eq wanted l :
  StorageService.findById wanted (filter (fun a => id a ≠ wanted) l) = None.
Proof.
  induction l as [|a rest IH]; [reflexivity|].
  destruct (decide (id a ≠ wanted)) as [Hkeep|Hdrop].
  - rewrite filter_cons_True by exact Hkeep. simpl.
    apply String.eqb_neq in Hkeep. rewrite Hkeep. exact IH.
  - rewrite filter_cons_False by exact Hdrop. exact IH.
Qed.

Lemma filter_absent wanted l :
  StorageService.findById wanted l = None →
  filter (fun a : Alarm => id a ≠ wanted) l = l.
Proof.
  induction l as [|a rest IH]; [reflexivity|]. simpl.
  destruct (String.eqb_spec (id a) wanted) as [_|Hne]; [discriminate|].
  intros Hrest. rewrite filter_cons_True by exact Hne. rewrite IH by exact Hrest.
  reflexivity.
Qed.

Lemma filter_present_shorter wanted l a :
  StorageService.findById wanted l = Some a →
  (length (filter (fun a : Alarm => id a ≠ wanted) l) < length l)%nat.
Proof.
  induction l as [|b rest IH]; simpl; [discriminate|].
  destruct (String.eqb_spec (id b) wanted) as [Heq|Hne].
  - intros _. rewrite filter_cons_False by (intros H; apply H; exact Heq).
    pose proof (length_filter (fun a : Alarm => id a ≠ wanted) rest). lia.
  - intros Hrest. rewrite filter_cons_True by exact Hne. simpl.
    specialize (IH Hrest). lia.
Qed.

Lemma getAlarmById_storage_run wanted w :
  StorageService.getAlarmById wanted w
  = (Ok (StorageService.findById wanted (stored_alarms w)), w).
Proof.
  unfold StorageService.getAlarmById, StorageService.getAlarms, stored_alarms,
    try_catch, bind, gets, ret.
  destruct (w_storage w); reflexivity.
Qed.

Lemma storage_addAlarm_run a w :
  StorageService.addAlarm a w
  = (Ok tt, set_storage (Some (stored_alarms w ++ [a])%list) w).
Proof.
  unfold StorageService.addAlarm, StorageService.getAlarms,
    StorageService.saveAlarms, stored_alarms, try_catch, bind, gets, ret, modify.
  destruct (w_storage w); reflexivity.
Qed.

Lemma storage_deleteAlarm_run wanted w :
  StorageService.deleteAlarm wanted w
  = (Ok tt,
     match StorageService.findById wanted (stored_alarms w) with
     | Some _ =>
         set_storage
           (Some (filter (fun a => id a ≠ wanted) (stored_alarms w))) w
     | None => w
     end).
Proof.
  unfold StorageService.deleteAlarm, try_catch, bind.
  assert (StorageService.getAlarms w = (Ok (stored_alarms w), w)) as ->.
  { unfold StorageService.getAlarms, stored_alarms, bind, gets, ret.
    destruct (w_storage w); reflexivity. }
  destruct (StorageService.findById wanted (stored_alarms w)) as [a|] eqn:Hfind.
  - pose proof (filter_present_shorter _ _ _ Hfind) as Hlt.
    assert ((length (filter (fun a : Alarm => id a ≠ wanted) (stored_alarms w))
             =? length (stored_alarms w))%nat = false) as Hb
      by (apply Nat.eqb_neq; lia).
    rewrite Hb. reflexivity.
  - rewrite (filter_absent _ _ Hfind), Nat.eqb_refl. reflexivity.
Qed.

(** X16: after [StorageService.addAlarm], [getAlarms] gives the stored
    list with the alarm added at the end; [getAlarmById] finds the alarm
    under its id, unless an older record has the same id, which is then
    the one found; the lookups under other ids are unchanged. *)
Theorem storage_add_then_get (a : Alarm) (w : World) :
  ∃ w1 : World,
    StorageService.addAlarm a w = (Ok tt, w1)
    ∧ StorageService.getAlarms w1 = (Ok (stored_alarms w ++ [a])%list, w1)
    ∧ StorageService.getAlarmById (id a) w1
      = (Ok (Some (default a (StorageService.findById (id a) (stored_alarms w)))),
         w1)
    ∧ ∀ other, other ≠ id a →
        StorageService.getAlarmById other w1
        = (Ok (StorageService.findById other (stored_alarms w)), w1).
Proof.
  eexists. split; [apply storage_addAlarm_run|].
  split; [reflexivity|].
  split.
  - rewrite getAlarmById_storage_run. unfold stored_alarms at 1. simpl.
    rewrite findById_app. simpl. rewrite String.eqb_refl.
    destruct (StorageService.findById (id a) (stored_alarms w)); reflexivity.
  - intros other Hne. rewrite getAlarmById_storage_run.
    unfold stored_alarms at 1. simpl. rewrite findById_app. simpl.
    assert ((id a =? other)%string = false) as -> by (apply String.eqb_neq; congruence).
    destruct (StorageService.findById other (stored_alarms w)); reflexivity.
Qed.

(** X17: [StorageService.deleteAlarm] never throws; afterwards
    [getAlarmById] finds nothing under the deleted id, even when several
    records had it, and finds under every other id what it found before.
    When no record has the id, nothing is written: the world is unchanged. *)
Theorem storage_delete_then_get (wanted : string) (w : World) :
  ∃ w1 : World,
    StorageService.deleteAlarm wanted w = (Ok tt, w1)
    ∧ StorageService.getAlarmById wanted w1 = (Ok None, w1)
    ∧ (∀ other, other ≠ wanted →
         StorageService.getAlarmById other w1
         = (Ok (StorageService.findById other (stored_alarms w)), w1))
    ∧ (StorageService.findById wanted (stored_alarms w) = None → w1 = w).
Proof.
  eexists. split; [apply storage_deleteAlarm_run|].
  destruct (StorageService.findById wanted (stored_alarms w)) as [a|] eqn:Hfind.
  - split; [|split].
    + rewrite getAlarmById_storage_run. unfold stored_alarms at 1. simpl.
      rewrite findById_filter_eq. reflexivity.
    + intros other Hne. rewrite getAlarmById_storage_run.
      unfold stored_alarms at 1. simpl.
      rewrite findById_filter_ne by exact Hne. reflexivity.
    + discriminate.
  - split; [|split].
    + rewrite getAlarmById_storage_run, Hfind. reflexivity.
    + intros other _. apply getAlarmById_storage_run.
    + reflexivity.
Qed.

Lemma findIndex_findById wanted l :
  match StorageService.findIndex wanted l with
  | Some index =>
      ∃ old, l !! index = Some old ∧ id old = wanted
             ∧ StorageService.findById wanted l = Some old
  | None => StorageService.findById wanted l = None
  end.
Proof.
  induction l as [|a rest IH]; simpl; [reflexivity|].
  destruct (String.eqb_spec (id a) wanted) as [Heq|Hne]; simpl.
  - exists a. auto.
  - destruct (StorageService.findIndex wanted rest) as [i|]; simpl; exact IH.
Qed.

Lemma findById_insert_first wanted l index new :
  StorageService.findIndex wanted l = Some index →
  id new = wanted →
  StorageService.findById wanted (<[index := new]> l) = Some new
  ∧ ∀ other, other ≠ wanted →
      StorageService.findById other (<[index := new]> l)
      = StorageService.findById other l.
Proof.
  intros Hidx Hnew. revert index Hidx.
  induction l as [|a rest IH]; intros index; simpl; [discriminate|].
  destruct (String.eqb_spec (id a) wanted) as [Heq|Hne].
  - intros [= <-]. simpl. rewrite Hnew, String.eqb_refl. split; [reflexivity|].
    intros other Hother.
    assert ((wanted =? other)%string = false) as -> by (apply String.eqb_neq; congruence).
    assert ((id a =? other)%string = false) as -> by (apply String.eqb_neq; congruence).
    reflexivity.
  - destruct (StorageService.findIndex wanted rest) as [i|] eqn:Hi; [|discriminate].
    intros [= <-]. simpl. destruct (IH i eq_refl) as [Hfound Hothers].
    apply String.eqb_neq in Hne. rewrite Hne. split; [exact Hfound|].
    intros other Hother. rewrite (Hothers other Hother). reflexivity.
Qed.

(** X18: [StorageService.updateAlarm] on an id that no stored record has
    throws 'Failed to update alarm in storage' and leaves the stored list
    as it was.  On an id that is stored it replaces the first record with
    that id by the given alarm, stamped with the current time:
    [getAlarmById] then finds it, the lookups under other ids and the
    number of records are unchanged. *)
Theorem storage_update_then_get (a : Alarm) (w : World) :
  match StorageService.findById (id a) (stored_alarms w) with
  | None =>
      ∃ w1, StorageService.updateAlarm a w
            = (Throw "Failed to update alarm in storage", w1)
            ∧ w_storage w1 = w_storage w
  | Some _ =>
      ∃ w1, StorageService.updateAlarm a w = (Ok tt, w1)
            ∧ StorageService.getAlarmById (id a) w1
              = (Ok (Some (StorageService.touch a (w_now w))), w1)
            ∧ (∀ other, other ≠ id a →
                 StorageService.getAlarmById other w1
                 = (Ok (StorageService.findById other (stored_alarms w)), w1))
            ∧ length (stored_alarms w1) = length (stored_alarms w)
  end.
Proof.
  rewrite storage_updateAlarm_run.
  pose proof (findIndex_findById (id a) (stored_alarms w)) as Hrel.
  destruct (StorageService.findIndex (id a) (stored_alarms w)) as [index|] eqn:Hidx.
  - destruct Hrel as (old & _ & _ & ->).
    destruct (findById_insert_first (id a) (stored_alarms w) index
                (StorageService.touch a (w_now w)) Hidx eq_refl)
      as [Hfound Hothers].
    eexists. split; [reflexivity|].
    set (w1 := set_storage _ w).
    assert (stored_alarms w1
            = <[index := StorageService.touch a (w_now w)]> (stored_alarms w))
      as Hstored by reflexivity.
    split; [|split].
    + rewrite getAlarmById_storage_run, Hstored, Hfound. reflexivity.
    + intros other Hother.
      rewrite getAlarmById_storage_run, Hstored, (Hothers other Hother).
      reflexivity.
    + rewrite Hstored. apply length_insert.
  - rewrite Hrel. eexists. split; reflexivity.
Qed.

(** ** The context: deleting *)

Lemma find_findById wanted l :
  AlarmContext.find wanted l = StorageService.findById wanted l.
Proof. induction l as [|a rest IH]; simpl; [|rewrite IH]; reflexivity. Qed.

Lemma deleteAlarm_run wanted w :
  AlarmContext.deleteAlarm wanted w
  = match AlarmContext.find wanted (w_alarms w) with
    | Some alarm =>
        let wc := cancel_world (notificationId alarm) (set_error None w) in
        (Ok tt,
         set_alarms (filter (fun a => id a ≠ wanted))
           (match StorageService.findById wanted (stored_alarms w) with
            | Some _ =>
                set_storage
                  (Some (filter (fun a => id a ≠ wanted) (stored_alarms w))) wc
            | None => wc
            end))
    | None =>
        (Throw "Alarm not found",
         set_error (Some "Failed to delete alarm")
           (log_world "[AlarmContext] Failed to delete alarm" None
              (set_error None w)))
    end.
Proof.
  unfold AlarmContext.deleteAlarm, try_catch at 1.
  unfold bind at 1, modify at 1. unfold bind at 1, gets. simpl.
  destruct (AlarmContext.find wanted (w_alarms w)) as [alarm|]; [|reflexivity].
  unfold bind at 1. rewrite cancelAlarm_run.
  unfold bind at 1. rewrite storage_deleteAlarm_run.
  assert (stored_alarms (cancel_world (notificationId alarm) (set_error None w))
          = stored_alarms w) as ->
    by (unfold stored_alarms; rewrite cancel_world_storage; reflexivity).
  reflexivity.
Qed.

(** X19: [AlarmContext.deleteAlarm] of an alarm of the list completes:
    the alarm is gone from the list and from the Store, the alarms with
    other ids stay, the only call to the notifier is the cancel of the
    identifier the alarm held, and, when the requests pending for the
    alarm were under that identifier, none is pending for it afterwards. *)
Theorem deleteAlarm_removes_and_cancels
    (wanted : string) (w : World) (alarm : Alarm) :
  AlarmContext.find wanted (w_alarms w) = Some alarm →
  ∃ w' : World,
    AlarmContext.deleteAlarm wanted w = (Ok tt, w')
    ∧ AlarmContext.find wanted (w_alarms w') = None
    ∧ StorageService.findById wanted (stored_alarms w') = None
    ∧ (∀ other, other ≠ wanted →
         AlarmContext.find other (w_alarms w') = AlarmContext.find other (w_alarms w))
    ∧ w_calls w' = (w_calls w ++ cancel_calls (notificationId alarm))%list
    ∧ (registered_under wanted (notificationId alarm) (w_scheduled w) →
       live_for wanted (w_scheduled w') = []).
Proof.
  intros Hfind. rewrite deleteAlarm_run, Hfind. simpl.
  eexists. split; [reflexivity|].
  set (wc := cancel_world (notificationId alarm) (set_error None w)).
  assert (w_alarms wc = w_alarms w) as Halarms
    by (unfold wc; rewrite cancel_world_alarms; reflexivity).
  assert (w_calls wc = (w_calls w ++ cancel_calls (notificationId alarm))%list)
    as Hcalls by (unfold wc; rewrite cancel_world_calls; reflexivity).
  assert (w_scheduled wc = after_cancel (notificationId alarm) (w_scheduled w))
    as Hsched by (unfold wc; rewrite cancel_world_scheduled; reflexivity).
  assert (stored_alarms wc = stored_alarms w) as Hstored
    by (unfold stored_alarms, wc; rewrite cancel_world_storage; reflexivity).
  destruct (StorageService.findById wanted (stored_alarms w)) as [s|] eqn:Hs; simpl;
    rewrite ?Halarms, ?Hcalls, ?Hsched.
  - rewrite !find_findById, findById_filter_eq.
    split; [reflexivity|]. split; [apply findById_filter_eq|].
    split; [intros other Hne; rewrite !find_findById; apply findById_filter_ne, Hne|].
    split; [reflexivity | apply live_for_after_cancel_nil].
  - rewrite !find_findById, findById_filter_eq.
    split; [reflexivity|].
    split; [change (StorageService.findById wanted (stored_alarms wc) = None);
            rewrite Hstored; exact Hs|].
    split; [intros other Hne; rewrite !find_findById; apply findById_filter_ne, Hne|].
    split; [reflexivity | apply live_for_after_cancel_nil].
Qed.

Lemma deleteAlarm_removes_and_cancels_witness :
  ∃ w' : World,
    AlarmContext.deleteAlarm "alarm-1" (armedWorld []) = (Ok tt, w')
    ∧ w_alarms w' = []
    ∧ stored_alarms w' = []
    ∧ w_calls w' = [CallCancel "n0"]
    ∧ w_scheduled w' = [].
Proof.
  destruct (deleteAlarm_removes_and_cancels "alarm-1" (armedWorld []) armedAlarm
              eq_refl) as (w' & Hrun & _).
  exists w'. split; [exact Hrun|].
  vm_compute in Hrun. injection Hrun as <-. repeat split; reflexivity.
Defined.

(** ** The context: unknown ids and failed edits *)

(** X20: [updateAlarm], [toggleAlarm] and [deleteAlarm] called with an id
    that no alarm of the list has throw 'Alarm not found', set the error
    state to their own message, and leave the alarms, the Store, the
    pending requests and the calls to the notifier as they were. *)
Theorem unknown_id_changes_nothing
    (wanted : string) (updates : AlarmUpdates) (w : World) :
  AlarmContext.find wanted (w_alarms w) = None →
  (∃ w', AlarmContext.updateAlarm wanted updates w = (Throw "Alarm not found", w')
         ∧ w_error w' = Some "Failed to update alarm" ∧ same_data w w')
  ∧ (∃ w', AlarmContext.toggleAlarm wanted w = (Throw "Alarm not found", w')
           ∧ w_error w' = Some "Failed to toggle alarm" ∧ same_data w w')
  ∧ (∃ w', AlarmContext.deleteAlarm wanted w = (Throw "Alarm not found", w')
           ∧ w_error w' = Some "Failed to delete alarm" ∧ same_data w w').
Proof.
  intros Hfind. split; [|split].
  - unfold AlarmContext.updateAlarm, try_catch, bind, modify, gets, throw,
      console_error. simpl. rewrite Hfind. simpl.
    eexists. split; [reflexivity|]. repeat split.
  - unfold AlarmContext.toggleAlarm, try_catch, bind, modify, gets, throw,
      console_error. simpl. rewrite Hfind. simpl.
    eexists. split; [reflexivity|]. repeat split.
  - rewrite deleteAlarm_run, Hfind.
    eexists. split; [reflexivity|]. repeat split.
Qed.

Lemma unknown_id_changes_nothing_witness :
  (AlarmContext.updateAlarm "nobody" (upd_time "08:00") (armedWorld [ExpoId "n1"])).1
    = Throw "Alarm not found"
  ∧ (AlarmContext.toggleAlarm "nobody" (armedWorld [ExpoId "n1"])).1
    = Throw "Alarm not found"
  ∧ (AlarmContext.deleteAlarm "nobody" (armedWorld [ExpoId "n1"])).1
    = Throw "Alarm not found".
Proof.
  destruct (unknown_id_changes_nothing "nobody" (upd_time "08:00")
              (armedWorld [ExpoId "n1"]) eq_refl)
    as ((w1 & -> & _) & (w2 & -> & _) & (w3 & -> & _)).
  repeat split.
Defined.

(** X21: an edit that carries a schedule key and leaves the alarm enabled,
    when [scheduleAlarm] fails (the time is invalid or expo-notifications
    rejects), throws 'Failed to schedule alarm' and sets the error state;
    the list of alarms and the Store are unchanged, so the record keeps
    the identifier it had, but the request under that identifier has been
    cancelled: when the requests pending for the alarm were under it, none
    is pending for the alarm afterwards. *)
Theorem updateAlarm_failed_schedule_disarms
    (wanted : string) (updates : AlarmUpdates) (w : World) (existing : Alarm) :
  AlarmContext.find wanted (w_alarms w) = Some existing →
  carries_schedule_key updates →
  isEnabled (AlarmContext.merge existing updates (w_now w)) = true →
  isValidTimeString (time (AlarmContext.merge existing updates (w_now w))) = false
  ∨ expo_reply w = ExpoReject →
  ∃ w' : World,
    AlarmContext.updateAlarm wanted updates w = (Throw "Failed to schedule alarm", w')
    ∧ w_error w' = Some "Failed to update alarm"
    ∧ w_alarms w' = w_alarms w
    ∧ w_storage w' = w_storage w
    ∧ AlarmContext.find wanted (w_alarms w') = Some existing
    ∧ w_scheduled w' = after_cancel (notificationId existing) (w_scheduled w)
    ∧ (registered_under wanted (notificationId existing) (w_scheduled w) →
       live_for wanted (w_scheduled w') = []).
Proof.
  intros Hfind Hkeys Hen Hfail.
  apply needsReschedule_keys in Hkeys.
  unfold AlarmContext.updateAlarm, try_catch at 1.
  unfold bind at 1, modify at 1. unfold bind at 1, gets at 1. simpl.
  rewrite Hfind. unfold bind at 1, gets at 1. simpl.
  rewrite Hkeys. simpl in Hen. rewrite Hen.
  unfold bind at 1. unfold bind at 1. rewrite cancelAlarm_run.
  unfold bind at 1. rewrite scheduleAlarm_run.
  rewrite cancel_world_now, cancel_world_reply.
  change (w_now (set_error None w)) with (w_now w).
  change (expo_reply (set_error None w)) with (expo_reply w).
  set (merged := AlarmContext.merge existing updates (w_now w)) in *.
  pose proof (getNextAlarmTime_ok_iff merged (w_now w)) as Hok.
  assert (∀ wf, w_alarms wf = w_alarms w → w_storage wf = w_storage w →
                w_scheduled wf = after_cancel (notificationId existing) (w_scheduled w) →
            w_alarms wf = w_alarms w
            ∧ w_storage wf = w_storage w
            ∧ AlarmContext.find wanted (w_alarms wf) = Some existing
            ∧ w_scheduled wf
              = after_cancel (notificationId existing) (w_scheduled w)
            ∧ (registered_under wanted (notificationId existing) (w_scheduled w) →
               live_for wanted (w_scheduled wf) = [])) as Hfinish.
  { intros wf Ha Hs Hsch. rewrite Ha, Hs, Hsch. repeat split; try assumption.
    apply live_for_after_cancel_nil. }
  destruct (getNextAlarmTime merged (w_now w)) as [t|e] eqn:Hnext.
  - destruct Hfail as [Hbad | Hrej];
      [rewrite Hbad in Hok; discriminate|].
    rewrite Hrej. cbn.
    eexists. split; [reflexivity|]. split; [reflexivity|].
    apply Hfinish; cbn;
      rewrite ?cancel_world_alarms, ?cancel_world_storage, ?cancel_world_scheduled;
      reflexivity.
  - cbn.
    eexists. split; [reflexivity|]. split; [reflexivity|].
    apply Hfinish; cbn;
      rewrite ?cancel_world_alarms, ?cancel_world_storage, ?cancel_world_scheduled;
      reflexivity.
Qed.

Lemma updateAlarm_failed_schedule_disarms_witness :
  ∃ w' : World,
    AlarmContext.updateAlarm "alarm-1" (upd_time "08:00") (armedWorld [ExpoReject])
      = (Throw "Failed to schedule alarm", w')
    ∧ AlarmContext.find "alarm-1" (w_alarms w') = Some armedAlarm
    ∧ w_scheduled w' = [].
Proof.
  destruct (updateAlarm_failed_schedule_disarms "alarm-1" (upd_time "08:00")
              (armedWorld [ExpoReject]) armedAlarm eq_refl
              (or_introl (ex_intro _ "08:00" eq_refl)) eq_refl (or_intror eq_refl))
    as (w' & Hrun & _ & _ & _ & Hfind & Hsched & _).
  exists w'. split; [exact Hrun|]. split; [exact Hfind|].
  rewrite Hsched. vm_compute. reflexivity.
Defined.

(** ** Frames: what leaves the state and the Store alone *)

Lemma data_ret {A} (a : A) : keeps_data (ret a).
Proof. intros w r w' [= <- <-]. reflexivity. Qed.

Lemma data_throw {A} msg : keeps_data (@throw A msg).
Proof. intros w r w' [= <- <-]. reflexivity. Qed.

Lemma data_gets {A} (f : World → A) : keeps_data (gets f).
Proof. intros w r w' [= <- <-]. reflexivity. Qed.

Lemma data_modify (f : World → World) :
  (∀ w, alarm_data (f w) = alarm_data w) → keeps_data (modify f).
Proof. intros Hf w r w' [= <- <-]. apply Hf. Qed.

Lemma data_console_error msg about : keeps_data (console_error msg about).
Proof. apply data_modify. reflexivity. Qed.

Lemma data_bind {A B} (m : M A) (k : A → M B) :
  keeps_data m → (∀ a, keeps_data (k a)) → keeps_data (bind m k).
Proof.
  intros Hm Hk w r w'. unfold bind.
  destruct (m w) as [[a|e] w1] eqn:Em.
  - intros Hrun. rewrite (Hk _ _ _ _ Hrun). exact (Hm _ _ _ Em).
  - intros [= <- <-]. exact (Hm _ _ _ Em).
Qed.

Lemma data_try_catch {A} (m : M A) (h : string → M A) :
  keeps_data m → (∀ e, keeps_data (h e)) → keeps_data (try_catch m h).
Proof.
  intros Hm Hh w r w'. unfold try_catch.
  destruct (m w) as [[a|e] w1] eqn:Em.
  - intros [= <- <-]. exact (Hm _ _ _ Em).
  - intros Hrun. rewrite (Hh _ _ _ _ Hrun). exact (Hm _ _ _ Em).
Qed.

Lemma data_scheduleAlarm alarm : keeps_data (SchedulerService.scheduleAlarm alarm).
Proof.
  intros w r w'. rewrite scheduleAlarm_run.
  destruct (getNextAlarmTime _ _); [destruct (expo_reply w)|];
    intros [= <- <-]; reflexivity.
Qed.

Lemma data_cancelAlarm nid :
  keeps_data (when_truthy nid SchedulerService.cancelAlarm).
Proof.
  intros w r w'. rewrite cancelAlarm_run. intros [= <- <-].
  unfold alarm_data. rewrite cancel_world_alarms, cancel_world_storage.
  reflexivity.
Qed.

Lemma data_nextRandom : keeps_data AlarmContext.nextRandom.
Proof. intros w r w' [= <- <-]. reflexivity. Qed.

Ltac data_step :=
  first
    [ apply data_scheduleAlarm | apply data_cancelAlarm | apply data_nextRandom
    | apply data_bind; [|intros ?]
    | apply data_try_catch; [|intros ?]
    | apply data_ret | apply data_throw | apply data_gets
    | apply data_console_error
    | apply data_modify; intros ?; reflexivity
    | match goal with
      | |- keeps_data (if ?b then _ else _) => destruct b
      | |- keeps_data (match ?x with _ => _ end) => destruct x
      end ].

Lemma data_on_throw_of_keeps {A} (m : M A) :
  keeps_data m → keeps_data_on_throw m.
Proof. intros Hm w e w' Hrun. exact (Hm _ _ _ Hrun). Qed.

Lemma data_on_throw_never {A} (m : M A) :
  (∀ w, is_ok (m w).1 = true) → keeps_data_on_throw m.
Proof.
  intros Hm w e w' Hrun. specialize (Hm w). rewrite Hrun in Hm. discriminate.
Qed.

Lemma data_on_throw_bind {A B} (m : M A) (k : A → M B) :
  keeps_data m → (∀ a, keeps_data_on_throw (k a)) →
  keeps_data_on_throw (bind m k).
Proof.
  intros Hm Hk w e w' Hrun.
  apply bind_Throw_inv in Hrun as [Hrun | (a & w1 & Hrun & Hk')].
  - exact (Hm _ _ _ Hrun).
  - rewrite (Hk _ _ _ _ Hk'). exact (Hm _ _ _ Hrun).
Qed.

(** A body that ends with a step that may change the data but never
    throws. *)
Lemma data_on_throw_bind_last {A B} (m : M A) (k : A → M B) :
  keeps_data_on_throw m → (∀ a w, is_ok (k a w).1 = true) →
  keeps_data_on_throw (bind m k).
Proof.
  intros Hm Hk w e w' Hrun.
  apply bind_Throw_inv in Hrun as [Hrun | (a & w1 & _ & Hk')].
  - exact (Hm _ _ _ Hrun).
  - specialize (Hk a w1). rewrite Hk' in Hk. discriminate.
Qed.

Lemma data_on_throw_try_catch {A} (m : M A) (h : string → M A) :
  keeps_data_on_throw m → (∀ e, keeps_data (h e)) →
  keeps_data_on_throw (try_catch m h).
Proof.
  intros Hm Hh w e w' Hrun.
  apply try_catch_inv in Hrun as [(a & [=] & _) | (e0 & w1 & Hrun & Hh')].
  rewrite (Hh _ _ _ _ Hh'). exact (Hm _ _ _ Hrun).
Qed.

Lemma data_on_throw_storage_updateAlarm a :
  keeps_data_on_throw (StorageService.updateAlarm a).
Proof.
  intros w e w'. rewrite storage_updateAlarm_run.
  destruct (StorageService.findIndex _ _); intros [= <- <-]; reflexivity.
Qed.

Lemma data_on_throw_updateAlarm wanted updates :
  keeps_data_on_throw (AlarmContext.updateAlarm wanted updates).
Proof.
  unfold AlarmContext.updateAlarm.
  apply data_on_throw_try_catch; [|intros ?; repeat data_step].
  apply data_on_throw_bind; [repeat data_step | intros _].
  apply data_on_throw_bind; [repeat data_step | intros alarms].
  destruct (AlarmContext.find wanted alarms) as [existing|];
    [|apply data_on_throw_of_keeps, data_throw].
  apply data_on_throw_bind; [repeat data_step | intros now].
  apply data_on_throw_bind; [repeat data_step | intros updated].
  apply data_on_throw_bind_last; [apply data_on_throw_storage_updateAlarm|].
  reflexivity.
Qed.

Lemma data_on_throw_toggleAlarm wanted :
  keeps_data_on_throw (AlarmContext.toggleAlarm wanted).
Proof.
  unfold AlarmContext.toggleAlarm.
  apply data_on_throw_try_catch; [|intros ?; repeat data_step].
  apply data_on_throw_bind; [repeat data_step | intros _].
  apply data_on_throw_bind; [repeat data_step | intros alarms].
  destruct (AlarmContext.find wanted alarms) as [existing|];
    [|apply data_on_throw_of_keeps, data_throw].
  apply data_on_throw_updateAlarm.
Qed.

Lemma data_on_throw_addAlarm input :
  keeps_data_on_throw (AlarmContext.addAlarm input).
Proof.
  unfold AlarmContext.addAlarm.
  apply data_on_throw_try_catch; [|intros ?; repeat data_step].
  apply data_on_throw_bind; [repeat data_step | intros _].
  apply data_on_throw_bind; [repeat data_step | intros now].
  apply data_on_throw_bind; [repeat data_step | intros rnd].
  apply data_on_throw_bind; [repeat data_step | intros a].
  apply data_on_throw_bind_last; [|reflexivity].
  intros w e w'. rewrite storage_addAlarm_run. discriminate.
Qed.

Lemma data_on_throw_deleteAlarm wanted :
  keeps_data_on_throw (AlarmContext.deleteAlarm wanted).
Proof.
  intros w e w'. rewrite deleteAlarm_run.
  destruct (AlarmContext.find wanted (w_alarms w)); [discriminate|].
  intros [= <- <-]. reflexivity.
Qed.

(** Each operation of the context sets the error state when it throws. *)
Lemma context_handler_error {A} (body : M A) (log msg : string) w e w' :
  try_catch body
    (fun err =>
       exec console_error log None in
       exec modify (set_error (Some msg)) in
       throw err) w = (Throw e, w') →
  w_error w' = Some msg.
Proof.
  intros Hrun.
  apply try_catch_inv in Hrun as [(a & [=] & _) | (e0 & w1 & _ & Hh)].
  unfold bind, console_error, modify, throw in Hh.
  injection Hh as _ <-. reflexivity.
Qed.

(** X22: an operation of the context that throws ([addAlarm], [updateAlarm],
    [toggleAlarm] or [deleteAlarm]; AsyncStorage itself does not fail)
    leaves the list of alarms and the Store exactly as they were, and
    leaves an error message in the error state. *)
Theorem failed_operation_keeps_data (w w' : World) (e : string) :
  (∃ input, AlarmContext.addAlarm input w = (Throw e, w'))
  ∨ (∃ wanted updates, AlarmContext.updateAlarm wanted updates w = (Throw e, w'))
  ∨ (∃ wanted, AlarmContext.toggleAlarm wanted w = (Throw e, w'))
  ∨ (∃ wanted, AlarmContext.deleteAlarm wanted w = (Throw e, w')) →
  w_alarms w' = w_alarms w
  ∧ w_storage w' = w_storage w
  ∧ is_Some (w_error w').
Proof.
  intros [(input & Hrun) | [(wanted & updates & Hrun)
          | [(wanted & Hrun) | (wanted & Hrun)]]].
  - pose proof (data_on_throw_addAlarm _ _ _ _ Hrun) as [= Ha Hs].
    apply context_handler_error in Hrun. rewrite Hrun. eauto.
  - pose proof (data_on_throw_updateAlarm _ _ _ _ _ Hrun) as [= Ha Hs].
    apply context_handler_error in Hrun. rewrite Hrun. eauto.
  - pose proof (data_on_throw_toggleAlarm _ _ _ _ Hrun) as [= Ha Hs].
    apply context_handler_error in Hrun. rewrite Hrun. eauto.
  - pose proof (data_on_throw_deleteAlarm _ _ _ _ Hrun) as [= Ha Hs].
    apply context_handler_error in Hrun. rewrite Hrun. eauto.
Qed.

Lemma failed_operation_keeps_data_witness :
  w_alarms (AlarmContext.toggleAlarm "nobody" (armedWorld [ExpoReject])).2
    = w_alarms (armedWorld [ExpoReject])
  ∧ w_storage (AlarmContext.toggleAlarm "nobody" (armedWorld [ExpoReject])).2
    = w_storage (armedWorld [ExpoReject])
  ∧ is_Some (w_error (AlarmContext.toggleAlarm "nobody" (armedWorld [ExpoReject])).2).
Proof.
  apply (failed_operation_keeps_data (armedWorld [ExpoReject]) _ "Alarm not found").
  right. right. left. exists "nobody". vm_compute. reflexivity.
Defined.

(** ** The context: what a completed edit changes *)

Lemma find_replace_other other wanted updated alarms :
  other ≠ wanted → id updated = wanted →
  AlarmContext.find other (replace_alarm wanted updated alarms)
  = AlarmContext.find other alarms.
Proof.
  intros Hne Hid. induction alarms as [|a rest IH]; [reflexivity|].
  simpl. destruct (String.eqb_spec (id a) wanted) as [Ha|Ha].
  - simpl. rewrite Hid.
    destruct (String.eqb_spec wanted other) as [|_]; [congruence|].
    destruct (String.eqb_spec (id a) other) as [|_]; [congruence|].
    exact IH.
  - simpl. destruct (String.eqb (id a) other); [reflexivity | exact IH].
Qed.

(** The alarm that a completed [updateAlarm] saves is the merged alarm, up
    to its identifier. *)
Lemma reschedule_outcome_fields existing merged needs w0 updated w1 :
  reschedule_outcome existing merged needs w0 updated w1 →
  ∃ nid, updated = with_notificationId merged nid.
Proof.
  unfold reschedule_outcome. destruct needs.
  - destruct (isEnabled merged).
    + intros (t & identifier & _ & _ & -> & _). eauto.
    + intros [-> _]. eauto.
  - intros [-> _]. exists (notificationId merged). destruct merged; reflexivity.
Qed.

(** X23: a completed [updateAlarm] replaces the alarm of the given id by
    one with the same id and creation time, stamped with the current time,
    whose other fields (the identifier apart) are those of the update where
    it carries them and those of the alarm otherwise; the list keeps its
    length and every alarm with another id is found as before. *)
Theorem updateAlarm_touches_only_wanted
    (wanted : string) (updates : AlarmUpdates) (w w' : World) :
  AlarmContext.updateAlarm wanted updates w = (Ok tt, w') →
  ∃ existing updated : Alarm,
    AlarmContext.find wanted (w_alarms w) = Some existing
    ∧ AlarmContext.find wanted (w_alarms w') = Some updated
    ∧ (∃ nid, updated
              = with_notificationId
                  (AlarmContext.merge existing updates (w_now w)) nid)
    ∧ id updated = wanted
    ∧ createdAt updated = createdAt existing
    ∧ updatedAt updated = w_now w
    ∧ length (w_alarms w') = length (w_alarms w)
    ∧ (∀ other, other ≠ wanted →
         AlarmContext.find other (w_alarms w')
         = AlarmContext.find other (w_alarms w)).
Proof.
  intros Hrun.
  destruct (updateAlarm_Ok _ _ _ _ Hrun)
    as (existing & index & updated & w1 & Hfind & Hout & _ & ->).
  destruct (find_Some _ _ _ Hfind) as [Hid _].
  pose proof (reschedule_outcome_fields _ _ _ _ _ _ Hout) as [nid ->].
  assert (w_alarms w1 = w_alarms w) as Halarms.
  { unfold reschedule_outcome in Hout.
    destruct (AlarmContext.needsReschedule updates).
    - destruct (isEnabled _).
      + destruct Hout as (t & identifier & _ & _ & _ & ->). simpl.
        rewrite cancel_world_alarms. reflexivity.
      + destruct Hout as [_ ->]. rewrite cancel_world_alarms. reflexivity.
    - destruct Hout as [_ ->]. reflexivity. }
  exists existing, (with_notificationId
                      (AlarmContext.merge existing updates (w_now w)) nid).
  simpl. rewrite Halarms.
  split; [exact Hfind|].
  split; [apply (find_replace _ _ _ _ Hfind); exact Hid|].
  split; [eauto|].
  split; [exact Hid|].
  split; [reflexivity|].
  split; [reflexivity|].
  split; [apply length_map|].
  intros other Hne. apply find_replace_other; [exact Hne | exact Hid].
Qed.

Lemma updateAlarm_touches_only_wanted_witness :
  ∃ updated : Alarm,
    AlarmContext.find "alarm-1"
      (w_alarms (AlarmContext.updateAlarm "alarm-1" (upd_time "08:00")
                   (armedWorld [ExpoId "n1"])).2) = Some updated
    ∧ time updated = "08:00"
    ∧ updatedAt updated = Date.make 2025 10 23 7 0.
Proof.
  destruct (updateAlarm_touches_only_wanted "alarm-1" (upd_time "08:00")
              (armedWorld [ExpoId "n1"])
              (AlarmContext.updateAlarm "alarm-1" (upd_time "08:00")
                 (armedWorld [ExpoId "n1"])).2)
    as (existing & updated & Hfind & Hfind' & (nid & Hupd) & _ & _ & Hat & _).
  { vm_compute. reflexivity. }
  exists updated. split; [exact Hfind'|].
  injection Hfind as <-. subst updated. split; reflexivity.
Defined.

(** ** The state and the Store stay in step *)

Lemma replace_absent wanted updated alarms :
  wanted ∉ id <$> alarms → replace_alarm wanted updated alarms = alarms.
Proof.
  induction alarms as [|a rest IH]; [reflexivity|].
  rewrite fmap_cons, not_elem_of_cons. intros [Hne Hrest]. simpl.
  destruct (String.eqb_spec (id a) wanted) as [Ha|_]; [congruence|].
  f_equal. apply IH, Hrest.
Qed.

(** With distinct ids, replacing every alarm of an id is replacing the
    first one. *)
Lemma replace_insert wanted updated alarms index :
  NoDup (id <$> alarms) →
  StorageService.findIndex wanted alarms = Some index →
  replace_alarm wanted updated alarms = <[index := updated]> alarms.
Proof.
  revert index. induction alarms as [|a rest IH]; intros index Hnd;
    [discriminate|].
  rewrite fmap_cons in Hnd. apply NoDup_cons in Hnd as [Hnotin Hnd].
  simpl. destruct (String.eqb_spec (id a) wanted) as [Ha|Ha].
  - intros [= <-]. simpl. f_equal. apply replace_absent. congruence.
  - destruct (StorageService.findIndex wanted rest) as [j|] eqn:Ej;
      [|discriminate].
    intros [= <-]. simpl. f_equal. apply IH; [exact Hnd | reflexivity].
Qed.

Lemma touch_with_notificationId merged nid now :
  updatedAt merged = now →
  StorageService.touch (with_notificationId merged nid) now
  = with_notificationId merged nid.
Proof. intros <-. reflexivity. Qed.

Lemma stored_scheduleAlarm alarm w r w' :
  SchedulerService.scheduleAlarm alarm w = (r, w') →
  stored_alarms w' = stored_alarms w ∧ w_alarms w' = w_alarms w.
Proof.
  intros Hrun. pose proof (data_scheduleAlarm _ _ _ _ Hrun) as [= Ha Hs].
  unfold stored_alarms. rewrite Hs. auto.
Qed.

(** A completed [addAlarm] appends the same alarm to the state and to the
    Store. *)
Lemma addAlarm_appends input w w' :
  AlarmContext.addAlarm input w = (Ok tt, w') →
  ∃ a, w_alarms w' = (w_alarms w ++ [a])%list
       ∧ stored_alarms w' = (stored_alarms w ++ [a])%list.
Proof.
  intros Hrun. unfold AlarmContext.addAlarm in Hrun.
  apply try_catch_inv in Hrun as [(u & _ & Hrun) | (e & w1 & _ & Hthrow)].
  2:{ unfold bind, console_error, modify, throw in Hthrow. discriminate. }
  apply bind_Ok_inv in Hrun as ([] & w0 & [= <-] & Hrun).
  apply bind_Ok_inv in Hrun as (now & w0 & [= <- <-] & Hrun).
  apply bind_Ok_inv in Hrun as (rnd & w1 & Hrnd & Hrun).
  unfold AlarmContext.nextRandom in Hrnd. injection Hrnd as <- <-.
  apply bind_Ok_inv in Hrun as (a & w2 & Hsched & Hrun).
  apply bind_Ok_inv in Hrun as ([] & w3 & Hstore & Hset).
  unfold modify in Hset. injection Hset as Hset. subst w'.
  rewrite storage_addAlarm_run in Hstore. injection Hstore as <-.
  exists a. simpl.
  assert (stored_alarms w2 = stored_alarms w ∧ w_alarms w2 = w_alarms w)
    as [-> ->]; [|split; reflexivity].
  simpl in Hsched. destruct (in_isEnabled input).
  - apply try_catch_inv in Hsched as [(a' & [= <-] & Hsched) | (e & w4 & _ & Hthrow)].
    2:{ unfold bind, console_error, modify, throw in Hthrow. discriminate. }
    apply bind_Ok_inv in Hsched as (nid & w4 & Hsched & [= <- <-]).
    exact (stored_scheduleAlarm _ _ _ _ Hsched).
  - injection Hsched as <- <-. split; reflexivity.
Qed.

Lemma id_without_stamp (l : list Alarm) :
  id <$> (without_stamp <$> l) = id <$> l.
Proof. rewrite <- list_fmap_compose. reflexivity. Qed.

Lemma findIndex_without_stamp wanted (l : list Alarm) :
  StorageService.findIndex wanted (without_stamp <$> l)
  = StorageService.findIndex wanted l.
Proof.
  induction l as [|a rest IH]; [reflexivity|]. simpl.
  destruct (String.eqb (id a) wanted); [reflexivity|].
  change (list_fmap Alarm Alarm without_stamp rest) with (without_stamp <$> rest).
  rewrite IH. reflexivity.
Qed.

Lemma findById_without_stamp wanted (l : list Alarm) :
  StorageService.findById wanted (without_stamp <$> l)
  = without_stamp <$> StorageService.findById wanted l.
Proof.
  induction l as [|a rest IH]; [reflexivity|]. simpl.
  destruct (String.eqb (id a) wanted); [reflexivity | exact IH].
Qed.

Lemma filter_without_stamp wanted (l : list Alarm) :
  without_stamp <$> filter (fun a => id a ≠ wanted) l
  = filter (fun a => id a ≠ wanted) (without_stamp <$> l).
Proof.
  induction l as [|a rest IH]; [reflexivity|].
  rewrite fmap_cons.
  destruct (decide (id a ≠ wanted)) as [Hkeep|Hdrop].
  - rewrite filter_cons_True by exact Hkeep.
    rewrite filter_cons_True by exact Hkeep.
    rewrite fmap_cons, IH. reflexivity.
  - rewrite filter_cons_False by exact Hdrop.
    rewrite filter_cons_False by exact Hdrop. exact IH.
Qed.

Lemma replace_without_stamp wanted updated (l : list Alarm) :
  without_stamp <$> replace_alarm wanted updated l
  = replace_alarm wanted (without_stamp updated) (without_stamp <$> l).
Proof.
  unfold replace_alarm. induction l as [|a rest IH]; [reflexivity|].
  simpl. destruct (String.eqb (id a) wanted); f_equal; exact IH.
Qed.

Lemma updateAlarm_in_step wanted updates w w' :
  same_but_stamps w → NoDup (id <$> w_alarms w) →
  AlarmContext.updateAlarm wanted updates w = (Ok tt, w') →
  same_but_stamps w'.
Proof.
  unfold same_but_stamps. intros Hstep Hnd Hrun.
  destruct (updateAlarm_Ok _ _ _ _ Hrun)
    as (existing & index & updated & w1 & Hfind & Hout & Hidx & ->).
  assert (w_alarms w1 = w_alarms w) as Halarms.
  { unfold reschedule_outcome in Hout.
    destruct (AlarmContext.needsReschedule updates).
    - destruct (isEnabled _).
      + destruct Hout as (t & identifier & _ & _ & _ & ->). simpl.
        rewrite cancel_world_alarms. reflexivity.
      + destruct Hout as [_ ->]. rewrite cancel_world_alarms. reflexivity.
    - destruct Hout as [_ ->]. reflexivity. }
  simpl. rewrite Halarms.
  change (stored_alarms (set_alarms _ (set_storage (Some ?l) _))) with l.
  rewrite list_fmap_insert, replace_without_stamp.
  change (without_stamp (StorageService.touch updated (w_now w)))
    with (without_stamp updated).
  rewrite <- Hstep. symmetry. apply replace_insert.
  - rewrite Hstep, id_without_stamp. exact Hnd.
  - rewrite findIndex_without_stamp. exact Hidx.
Qed.

(** X24: when the state holds the alarms that the Store holds, the
    [updatedAt] stamps apart, it still does after a completed [addAlarm]
    or [deleteAlarm], and after a completed [updateAlarm] or [toggleAlarm]
    when the ids of the alarms are distinct.  After [addAlarm] and
    [deleteAlarm] the stamps agree as well when they did before. *)
Theorem state_matches_store_preserved (w : World) :
  same_but_stamps w →
  (∀ input w', AlarmContext.addAlarm input w = (Ok tt, w') →
               same_but_stamps w'
               ∧ (state_matches_store w → state_matches_store w'))
  ∧ (∀ wanted w', AlarmContext.deleteAlarm wanted w = (Ok tt, w') →
                  same_but_stamps w'
                  ∧ (state_matches_store w → state_matches_store w'))
  ∧ (NoDup (id <$> w_alarms w) →
     (∀ wanted updates w',
        AlarmContext.updateAlarm wanted updates w = (Ok tt, w') →
        same_but_stamps w')
     ∧ (∀ wanted w', AlarmContext.toggleAlarm wanted w = (Ok tt, w') →
                     same_but_stamps w')).
Proof.
  intros Hstep. split; [|split; [|intros Hnd; split]].
  - intros input w' Hrun.
    destruct (addAlarm_appends _ _ _ Hrun) as (a & Ha & Hs).
    unfold same_but_stamps, state_matches_store in *.
    rewrite Ha, Hs, !fmap_app, Hstep.
    split; [reflexivity | intros ->; reflexivity].
  - intros wanted w'. rewrite deleteAlarm_run.
    unfold same_but_stamps, state_matches_store in *.
    destruct (AlarmContext.find wanted (w_alarms w)) as [alarm|] eqn:Hfind;
      [|discriminate].
    intros [= <-].
    assert (StorageService.findById wanted (stored_alarms w) ≠ None) as Hin.
    { intros Hnone.
      pose proof (findById_without_stamp wanted (stored_alarms w)) as Hs.
      rewrite Hstep, findById_without_stamp, <- find_findById, Hfind, Hnone in Hs.
      discriminate. }
    destruct (StorageService.findById wanted (stored_alarms w)) as [stored|];
      [|congruence].
    simpl. rewrite cancel_world_alarms. simpl.
    change (stored_alarms (set_alarms _ (set_storage (Some ?l) _))) with l.
    rewrite !filter_without_stamp, Hstep.
    split; [reflexivity | intros ->; reflexivity].
  - intros wanted updates w'. apply updateAlarm_in_step; assumption.
  - intros wanted w' Hrun.
    destruct (toggleAlarm_Ok _ _ _ Hrun) as (alarm & _ & Hupd).
    exact (updateAlarm_in_step _ _ (set_error None w) w' Hstep Hnd Hupd).
Qed.

Lemma state_matches_store_preserved_witness :
  same_but_stamps
    (AlarmContext.updateAlarm "alarm-1" (upd_time "08:00")
       (armedWorld [ExpoId "n1"])).2.
Proof.
  destruct (state_matches_store_preserved (armedWorld [ExpoId "n1"]) eq_refl)
    as (_ & _ & Hupd).
  destruct Hupd as [Hupd _]; [apply NoDup_singleton|].
  apply (Hupd "alarm-1" (upd_time "08:00")). vm_compute. reflexivity.
Defined.

(** ** The context: toggling *)

Lemma getNextAlarmTime_Ok_future alarm now t :
  getNextAlarmTime alarm now = Ok t → now < t.
Proof.
  intros Ht.
  destruct (parseTimeString (time alarm)) as [hm|e] eqn:Hparse.
  - destruct (getNextAlarmTime_future alarm now hm Hparse) as (next & Hn & Hlt & _).
    congruence.
  - unfold getNextAlarmTime in Ht. rewrite Hparse in Ht. discriminate.
Qed.

(** X25: a completed [toggleAlarm] flips the enabled flag of the alarm and
    cancels the request under the identifier it held.  Turning the alarm
    off leaves it without identifier and registers nothing; turning it on
    registers one request at its next trigger time, which is in the
    future, and stores the identifier of that request. *)
Theorem toggleAlarm_flips (wanted : string) (w w' : World) :
  AlarmContext.toggleAlarm wanted w = (Ok tt, w') →
  ∃ alarm updated : Alarm,
    AlarmContext.find wanted (w_alarms w) = Some alarm
    ∧ AlarmContext.find wanted (w_alarms w') = Some updated
    ∧ isEnabled updated = negb (isEnabled alarm)
    ∧ if isEnabled alarm then
        notificationId updated = None
        ∧ w_calls w' = (w_calls w ++ cancel_calls (notificationId alarm))%list
        ∧ w_scheduled w' = after_cancel (notificationId alarm) (w_scheduled w)
      else
        ∃ t identifier,
          getNextAlarmTime alarm (w_now w) = Ok t
          ∧ w_now w < t
          ∧ notificationId updated = Some identifier
          ∧ w_calls w' = (w_calls w ++ cancel_calls (notificationId alarm)
                          ++ [CallSchedule wanted t (ExpoId identifier)])%list
          ∧ w_scheduled w' = (after_cancel (notificationId alarm) (w_scheduled w)
                              ++ [alarm_registration alarm identifier t])%list.
Proof.
  intros Hrun.
  destruct (toggleAlarm_Ok _ _ _ Hrun) as (alarm & Hfind & Hupd).
  destruct (updateAlarm_effect _ _ _ _ Hupd)
    as (existing & updated & Hfind0 & Hfind' & Hkey & _).
  change (w_alarms (set_error None w)) with (w_alarms w) in Hfind0.
  rewrite Hfind in Hfind0. injection Hfind0 as <-.
  exists alarm, updated. split; [exact Hfind|]. split; [exact Hfind'|].
  assert (carries_schedule_key (upd_isEnabled (negb (isEnabled alarm)))) as Hk
    by (right; right; left; eexists; reflexivity).
  specialize (Hkey Hk). simpl in Hkey.
  destruct (isEnabled alarm) eqn:Een; simpl in Hkey.
  - destruct Hkey as (Hcalls & Hsched & ->). simpl. auto.
  - destruct Hkey as (t & identifier & Ht & Hcalls & Hsched & ->).
    simpl. split; [reflexivity|].
    exists t, identifier.
    assert (getNextAlarmTime alarm (w_now w) = Ok t) as Ht' by exact Ht.
    split; [exact Ht'|].
    split; [exact (getNextAlarmTime_Ok_future _ _ _ Ht')|].
    split; [reflexivity|]. split; [exact Hcalls | exact Hsched].
Qed.

Lemma toggleAlarm_flips_witness :
  ∃ updated : Alarm,
    AlarmContext.find "alarm-1"
      (w_alarms (AlarmContext.toggleAlarm "alarm-1" (armedWorld [])).2)
    = Some updated
    ∧ isEnabled updated = false
    ∧ w_scheduled (AlarmContext.toggleAlarm "alarm-1" (armedWorld [])).2 = [].
Proof.
  destruct (toggleAlarm_flips "alarm-1" (armedWorld [])
              (AlarmContext.toggleAlarm "alarm-1" (armedWorld [])).2)
    as (alarm & updated & Hfind & Hfind' & Hflip & Hrest).
  { vm_compute. reflexivity. }
  injection Hfind as <-. destruct Hrest as (_ & _ & Hsched).
  exists updated. split; [exact Hfind'|]. split; [exact Hflip|].
  rewrite Hsched. vm_compute. reflexivity.
Defined.

(** ** The handlers of App.tsx *)

Lemma find_findIndex wanted alarms a :
  AlarmContext.find wanted alarms = Some a →
  is_Some (StorageService.findIndex wanted alarms).
Proof.
  intros Hfind. pose proof (findIndex_findById wanted alarms) as H.
  destruct (StorageService.findIndex wanted alarms); [eauto|].
  rewrite find_findById in Hfind. congruence.
Qed.

(** [updateAlarm] with no schedule key saves the merged alarm and makes no
    call to the notifier. *)
Lemma updateAlarm_run_plain wanted updates w existing index :
  AlarmContext.find wanted (w_alarms w) = Some existing →
  AlarmContext.needsReschedule updates = false →
  StorageService.findIndex wanted (stored_alarms w) = Some index →
  AlarmContext.updateAlarm wanted updates w
  = (Ok tt,
     let merged := AlarmContext.merge existing updates (w_now w) in
     set_alarms (replace_alarm wanted merged)
       (set_storage (Some (<[index := merged]> (stored_alarms w)))
          (set_error None w))).
Proof.
  intros Hfind Hneeds Hidx.
  destruct (find_Some _ _ _ Hfind) as [Hid _].
  unfold AlarmContext.updateAlarm, try_catch at 1.
  unfold bind at 1, modify at 1. unfold bind at 1, gets at 1. simpl.
  rewrite Hfind. unfold bind at 1, gets at 1. simpl.
  rewrite Hneeds. unfold bind at 1, ret at 1.
  unfold bind at 1. rewrite storage_updateAlarm_run.
  simpl. rewrite Hid.
  change (stored_alarms (set_error None w)) with (stored_alarms w).
  rewrite Hidx. reflexivity.
Qed.

(** [updateAlarm] with a schedule key that leaves the alarm disabled
    cancels the request of the alarm and saves it without identifier. *)
Lemma updateAlarm_run_disable wanted updates w existing index :
  AlarmContext.find wanted (w_alarms w) = Some existing →
  AlarmContext.needsReschedule updates = true →
  isEnabled (AlarmContext.merge existing updates (w_now w)) = false →
  StorageService.findIndex wanted (stored_alarms w) = Some index →
  AlarmContext.updateAlarm wanted updates w
  = (Ok tt,
     let updated :=
       with_notificationId (AlarmContext.merge existing updates (w_now w)) None in
     set_alarms (replace_alarm wanted updated)
       (set_storage (Some (<[index := updated]> (stored_alarms w)))
          (cancel_world (notificationId existing) (set_error None w)))).
Proof.
  intros Hfind Hneeds Hen Hidx.
  destruct (find_Some _ _ _ Hfind) as [Hid _].
  unfold AlarmContext.updateAlarm, try_catch at 1.
  unfold bind at 1, modify at 1. unfold bind at 1, gets at 1. simpl.
  rewrite Hfind. unfold bind at 1, gets at 1. simpl.
  rewrite Hneeds. simpl in Hen. rewrite Hen.
  unfold bind at 1. unfold bind at 1. rewrite cancelAlarm_run.
  unfold ret at 1. unfold bind at 1. rewrite storage_updateAlarm_run.
  simpl. rewrite Hid.
  assert (stored_alarms (cancel_world (notificationId existing) (set_error None w))
          = stored_alarms w) as ->.
  { unfold stored_alarms. rewrite cancel_world_storage. reflexivity. }
  rewrite Hidx, cancel_world_now. reflexivity.
Qed.

Lemma hook_scheduleSnooze_run alarm duration w :
  useAlarmScheduler.scheduleSnooze alarm duration w =
  let snoozeTime := w_now w + duration * 60 * 1000 in
  if Date.isValid snoozeTime then
    match expo_reply w with
    | ExpoId identifier =>
        (Ok identifier,
         register_world (snooze_registration alarm identifier snoozeTime)
           (call_world (id alarm) snoozeTime w))
    | ExpoReject =>
        (Throw "Failed to schedule snooze",
         log_world "[useAlarmScheduler] Failed to schedule snooze:" None
           (log_world "[SchedulerService] Failed to schedule snooze:" None
              (log_world "[NotificationService] Failed to schedule notification:"
                 None (call_world (id alarm) snoozeTime w))))
    end
  else
    (Throw "Failed to schedule snooze",
     log_world "[useAlarmScheduler] Failed to schedule snooze:" None
       (log_world "[SchedulerService] Failed to schedule snooze:" None w)).
Proof.
  unfold useAlarmScheduler.scheduleSnooze, try_catch.
  rewrite scheduleSnooze_run. cbv zeta.
  destruct (Date.isValid _); [destruct (expo_reply w)|]; reflexivity.
Qed.

Lemma after_cancel_idem nid regs :
  after_cancel nid (after_cancel nid regs) = after_cancel nid regs.
Proof.
  unfold after_cancel. destruct nid as [s|]; [|reflexivity].
  destruct (truthy (Some s)); [|reflexivity].
  apply filter_filter_same.
Qed.

(** X26: the snooze action on a known alarm whose snooze is enabled, when
    the state matches the Store.  The handler never throws, and it first
    cancels the request under the identifier of the alarm.  When the
    current time plus the snooze duration in minutes is within the range
    of [Date], it asks for one request at that instant: if
    expo-notifications accepts, that request is pending, the alarm holds
    its identifier and keeps its enabled flag; if expo-notifications
    rejects, the error is swallowed, the alarm and the Store are unchanged,
    the old request stays cancelled and nothing is pending in its place.
    When that instant is outside the range, no request is asked for: the
    error is swallowed in the same way and the cancel is the only call. *)
Theorem onSnooze_outcome (alarmId : string) (w : World) (alarm : Alarm) :
  AlarmContext.find alarmId (w_alarms w) = Some alarm →
  snoozeEnabled alarm = true →
  state_matches_store w →
  let snoozeTime := w_now w + snoozeDuration alarm * 60 * 1000 in
  ∃ w' : World,
    App.onSnooze alarmId w = (Ok tt, w')
    ∧ if Date.isValid snoozeTime then
        w_calls w' = (w_calls w ++ cancel_calls (notificationId alarm)
                      ++ [CallSchedule alarmId snoozeTime (expo_reply w)])%list
        ∧ match expo_reply w with
          | ExpoId identifier =>
              w_scheduled w'
              = (after_cancel (notificationId alarm) (w_scheduled w)
                 ++ [snooze_registration alarm identifier snoozeTime])%list
              ∧ ∃ updated,
                  AlarmContext.find alarmId (w_alarms w') = Some updated
                  ∧ notificationId updated = Some identifier
                  ∧ isEnabled updated = isEnabled alarm
          | ExpoReject =>
              w_scheduled w' = after_cancel (notificationId alarm) (w_scheduled w)
              ∧ w_alarms w' = w_alarms w
              ∧ w_storage w' = w_storage w
          end
      else
        w_calls w' = (w_calls w ++ cancel_calls (notificationId alarm))%list
        ∧ w_scheduled w' = after_cancel (notificationId alarm) (w_scheduled w)
        ∧ w_alarms w' = w_alarms w
        ∧ w_storage w' = w_storage w.
Proof.
  intros Hfind Hsnooze Hstep snoozeTime.
  destruct (find_Some _ _ _ Hfind) as [Hid _].
  destruct (find_findIndex _ _ _ Hfind) as [index Hidx].
  rewrite <- Hstep in Hidx.
  unfold App.onSnooze, try_catch at 1. unfold bind at 1.
  rewrite getAlarmById_run, Hfind, Hsnooze.
  change (negb true) with false. cbv iota.
  unfold bind at 1. rewrite cancelSchedule_run.
  unfold bind at 1. rewrite hook_scheduleSnooze_run.
  rewrite cancel_world_reply, cancel_world_now. fold snoozeTime. rewrite Hid.
  cbv zeta. destruct (Date.isValid snoozeTime).
  - destruct (expo_reply w) as [identifier|] eqn:Hreply; cbv beta iota zeta.
    + set (w2 := register_world _ _).
      assert (w_alarms w2 = w_alarms w) as Ha
        by (unfold w2; simpl; apply cancel_world_alarms).
      assert (stored_alarms w2 = stored_alarms w) as Hs
        by (unfold w2, stored_alarms; simpl; rewrite cancel_world_storage;
            reflexivity).
      rewrite (updateAlarm_run_plain alarmId _ w2 alarm index);
        [|rewrite Ha; exact Hfind | reflexivity | rewrite Hs; exact Hidx].
      eexists. split; [reflexivity|]. simpl.
      rewrite cancel_world_calls, cancel_world_scheduled, cancel_world_reply,
        Hreply, cancel_world_alarms.
      split; [rewrite <- app_assoc; reflexivity|].
      split; [reflexivity|].
      eexists. split; [apply (find_replace _ _ _ _ Hfind); exact Hid|].
      split; reflexivity.
    + eexists. split; [reflexivity|]. simpl.
      rewrite cancel_world_calls, cancel_world_scheduled, cancel_world_reply,
        Hreply, cancel_world_alarms, cancel_world_storage.
      split; [rewrite <- app_assoc; reflexivity|].
      repeat split.
  - cbv beta iota zeta. eexists. split; [reflexivity|]. simpl.
    rewrite cancel_world_calls, cancel_world_scheduled, cancel_world_alarms,
      cancel_world_storage.
    repeat split.
Qed.

Lemma onSnooze_outcome_witness :
  ∃ w' : World,
    App.onSnooze "alarm-1" (armedWorld [ExpoId "n1"]) = (Ok tt, w')
    ∧ w_scheduled w'
      = [snooze_registration armedAlarm "n1" (Date.make 2025 10 23 7 10)].
Proof.
  destruct (onSnooze_outcome "alarm-1" (armedWorld [ExpoId "n1"]) armedAlarm
              eq_refl eq_refl eq_refl)
    as (w' & Hrun & Hrest).
  exists w'. split; [exact Hrun|].
  change (Date.isValid (w_now (armedWorld [ExpoId "n1"])
                        + snoozeDuration armedAlarm * 60 * 1000))
    with true in Hrest.
  destruct Hrest as (_ & Hsched & _).
  rewrite Hsched. vm_compute. reflexivity.
Defined.

(** X27: the dismiss action on a known one-time alarm, when the state
    matches the Store, disables the alarm and clears its identifier.  The
    request under the old identifier is cancelled twice, once by the
    handler and once by [updateAlarm] (which still reads the identifier
    from the state), and nothing is registered. *)
Theorem onDismiss_one_time (alarmId : string) (w : World) (alarm : Alarm) :
  AlarmContext.find alarmId (w_alarms w) = Some alarm →
  repeats alarm = [] →
  state_matches_store w →
  ∃ (w' : World) (updated : Alarm),
    App.onDismiss alarmId w = (Ok tt, w')
    ∧ AlarmContext.find alarmId (w_alarms w') = Some updated
    ∧ isEnabled updated = false
    ∧ notificationId updated = None
    ∧ w_calls w' = (w_calls w ++ cancel_calls (notificationId alarm)
                    ++ cancel_calls (notificationId alarm))%list
    ∧ w_scheduled w' = after_cancel (notificationId alarm) (w_scheduled w)
    ∧ (registered_under alarmId (notificationId alarm) (w_scheduled w) →
       live_for alarmId (w_scheduled w') = []).
Proof.
  intros Hfind Hrep Hstep.
  destruct (find_Some _ _ _ Hfind) as [Hid _].
  destruct (find_findIndex _ _ _ Hfind) as [index Hidx].
  rewrite <- Hstep in Hidx.
  unfold App.onDismiss, try_catch at 1. unfold bind at 1.
  rewrite getAlarmById_run, Hfind.
  unfold bind at 1. rewrite cancelSchedule_run, Hrep.
  change (0 <? length (@nil WeekDay))%nat with false. cbv iota.
  set (wc := cancel_world (notificationId alarm) w).
  assert (w_alarms wc = w_alarms w) as Ha by apply cancel_world_alarms.
  assert (stored_alarms wc = stored_alarms w) as Hs
    by (unfold wc, stored_alarms; rewrite cancel_world_storage; reflexivity).
  rewrite (updateAlarm_run_disable alarmId _ wc alarm index);
    [ | rewrite Ha; exact Hfind
      | apply needsReschedule_keys; right; right; left; eexists; reflexivity
      | reflexivity
      | rewrite Hs; exact Hidx ].
  eexists. eexists. split; [reflexivity|]. simpl.
  rewrite cancel_world_alarms, cancel_world_calls, cancel_world_scheduled.
  simpl. unfold wc.
  rewrite cancel_world_alarms, cancel_world_calls, cancel_world_scheduled,
    after_cancel_idem.
  split; [apply (find_replace _ _ _ _ Hfind); exact Hid|].
  split; [reflexivity|]. split; [reflexivity|].
  split; [rewrite <- app_assoc; reflexivity|].
  split; [reflexivity|]. apply live_for_after_cancel_nil.
Qed.

Lemma onDismiss_one_time_witness :
  ∃ (w' : World) (updated : Alarm),
    App.onDismiss "alarm-1" (armedWorld []) = (Ok tt, w')
    ∧ AlarmContext.find "alarm-1" (w_alarms w') = Some updated
    ∧ isEnabled updated = false
    ∧ w_calls w' = [CallCancel "n0"; CallCancel "n0"]
    ∧ w_scheduled w' = [].
Proof.
  destruct (onDismiss_one_time "alarm-1" (armedWorld []) armedAlarm
              eq_refl eq_refl eq_refl)
    as (w' & updated & Hrun & Hfind & Hen & _ & Hcalls & Hsched & _).
  exists w', updated. split; [exact Hrun|]. split; [exact Hfind|].
  split; [exact Hen|]. rewrite Hcalls, Hsched. split; vm_compute; reflexivity.
Defined.




(** ** The notification handler: when it shows *)





(** ** The week-day picker *)

(** X30: [toggleDay] flips the membership of the day and of no other day,
    keeps a selection free of duplicates free of duplicates, and toggling
    the same day twice gives back a selection with the same days. *)
Theorem toggleDay_flips (selectedDays : list WeekDay) (day : WeekDay) :
  (day ∈ WeekDayPicker.toggleDay selectedDays day ↔ day ∉ selectedDays)
  ∧ (∀ other, other ≠ day →
       (other ∈ WeekDayPicker.toggleDay selectedDays day ↔ other ∈ selectedDays))
  ∧ (NoDup selectedDays → NoDup (WeekDayPicker.toggleDay selectedDays day))
  ∧ (∀ d, d ∈ WeekDayPicker.toggleDay
                (WeekDayPicker.toggleDay selectedDays day) day
          ↔ d ∈ selectedDays).
Proof.
  assert (∀ s, (day ∈ WeekDayPicker.toggleDay s day ↔ day ∉ s)
               ∧ (∀ other, other ≠ day →
                    (other ∈ WeekDayPicker.toggleDay s day ↔ other ∈ s))) as Hflip.
  { intros s. unfold WeekDayPicker.toggleDay. case_bool_decide as Hin.
    - split.
      + rewrite list_elem_of_filter. tauto.
      + intros other Hne. rewrite list_elem_of_filter. tauto.
    - split.
      + rewrite elem_of_app, list_elem_of_singleton. tauto.
      + intros other Hne. rewrite elem_of_app, list_elem_of_singleton. tauto. }
  destruct (Hflip selectedDays) as [Hday Hother].
  split; [exact Hday|]. split; [exact Hother|]. split.
  - intros Hnd. unfold WeekDayPicker.toggleDay. case_bool_decide as Hin.
    + apply NoDup_filter, Hnd.
    + apply NoDup_app. split; [exact Hnd|]. split; [|apply NoDup_singleton].
      intros x Hx. rewrite list_elem_of_singleton. intros ->. tauto.
  - intros d. destruct (Hflip (WeekDayPicker.toggleDay selectedDays day))
      as [Hday' Hother'].
    destruct (decide (d = day)) as [->|Hne].
    + rewrite Hday', Hday. destruct (decide (day ∈ selectedDays)); tauto.
    + rewrite (Hother' d Hne). apply Hother, Hne.
Qed.
